(** * GPXtruder Modern: the GPX -> polyhedron pipeline and its STL emission

    A shallow embedding of [js/utils.js], [js/model-generator.js],
    [js/gpx-parser.js] and the option collection of [js/app.js].

    JavaScript numbers are IEEE 754 binary64 values: they are modelled by
    Rocq's primitive floats, whose [+ - * / sqrt abs] and comparisons are the
    operations the engine performs.  Array indices, loop counters and lengths
    are integral numbers and are modelled by [nat] and [Z].  The functions of
    the host ([Math.sin], [Math.atan2], proj4, [DataView.setFloat32], ...) are
    not part of the repository: they are the fields of a [Host] record that
    every definition takes as a parameter. *)

From Stdlib Require Import ZArith QArith Lqa List Bool Lia String Ascii Floats Sorted.
From stdpp Require Import base option list gmap strings pretty.

#[local] Set Warnings "-inexact-float".

Local Open Scope Z_scope.
Local Open Scope float_scope.
Local Open Scope list_scope.

(** ** JavaScript numbers *)

Module JS.

Definition number := float.

(** [Math.PI], the binary64 value nearest to pi. *)
Definition PI : number := 0x1.921fb54442d18p+1.

(** [x === y], [x < y], [x > y], [x <= y], [x >= y] on numbers. *)
Definition seq (x y : number) : bool := PrimFloat.eqb x y.
Definition lt (x y : number) : bool := PrimFloat.ltb x y.
Definition gt (x y : number) : bool := PrimFloat.ltb y x.
Definition le (x y : number) : bool := PrimFloat.leb x y.
Definition ge (x y : number) : bool := PrimFloat.leb y x.

Definition isNaN (x : number) : bool := PrimFloat.is_nan x.
Definition isFinite (x : number) : bool := PrimFloat.is_finite x.

(** A number used as a condition: [0], [-0] and [NaN] are falsy. *)
Definition truthy (x : number) : bool := negb (PrimFloat.is_zero x || PrimFloat.is_nan x).

(** [x || d] on numbers. *)
Definition or_else (x d : number) : number := if truthy x then x else d.

(** [Math.min(x, y)]: [NaN] when either argument is, and [-0] below [+0]. *)
Definition min (x y : number) : number :=
  if isNaN x || isNaN y then PrimFloat.nan
  else if PrimFloat.ltb x y then x
  else if PrimFloat.ltb y x then y
  else if PrimFloat.is_zero x && PrimFloat.get_sign x then x
  else y.

(** [Math.sign(x)]. *)
Definition sign (x : number) : number :=
  if PrimFloat.ltb 0 x then 1
  else if PrimFloat.ltb x 0 then (-1)
  else x.

Definition of_Z (z : Z) : number :=
  match z with
  | Z0 => 0
  | Zpos p => PrimFloat.of_uint63 (Uint63.of_Z (Zpos p))
  | Zneg p => - PrimFloat.of_uint63 (Uint63.of_Z (Zpos p))
  end.

End JS.

(** ** Exceptions *)

(** What a JavaScript function of the pipeline can throw: the engine's
    [TypeError] (a property read on [undefined]) and [RangeError] (a
    [DataView] write outside its buffer), and [new Error(message)]. *)
Inductive exn : Type :=
  | TypeError
  | RangeError
  | Error (message : string).

Inductive result (A : Type) : Type :=
  | Ok (a : A)
  | Throw (e : exn).
Arguments Ok {A} a.
Arguments Throw {A} e.

Definition rbind {A B} (r : result A) (k : A -> result B) : result B :=
  match r with
  | Ok a => k a
  | Throw e => Throw e
  end.

Notation "x <- r ;; k" := (rbind r (fun x => k))
  (at level 100, r at next level, right associativity).

(** [a[i]] followed by a property read: [undefined] raises a [TypeError]. *)
Definition deref {A} (l : list A) (i : Z) : result A :=
  if (i <? 0)%Z then Throw TypeError
  else match l !! Z.to_nat i with
       | Some a => Ok a
       | None => Throw TypeError
       end.

(** ** The host *)

(** The functions the scripts call but do not define.  A projection object
    built by [proj4(definition)] is determined by its definition string, so it
    is represented by that string. *)
Record Host : Type := {
  Math_sin : JS.number -> JS.number;
  Math_cos : JS.number -> JS.number;
  Math_tan : JS.number -> JS.number;
  Math_atan : JS.number -> JS.number;
  Math_atan2 : JS.number -> JS.number -> JS.number;
  Math_floor : JS.number -> JS.number;
  (** [x % y] *)
  number_rem : JS.number -> JS.number -> JS.number;
  (** a number appended to a string *)
  number_to_string : JS.number -> string;
  (** [proj4(definition)] throws on a definition it does not recognise *)
  proj4_recognised : string -> bool;
  (** [proj4(definition).forward([x, y])], or [None] when the call throws:
      proj4 raises a [TypeError] on a coordinate that is not a finite
      number *)
  proj4_forward : string -> JS.number * JS.number -> option (JS.number * JS.number);
  (** the four bytes [DataView.setFloat32] stores for a number, as one
      unsigned 32-bit integer *)
  float32_bits : JS.number -> Z;
  parseFloat : string -> JS.number;
  parseInt : string -> JS.number;
  string_trim : string -> string
}.

(** A call of [forward], with the [TypeError] it can raise. *)
Definition forward (h : Host) (definition : string) (xy : JS.number * JS.number)
  : result (JS.number * JS.number) :=
  match proj4_forward h definition xy with
  | Some r => Ok r
  | None => Throw TypeError
  end.

(** A point [[lon, lat, ele]] or [[x, y, z]]: an array of three numbers. *)
Record vec3 : Type := V3 { at0 : JS.number; at1 : JS.number; at2 : JS.number }.

(** ** utils.js *)

Section Vincenty.
Variable h : Host.

Definition a_WGS84 : JS.number := 6378137.
Definition b_WGS84 : JS.number := 6356752.314245.
Definition f_WGS84 : JS.number := 1 / 298.257223563.

Definition toRad (deg : JS.number) : JS.number := deg * JS.PI / 180.

(** The variables the [do ... while] body assigns. *)
Record vincenty_vars : Type := {
  lambda : JS.number;
  sinSigma : JS.number;
  cosSigma : JS.number;
  sigma : JS.number;
  cosSqAlpha : JS.number;
  cos2SigmaM : JS.number
}.

(** The first statements of the body, up to the test [sinSigma === 0]. *)
Definition vincenty_sinSigma (sinU1 cosU1 sinU2 cosU2 lambda0 : JS.number) : JS.number :=
  let sinLambda := Math_sin h lambda0 in
  let cosLambda := Math_cos h lambda0 in
  PrimFloat.sqrt
    ((cosU2 * sinLambda) * (cosU2 * sinLambda) +
     (cosU1 * sinU2 - sinU1 * cosU2 * cosLambda) *
     (cosU1 * sinU2 - sinU1 * cosU2 * cosLambda)).

(** One pass through the body: [None] is [return 0], [Some v] the values
    at the loop test. *)
Definition vincenty_body (L sinU1 cosU1 sinU2 cosU2 lambda0 : JS.number)
  : option vincenty_vars :=
  let sinLambda := Math_sin h lambda0 in
  let cosLambda := Math_cos h lambda0 in
  let sinSigma0 := vincenty_sinSigma sinU1 cosU1 sinU2 cosU2 lambda0 in
  if JS.seq sinSigma0 0 then None
  else
    let cosSigma0 := sinU1 * sinU2 + cosU1 * cosU2 * cosLambda in
    let sigma0 := Math_atan2 h sinSigma0 cosSigma0 in
    let sinAlpha := cosU1 * cosU2 * sinLambda / sinSigma0 in
    let cosSqAlpha0 := 1 - sinAlpha * sinAlpha in
    let cos2SigmaM0 := cosSigma0 - 2 * sinU1 * sinU2 / cosSqAlpha0 in
    let cos2SigmaM1 := if JS.isNaN cos2SigmaM0 then 0 else cos2SigmaM0 in
    let C := f_WGS84 / 16 * cosSqAlpha0 * (4 + f_WGS84 * (4 - 3 * cosSqAlpha0)) in
    let lambda1 :=
      L + (1 - C) * f_WGS84 * sinAlpha *
          (sigma0 + C * sinSigma0 *
             (cos2SigmaM1 + C * cosSigma0 *
                (-1 + 2 * cos2SigmaM1 * cos2SigmaM1))) in
    Some {| lambda := lambda1; sinSigma := sinSigma0; cosSigma := cosSigma0;
            sigma := sigma0; cosSqAlpha := cosSqAlpha0;
            cos2SigmaM := cos2SigmaM1 |}.

(** How the loop ends: by [return 0], or by leaving the [while] with the
    last values and the value of [iterLimit]. *)
Inductive vincenty_exit : Type :=
  | Coincident
  | Left (v : vincenty_vars) (iterLimit : nat).

(** The loop, entered with [iterLimit = S n] and [lambda = lambda0].  The
    test is [Math.abs(lambda - lambdaP) > 1e-12 && --iterLimit > 0]: the
    counter is decremented only when the first conjunct holds. *)
Fixpoint vincenty_loop (L sinU1 cosU1 sinU2 cosU2 : JS.number)
    (n : nat) (lambda0 : JS.number) : vincenty_exit :=
  match vincenty_body L sinU1 cosU1 sinU2 cosU2 lambda0 with
  | None => Coincident
  | Some v =>
      if JS.gt (PrimFloat.abs (lambda v - lambda0)) 1e-12 then
        match n with
        | O => Left v 0
        | S n' => vincenty_loop L sinU1 cosU1 sinU2 cosU2 n' (lambda v)
        end
      else Left v (S n)
  end.

Definition distVincenty (lat1 lon1 lat2 lon2 : JS.number) : JS.number :=
  let a := a_WGS84 in
  let b := b_WGS84 in
  let f := f_WGS84 in
  let L := toRad (lon2 - lon1) in
  let U1 := Math_atan h ((1 - f) * Math_tan h (toRad lat1)) in
  let U2 := Math_atan h ((1 - f) * Math_tan h (toRad lat2)) in
  let sinU1 := Math_sin h U1 in
  let cosU1 := Math_cos h U1 in
  let sinU2 := Math_sin h U2 in
  let cosU2 := Math_cos h U2 in
  match vincenty_loop L sinU1 cosU1 sinU2 cosU2 99 L with
  | Coincident => 0
  | Left v O => PrimFloat.nan
  | Left v (S _) =>
      let uSq := cosSqAlpha v * (a * a - b * b) / (b * b) in
      let A := 1 + uSq / 16384 * (4096 + uSq * (-768 + uSq * (320 - 175 * uSq))) in
      let B := uSq / 1024 * (256 + uSq * (-128 + uSq * (74 - 47 * uSq))) in
      let deltaSigma :=
        B * sinSigma v * (cos2SigmaM v + B / 4 *
          (cosSigma v * (-1 + 2 * cos2SigmaM v * cos2SigmaM v) -
           B / 6 * cos2SigmaM v * (-3 + 4 * sinSigma v * sinSigma v) *
             (-3 + 4 * cos2SigmaM v * cos2SigmaM v))) in
      b * A * (sigma v - deltaSigma)
  end.

End Vincenty.

Module PointProjector.

(** [PointProjector.init(projDefinition)]: the new value of
    [PointProjector.projection], unless [proj4] throws. *)
Definition init (h : Host) (projDefinition : string) : result string :=
  if proj4_recognised h projDefinition then Ok projDefinition
  else Throw (Error "proj4").

Definition linear (v : vec3) (distRatio total : JS.number) : vec3 :=
  V3 0 (distRatio * total) (at2 v).

Definition ring (h : Host) (v : vec3) (distRatio radius : JS.number) : vec3 :=
  V3 (radius * Math_cos h (2 * JS.PI * distRatio))
     (radius * Math_sin h (2 * JS.PI * distRatio))
     (at2 v).

(** [this.projection.forward([v[0], v[1]]).concat(v[2])]; a read of
    [forward] on the initial [null] is a [TypeError]. *)
Definition project (h : Host) (projection : option string) (v : vec3) : result vec3 :=
  match projection with
  | None => Throw TypeError
  | Some d =>
      xy <- forward h d (at0 v, at1 v) ;;
      Ok (V3 (fst xy) (snd xy) (at2 v))
  end.

End PointProjector.

Module UTM.

Definition hemi (lat : JS.number) : string :=
  if JS.lt lat 0 then " +south" else "".

Definition zone (h : Host) (lon : JS.number) : JS.number :=
  let lon1 := lon + 180 in
  let lon2 := lon1 - number_rem h lon1 6 in
  let lon3 := lon2 / 6 in
  lon3 + 1.

Definition proj (h : Host) (lat lon : JS.number) : string :=
  let p0 := "+proj=utm +zone="%string in
  let p1 := (p0 ++ number_to_string h (zone h lon))%string in
  let p2 := (p1 ++ hemi lat)%string in
  (p2 ++ " +ellps=WGS84 +datum=WGS84 +units=m +no_defs")%string.

End UTM.

Record Bounds : Type := {
  minx : JS.number; maxx : JS.number;
  miny : JS.number; maxy : JS.number;
  minz : JS.number; maxz : JS.number
}.

Module BoundsM.

(** [new Bounds(xyz)] *)
Definition new (xyz : vec3) : Bounds :=
  {| minx := at0 xyz; maxx := at0 xyz;
     miny := at1 xyz; maxy := at1 xyz;
     minz := at2 xyz; maxz := at2 xyz |}.

Definition update (b : Bounds) (xyz : vec3) : Bounds :=
  {| minx := if JS.lt (at0 xyz) (minx b) then at0 xyz else minx b;
     maxx := if JS.gt (at0 xyz) (maxx b) then at0 xyz else maxx b;
     miny := if JS.lt (at1 xyz) (miny b) then at1 xyz else miny b;
     maxy := if JS.gt (at1 xyz) (maxy b) then at1 xyz else maxy b;
     minz := if JS.lt (at2 xyz) (minz b) then at2 xyz else minz b;
     maxz := if JS.gt (at2 xyz) (maxz b) then at2 xyz else maxz b |}.

Definition center (b : Bounds) : JS.number * JS.number :=
  ((minx b + maxx b) / 2, (miny b + maxy b) / 2).

End BoundsM.

Definition vectorAngle (h : Host) (a b : vec3) : JS.number :=
  Math_atan2 h (at1 b - at1 a) (at0 b - at0 a).

Definition calcOffsets (h : Host) (bounds : Bounds) (zcut : bool) : vec3 :=
  let xy := BoundsM.center bounds in
  let zoffset :=
    if zcut || JS.le (minz bounds) 0 then Math_floor h (minz bounds - 1) else 0 in
  V3 (fst xy) (snd xy) zoffset.

Record Bed : Type := { bed_x : JS.number; bed_y : JS.number }.

Definition calcScale (bed : Bed) (xextent yextent : JS.number) : JS.number :=
  let xscale := bed_x bed / xextent in
  let yscale := bed_y bed / yextent in
  JS.min xscale yscale.

Definition scaleBounds (bounds : Bounds) (bed : Bed) : JS.number :=
  calcScale bed (maxx bounds - minx bounds) (maxy bounds - miny bounds).

(** ** The caller's objects *)

(** The option record [collectOptions] builds and [generate] receives. *)
Record Options : Type := {
  buffer : JS.number;
  vertical : JS.number;
  bedx : JS.number;
  bedy : JS.number;
  base : JS.number;
  zcut : bool;
  zoverride : bool;
  zconstant : JS.number;
  regionfit : bool;
  region_minx : JS.number;
  region_maxx : JS.number;
  region_miny : JS.number;
  region_maxy : JS.number;
  shapetype : JS.number;
  projtype : JS.number;
  projection : string;
  markerInterval : JS.number;
  smoothtype : JS.number;
  smoothspan : JS.number
}.

Definition set_projection (o : Options) (p : string) : Options :=
  {| buffer := buffer o; vertical := vertical o; bedx := bedx o; bedy := bedy o;
     base := base o; zcut := zcut o; zoverride := zoverride o;
     zconstant := zconstant o; regionfit := regionfit o;
     region_minx := region_minx o; region_maxx := region_maxx o;
     region_miny := region_miny o; region_maxy := region_maxy o;
     shapetype := shapetype o; projtype := projtype o; projection := p;
     markerInterval := markerInterval o; smoothtype := smoothtype o;
     smoothspan := smoothspan o |}.

(** Objects are passed by reference.  The store holds the two objects the
    caller of [generate] owns: the array of points and the option record. *)
Definition ref := positive.

Inductive object : Type :=
  | PointsArray (pts : list vec3)
  | OptionsObject (o : Options).

(** What a generation can touch outside its own locals: the store, the
    singleton [PointProjector.projection], and the progress calls made. *)
Record World : Type := {
  store : gmap ref object;
  projector : option string;
  progress : list Z
}.

Definition M (A : Type) : Type := World -> result A * World.

Definition ret {A} (a : A) : M A := fun w => (Ok a, w).
Definition throw {A} (e : exn) : M A := fun w => (Throw e, w).
Definition bind {A B} (m : M A) (k : A -> M B) : M B :=
  fun w => match m w with
           | (Ok a, w') => k a w'
           | (Throw e, w') => (Throw e, w')
           end.
Definition lift {A} (r : result A) : M A := fun w => (r, w).

Notation "x <~ m ;; k" := (bind m (fun x => k))
  (at level 100, m at next level, right associativity).
Notation "m ;;; k" := (bind m (fun _ => k))
  (at level 100, right associativity).

(** [options.field]: a read through the reference. *)
Definition read_options (r : ref) : M Options :=
  fun w => match store w !! r with
           | Some (OptionsObject o) => (Ok o, w)
           | _ => (Throw TypeError, w)
           end.

Definition read_points (r : ref) : M (list vec3) :=
  fun w => match store w !! r with
           | Some (PointsArray l) => (Ok l, w)
           | _ => (Throw TypeError, w)
           end.

(** [options.projection = p]: a write through the reference. *)
Definition write_projection (r : ref) (p : string) : M unit :=
  fun w => match store w !! r with
           | Some (OptionsObject o) =>
               (Ok tt, {| store := <[r := OptionsObject (set_projection o p)]> (store w);
                          projector := projector w; progress := progress w |})
           | _ => (Throw TypeError, w)
           end.

Definition read_projector : M (option string) := fun w => (Ok (projector w), w).

Definition write_projector (p : string) : M unit :=
  fun w => (Ok tt, {| store := store w; projector := Some p; progress := progress w |}).

(** [if (onProgress) onProgress(pct)] *)
Definition report (onProgress : bool) (pct : Z) : M unit :=
  fun w => if onProgress
           then (Ok tt, {| store := store w; projector := projector w;
                           progress := progress w ++ [pct] |})
           else (Ok tt, w).

(** ** model-generator.js: the generation context *)

Record Marker : Type := { location : vec3; orientation : JS.number }.

(** A marker as the scan records it, before projection. *)
Record MarkerObj : Type := { mk_loc : vec3; mk_pos : JS.number; mk_seg : nat }.

(** The object [ctx] of [generate].  Its field [options] is the caller's
    record itself, not a copy; [bounds], [offset] and [scale] start as
    [null]. *)
Record Ctx : Type := {
  options : ref;
  bed : Bed;
  ll : list vec3;
  d : list JS.number;
  distance : JS.number;
  ringRadius : JS.number;
  smoothTotal : JS.number;
  projectedPoints : list vec3;
  outputPoints : list vec3;
  markers : list Marker;
  bounds : option Bounds;
  offset : option vec3;
  scale : option JS.number
}.

(** [l[i]] used as a number: [undefined] becomes [NaN]. *)
Definition number_at (l : list JS.number) (i : Z) : JS.number :=
  if (i <? 0)%Z then PrimFloat.nan else default PrimFloat.nan (l !! Z.to_nat i).

(** A [null] that a property is read from. *)
Definition nonnull {A} (o : option A) : result A :=
  match o with
  | Some a => Ok a
  | None => Throw TypeError
  end.

(** ** PathSegment *)

Record Face : Type := Tri { ix0 : Z; ix1 : Z; ix2 : Z }.

Module PathSegment.

Definition points (a : list vec3) (v : (JS.number * JS.number) * (JS.number * JS.number))
    (z : JS.number) : list vec3 :=
  a ++ [ V3 (fst (fst v)) (snd (fst v)) 0;
         V3 (fst (snd v)) (snd (snd v)) 0;
         V3 (fst (fst v)) (snd (fst v)) z;
         V3 (fst (snd v)) (snd (snd v)) z ].

Definition firstFace (a : list Face) : list Face :=
  a ++ [ Tri 0 2 3; Tri 3 1 0 ].

Definition lastFace (a : list Face) (s : Z) : list Face :=
  let i := ((s - 1) * 4)%Z in
  a ++ [ Tri (i + 2) (i + 1) (i + 3); Tri (i + 2) (i + 0) (i + 1) ].

Definition faces (a : list Face) (s : Z) : list Face :=
  if (s =? 0)%Z then firstFace a
  else
    let i := ((s - 1) * 4)%Z in
    a ++ [ Tri (i + 2) (i + 6) (i + 3); Tri (i + 3) (i + 6) (i + 7);
           Tri (i + 3) (i + 7) (i + 5); Tri (i + 3) (i + 5) (i + 1);
           Tri (i + 6) (i + 2) (i + 0); Tri (i + 6) (i + 0) (i + 4);
           Tri (i + 0) (i + 5) (i + 4); Tri (i + 0) (i + 1) (i + 5) ].

End PathSegment.

(** ** ModelCode *)

(** The geometry a [ModelCode] keeps: [rawPoints], [rawFaces], [rawMarkers]
    and [options.markerWidth].  (Its three formatted strings serve the SCAD
    text emitters only.) *)
Record ModelCode : Type := {
  rawPoints : list vec3;
  rawFaces : list Face;
  rawMarkers : list Marker;
  markerWidth : JS.number
}.

(** What [generate] returns. *)
Record Artifact : Type := {
  art_code : ModelCode;
  art_bounds : option Bounds;
  art_distance : JS.number;
  art_outputPoints : list vec3;
  art_scale : option JS.number;
  art_bed : Bed
}.

Fixpoint mapM {A B} (f : A -> M B) (l : list A) : M (list B) :=
  match l with
  | [] => ret []
  | a :: l' => b <~ f a ;; bs <~ mapM f l' ;; ret (b :: bs)
  end.

(** ** ModelGenerator: the scan *)

Module ModelGenerator.

Definition SHAPE_MAP : JS.number := 0.
Definition SHAPE_LINEAR : JS.number := 1.
Definition SHAPE_RING : JS.number := 2.

Definition PROJ_GOOGLE : JS.number := 0.
Definition PROJ_CUSTOM : JS.number := 1.
Definition PROJ_UTM : JS.number := 2.

(** The locals of [_scanPoints] that its first loop assigns. *)
Record scan_state : Type := {
  lastpt : vec3;
  minLon : JS.number; maxLon : JS.number;
  minLat : JS.number; maxLat : JS.number;
  rawpoints : list vec3;
  rawpointcd : list JS.number;
  totaldist : JS.number;
  cd : JS.number;
  md : JS.number;
  lastmd : JS.number;
  markerObjs : list MarkerObj
}.

Definition scan_init (p0 : vec3) : scan_state :=
  {| lastpt := p0;
     minLon := at0 p0; maxLon := at0 p0;
     minLat := at1 p0; maxLat := at1 p0;
     rawpoints := [p0]; rawpointcd := [];
     totaldist := 0; cd := 0; md := 0; lastmd := 0;
     markerObjs := [] |}.

(** The body of the loop at index [i], where [rawpt] is [pts[i]] and
    [prev] is [pts[i - 1]]. *)
Definition scan_body (h : Host) (interval : JS.number) (i : nat)
    (prev rawpt : vec3) (st : scan_state) : scan_state :=
  let minLon1 := if JS.lt (at0 rawpt) (minLon st) then at0 rawpt else minLon st in
  let maxLon1 := if JS.gt (at0 rawpt) (maxLon st) then at0 rawpt else maxLon st in
  let minLat1 := if JS.lt (at1 rawpt) (minLat st) then at1 rawpt else minLat st in
  let maxLat1 := if JS.gt (at1 rawpt) (maxLat st) then at1 rawpt else maxLat st in
  let segdist :=
    distVincenty h (at1 (lastpt st)) (at0 (lastpt st)) (at1 rawpt) (at0 rawpt) in
  let totaldist1 := totaldist st + segdist in
  let lastmd1 := md st in
  let md1 := md st + segdist in
  let cd1 := cd st + segdist in
  let rawpointcd1 := rawpointcd st ++ [cd1] in
  if JS.gt interval 0 && JS.ge md1 interval then
    let lastSeg := interval - lastmd1 in
    let nextSeg := segdist - lastSeg in
    let pd := lastSeg / segdist in
    let markerpoint :=
      V3 (at0 prev + pd * (at0 rawpt - at0 prev))
         (at1 prev + pd * (at1 rawpt - at1 prev))
         (at2 prev + pd * (at2 rawpt - at2 prev)) in
    {| lastpt := rawpt;
       minLon := minLon1; maxLon := maxLon1; minLat := minLat1; maxLat := maxLat1;
       rawpoints := rawpoints st ++ [rawpt]; rawpointcd := rawpointcd1;
       totaldist := totaldist1; cd := cd1; md := nextSeg; lastmd := lastmd1;
       markerObjs := markerObjs st ++
         [ {| mk_loc := markerpoint; mk_pos := cd1 - nextSeg; mk_seg := i |} ] |}
  else
    {| lastpt := rawpt;
       minLon := minLon1; maxLon := maxLon1; minLat := minLat1; maxLat := maxLat1;
       rawpoints := rawpoints st ++ [rawpt]; rawpointcd := rawpointcd1;
       totaldist := totaldist1; cd := cd1; md := md1; lastmd := lastmd1;
       markerObjs := markerObjs st |}.

(** [for (let i = 1; i < pts.length; i++)], entered at index [i] with the
    points [pts[i], pts[i + 1], ...] still to visit. *)
Fixpoint scan_loop (h : Host) (interval : JS.number) (i : nat)
    (prev : vec3) (rest : list vec3) (st : scan_state) : scan_state :=
  match rest with
  | [] => st
  | rawpt :: rest' =>
      scan_loop h interval (S i) rawpt rest' (scan_body h interval i prev rawpt st)
  end.

(** The whole first loop of [_scanPoints] over the array [pts]. *)
Definition scan (h : Host) (interval : JS.number) (pts : list vec3) : result scan_state :=
  p0 <- deref pts 0 ;;
  Ok (scan_loop h interval 1 p0 (tail pts) (scan_init p0)).

(** *** The distance filter *)

Record filter_state : Type := {
  filteredPts : list vec3;
  filteredDst : list JS.number;
  total : JS.number;
  pre : nat
}.

(** The body of the loop of [_distFilter] at [points[cur] = p]. *)
Definition distFilter_body (h : Host) (mindist : JS.number) (p : vec3)
    (st : filter_state) : result filter_state :=
  q <- deref (filteredPts st) (Z.of_nat (pre st)) ;;
  let dist := distVincenty h (at1 p) (at0 p) (at1 q) (at0 q) in
  if JS.seq mindist 0 || JS.ge dist mindist then
    Ok {| filteredPts := filteredPts st ++ [p];
          filteredDst := filteredDst st ++ [dist];
          total := total st + dist;
          pre := pre st + 1 |}
  else Ok st.

Fixpoint distFilter_loop (h : Host) (mindist : JS.number) (rest : list vec3)
    (st : filter_state) : result filter_state :=
  match rest with
  | [] => Ok st
  | p :: rest' =>
      st' <- distFilter_body h mindist p st ;;
      distFilter_loop h mindist rest' st'
  end.

(** [_distFilter(ctx, points, mindist)]: the values stored in [ctx.ll],
    [ctx.d] and [ctx.smoothTotal].  With no point at all the source keeps
    the one-element array [[undefined]], whose first use in
    [_projectPoints] is a [TypeError]: it is raised here. *)
Definition _distFilter (h : Host) (points : list vec3) (mindist : JS.number)
  : result filter_state :=
  match points with
  | [] => Throw TypeError
  | p0 :: rest =>
      distFilter_loop h mindist rest
        {| filteredPts := [p0]; filteredDst := []; total := 0; pre := 0 |}
  end.

(** *** Projection of single points *)

Definition _projectPoint (h : Host) (ctx : Ctx) (point : vec3) (cdr : JS.number) : M vec3 :=
  o <~ read_options (options ctx) ;;
  if JS.seq (shapetype o) SHAPE_LINEAR then
    ret (PointProjector.linear point cdr (distance ctx))
  else if JS.seq (shapetype o) SHAPE_RING then
    ret (PointProjector.ring h point cdr (ringRadius ctx))
  else
    p <~ read_projector ;;
    lift (PointProjector.project h p point).

Definition with_scan (ctx : Ctx) (dist : JS.number) : Ctx :=
  {| options := options ctx; bed := bed ctx; ll := ll ctx; d := d ctx;
     distance := dist; ringRadius := dist / (JS.PI * 2);
     smoothTotal := smoothTotal ctx; projectedPoints := projectedPoints ctx;
     outputPoints := outputPoints ctx; markers := markers ctx;
     bounds := bounds ctx; offset := offset ctx; scale := scale ctx |}.

Definition with_markers (ctx : Ctx) (ms : list Marker) : Ctx :=
  {| options := options ctx; bed := bed ctx; ll := ll ctx; d := d ctx;
     distance := distance ctx; ringRadius := ringRadius ctx;
     smoothTotal := smoothTotal ctx; projectedPoints := projectedPoints ctx;
     outputPoints := outputPoints ctx; markers := ms;
     bounds := bounds ctx; offset := offset ctx; scale := scale ctx |}.

Definition with_filter (ctx : Ctx) (f : filter_state) : Ctx :=
  {| options := options ctx; bed := bed ctx;
     ll := filteredPts f; d := filteredDst f;
     distance := distance ctx; ringRadius := ringRadius ctx;
     smoothTotal := total f; projectedPoints := projectedPoints ctx;
     outputPoints := outputPoints ctx; markers := markers ctx;
     bounds := bounds ctx; offset := offset ctx; scale := scale ctx |}.

(** The body of the second loop of [_scanPoints]: one marker projected. *)
Definition project_marker (h : Host) (ctx : Ctx) (st : scan_state) (m : MarkerObj)
  : M Marker :=
  let seg := Z.of_nat (mk_seg m) in
  p1 <~ lift (deref (rawpoints st) (seg - 1)) ;;
  a <~ _projectPoint h ctx p1 (number_at (rawpointcd st) (seg - 1) / distance ctx) ;;
  p2 <~ lift (deref (rawpoints st) seg) ;;
  b <~ _projectPoint h ctx p2 (number_at (rawpointcd st) seg / distance ctx) ;;
  let markerAngle := vectorAngle h a b in
  l <~ _projectPoint h ctx (mk_loc m) (mk_pos m / distance ctx) ;;
  ret {| location := l; orientation := markerAngle |}.

(** The choice of the projection: the only assignment to a field of the
    option record. *)
Definition configure_projection (h : Host) (ctx : Ctx) (st : scan_state) : M unit :=
  o <~ read_options (options ctx) ;;
  if JS.seq (projtype o) PROJ_UTM then
    let lat := (minLat st + maxLat st) / 2 in
    let lon := (minLon st + maxLon st) / 2 in
    write_projection (options ctx) (UTM.proj h lat lon)
  else if JS.seq (projtype o) PROJ_GOOGLE then
    write_projection (options ctx) "GOOGLE"
  else ret tt.

(** [try { PointProjector.init(ctx.options.projection); } catch (e) {...}] *)
Definition init_projector (h : Host) (ctx : Ctx) : M unit :=
  o <~ read_options (options ctx) ;;
  match PointProjector.init h (projection o) with
  | Ok p => write_projector p
  | Throw _ => throw (Error "Projeção de mapa não reconhecida.")
  end.

(** The smoothing distance handed to [_distFilter].  In the automatic
    mode [scale] stays [null] for a shape type other than the three known
    ones, and the division reads it as [0]; [proj4('GOOGLE', xy)] is the
    forward projection of the built-in definition. *)
Definition smoothing_distance (h : Host) (ctx : Ctx) (o : Options) (st : scan_state)
  : result JS.number :=
  if JS.seq (smoothtype o) 0 then
    scale0 <-
      (if JS.seq (shapetype o) SHAPE_MAP then
         minGeo <- forward h "GOOGLE" (minLon st, minLat st) ;;
         maxGeo <- forward h "GOOGLE" (maxLon st, maxLat st) ;;
         Ok (calcScale (bed ctx) (fst maxGeo - fst minGeo) (snd maxGeo - snd minGeo))
       else if JS.seq (shapetype o) SHAPE_LINEAR then
         Ok (calcScale (bed ctx) (distance ctx) 0)
       else if JS.seq (shapetype o) SHAPE_RING then
         Ok (calcScale (bed ctx) (2 * ringRadius ctx) (2 * ringRadius ctx))
       else Ok 0) ;;
    Ok (Math_floor h (buffer o / scale0))
  else Ok (smoothspan o).

Definition _scanPoints (h : Host) (ctx : Ctx) (pts : ref) : M Ctx :=
  ps <~ read_points pts ;;
  o <~ read_options (options ctx) ;;
  st <~ lift (scan h (markerInterval o) ps) ;;
  let ctx1 := with_scan ctx (totaldist st) in
  configure_projection h ctx1 st ;;;
  init_projector h ctx1 ;;;
  ms <~ mapM (project_marker h ctx1 st) (markerObjs st) ;;
  let ctx2 := with_markers ctx1 (markers ctx1 ++ ms) in
  o2 <~ read_options (options ctx2) ;;
  smoothingDistance <~ lift (smoothing_distance h ctx2 o2 st) ;;
  f <~ lift (_distFilter h (rawpoints st) smoothingDistance) ;;
  ret (with_filter ctx2 f).

(** *** Bulk projection *)

(** The loop of [_projectPoints], entered at index [i] with the points
    [ll[i], ...] still to project. *)
Fixpoint projectPoints_loop (h : Host) (ctx : Ctx) (i : nat) (rest : list vec3)
    (cd0 : JS.number) (b : Bounds) (acc : list vec3)
  : M (Bounds * list vec3) :=
  match rest with
  | [] => ret (b, acc)
  | p :: rest' =>
      let cd1 := cd0 + number_at (d ctx) (Z.of_nat i - 1) in
      point <~ _projectPoint h ctx p (cd1 / smoothTotal ctx) ;;
      projectPoints_loop h ctx (S i) rest' cd1 (BoundsM.update b point) (acc ++ [point])
  end.

Definition _projectPoints (h : Host) (ctx : Ctx) : M Ctx :=
  p0 <~ lift (deref (ll ctx) 0) ;;
  xyz <~ _projectPoint h ctx p0 0 ;;
  r <~ projectPoints_loop h ctx 1 (tail (ll ctx)) 0 (BoundsM.new xyz)
         (projectedPoints ctx ++ [xyz]) ;;
  o <~ read_options (options ctx) ;;
  let b := fst r in
  let b1 :=
    if regionfit o then
      {| minx := region_minx o; maxx := region_maxx o;
         miny := region_miny o; maxy := region_maxy o;
         minz := minz b; maxz := maxz b |}
    else b in
  ret {| options := options ctx; bed := bed ctx; ll := ll ctx; d := d ctx;
         distance := distance ctx; ringRadius := ringRadius ctx;
         smoothTotal := smoothTotal ctx; projectedPoints := snd r;
         outputPoints := outputPoints ctx; markers := markers ctx;
         bounds := Some b1;
         offset := Some (calcOffsets h b1 (zcut o));
         scale := Some (scaleBounds b1 (bed ctx)) |}.

(** [_calculateZScale(ctx)]; a [null] scale multiplies as [0]. *)
Definition _calculateZScale (h : Host) (ctx : Ctx) : M JS.number :=
  o <~ read_options (options ctx) ;;
  if JS.seq (projtype o) PROJ_CUSTOM then
    b <~ lift (nonnull (bounds ctx)) ;;
    ret (bed_y (bed ctx) / distVincenty h (miny b) (minx b) (maxy b) (minx b))
  else ret (default 0 (scale ctx)).

(** *** The path *)

Definition isAcute (angle : JS.number) : bool :=
  JS.gt (PrimFloat.abs angle) (JS.PI / 2) &&
  JS.lt (PrimFloat.abs angle) ((3 * JS.PI) / 2).

(** [vectorAngle(outputPoints[i], outputPoints[i + 1])] *)
Definition segment_heading (h : Host) (pts : list vec3) (i : Z) : result JS.number :=
  a <- deref pts i ;;
  b <- deref pts (i + 1) ;;
  Ok (vectorAngle h a b).

(** [segmentAngle(i)].  The recursive call is made at [i + 1 = length]
    only, with [i - 1], for which the test fails: it never nests. *)
Definition segmentAngle (h : Host) (pts : list vec3) (i : Z) : result JS.number :=
  if (i + 1 =? Z.of_nat (length pts))%Z then segment_heading h pts (i - 1)
  else segment_heading h pts i.

Definition jointPoints (h : Host) (buf : JS.number) (pts : list vec3)
    (i : Z) (rel avga : JS.number)
  : result ((JS.number * JS.number) * (JS.number * JS.number)) :=
  let jointr0 := buf / Math_cos h (rel / 2) in
  let jointr :=
    if JS.gt (PrimFloat.abs jointr0) (buf * 2)
    then JS.sign jointr0 * buf * 2 else jointr0 in
  p <- deref pts i ;;
  let lx := at0 p + jointr * Math_cos h (avga + JS.PI / 2) in
  let ly := at1 p + jointr * Math_sin h (avga + JS.PI / 2) in
  let rx := at0 p + jointr * Math_cos h (avga - JS.PI / 2) in
  let ry := at1 p + jointr * Math_sin h (avga - JS.PI / 2) in
  Ok ((lx, ly), (rx, ry)).

(** The locals of [_processPath] that its loop assigns; [s] counts the
    accepted stations. *)
Record path_state : Type := {
  lastAngle : JS.number;
  vertices : list vec3;
  faces : list Face;
  s : Z
}.

(** [lastAngle] is declared without a value: [undefined], [NaN] in
    arithmetic. *)
Definition path_init : path_state :=
  {| lastAngle := PrimFloat.nan; vertices := []; faces := []; s := 0 |}.

(** The body of the loop at station [i]. *)
Definition path_body (h : Host) (buf : JS.number) (pts : list vec3)
    (st : path_state) (i : nat) : result path_state :=
  let iz := Z.of_nat i in
  angle <- segmentAngle h pts iz ;;
  let lastAngle0 := if (iz =? 0)%Z then angle else lastAngle st in
  let relAngle := angle - lastAngle0 in
  let jointAngle := relAngle / 2 + lastAngle0 in
  skip <- (if isAcute relAngle && (iz <? Z.of_nat (length pts) - 1)%Z
           then next <- segmentAngle h pts (iz + 1) ;; Ok (isAcute (next - angle))
           else Ok false) ;;
  if (skip : bool) then
    Ok {| lastAngle := lastAngle0; vertices := vertices st;
          faces := faces st; s := s st |}
  else
    pathPts <- jointPoints h buf pts iz relAngle jointAngle ;;
    p <- deref pts iz ;;
    Ok {| lastAngle := angle;
          vertices := PathSegment.points (vertices st) pathPts (at2 p);
          faces := PathSegment.faces (faces st) (s st);
          s := (s st + 1)%Z |}.

(** [for (let i = 0, s = 0; i < ctx.outputPoints.length; i++)] over the
    stations listed in [stations]. *)
Fixpoint path_loop (h : Host) (buf : JS.number) (pts : list vec3)
    (stations : list nat) (st : path_state) : result path_state :=
  match stations with
  | [] => Ok st
  | i :: rest =>
      st' <- path_body h buf pts st i ;;
      path_loop h buf pts rest st'
  end.

(** The geometry [_processPath] builds from [ctx.outputPoints], with the
    end cap; [vertices.length / 4] is exact, the length being a multiple
    of four. *)
Definition build_path (h : Host) (buf : JS.number) (pts : list vec3) : result path_state :=
  st <- path_loop h buf pts (List.seq 0 (length pts)) path_init ;;
  Ok {| lastAngle := lastAngle st; vertices := vertices st;
        faces := PathSegment.lastFace (faces st) (Z.of_nat (length (vertices st)) / 4);
        s := s st |}.

Definition _processPath (h : Host) (ctx : Ctx) : M ModelCode :=
  o <~ read_options (options ctx) ;;
  st <~ lift (build_path h (buffer o) (outputPoints ctx)) ;;
  ret {| rawPoints := vertices st; rawFaces := faces st;
         rawMarkers := markers ctx; markerWidth := 2 * buffer o + 2 |}.

(** *** The orchestrator *)

(** The closure [fit] of [generate]. *)
Definition fit (sc : JS.number) (off : vec3) (zscale : JS.number) (o : Options)
    (v : vec3) : vec3 :=
  V3 (sc * (at0 v - at0 off))
     (sc * (at1 v - at1 off))
     (zscale * (at2 v - at2 off) * vertical o + base o).

(** [generate(pts, options, onProgress)]: [pts] and [opts] are the
    references the caller passes, [onProgress] tells whether a callback was
    given.  [ctx.offset] is an array by the time [fit] reads it. *)
Definition generate (h : Host) (pts opts : ref) (onProgress : bool) : M Artifact :=
  o <~ read_options opts ;;
  let ctx :=
    {| options := opts;
       bed := {| bed_x := bedx o - (2 * buffer o); bed_y := bedy o - (2 * buffer o) |};
       ll := []; d := []; distance := 0; ringRadius := 0; smoothTotal := 0;
       projectedPoints := []; outputPoints := []; markers := [];
       bounds := None; offset := None; scale := None |} in
  report onProgress 10 ;;;
  ctx1 <~ _scanPoints h ctx pts ;;
  report onProgress 30 ;;;
  ctx2 <~ _projectPoints h ctx1 ;;
  report onProgress 50 ;;;
  zscale <~ _calculateZScale h ctx2 ;;
  o3 <~ read_options (options ctx2) ;;
  off <~ lift (nonnull (offset ctx2)) ;;
  let fit3 := fit (default 0 (scale ctx2)) off zscale o3 in
  let ctx3 :=
    {| options := options ctx2; bed := bed ctx2; ll := ll ctx2; d := d ctx2;
       distance := distance ctx2; ringRadius := ringRadius ctx2;
       smoothTotal := smoothTotal ctx2; projectedPoints := projectedPoints ctx2;
       outputPoints := map fit3 (projectedPoints ctx2);
       markers := map (fun m => {| location := fit3 (location m);
                                   orientation := orientation m |}) (markers ctx2);
       bounds := bounds ctx2; offset := offset ctx2; scale := scale ctx2 |} in
  report onProgress 70 ;;;
  code <~ _processPath h ctx3 ;;
  report onProgress 90 ;;;
  o4 <~ read_options (options ctx3) ;;
  ret {| art_code := code;
         art_bounds := bounds ctx3;
         art_distance := distance ctx3;
         art_outputPoints := outputPoints ctx3;
         art_scale := scale ctx3;
         art_bed := {| bed_x := bedx o4; bed_y := bedy o4 |} |}.

End ModelGenerator.

(** ** ModelCode.generateSTL *)

(** An [ArrayBuffer] seen through a [DataView]: its bytes, each in [0, 256). *)
Module DataView.

(** [new ArrayBuffer(n)] *)
Definition alloc (n : nat) : list Z := repeat 0%Z n.

(** The [n] low bytes of [v], least significant first. *)
Fixpoint le_bytes (n : nat) (v : Z) : list Z :=
  match n with
  | O => []
  | S n' => (v mod 256)%Z :: le_bytes n' (v / 256)%Z
  end.

(** The unsigned integer whose little-endian bytes are [bs]. *)
Fixpoint le_value (bs : list Z) : Z :=
  match bs with
  | [] => 0%Z
  | b :: bs' => (b + 256 * le_value bs')%Z
  end.

(** A store of [bs] at byte offset [off]; outside the buffer it is a
    [RangeError]. *)
Definition write (buf : list Z) (off : nat) (bs : list Z) : result (list Z) :=
  if (off + length bs <=? length buf)%nat
  then Ok (take off buf ++ bs ++ drop (off + length bs) buf)
  else Throw RangeError.

Definition setUint8 (buf : list Z) (off : nat) (v : Z) : result (list Z) :=
  write buf off (le_bytes 1 v).

(** [setUint16(off, v, true)] *)
Definition setUint16 (buf : list Z) (off : nat) (v : Z) : result (list Z) :=
  write buf off (le_bytes 2 v).

(** [setUint32(off, v, true)] *)
Definition setUint32 (buf : list Z) (off : nat) (v : Z) : result (list Z) :=
  write buf off (le_bytes 4 v).

(** [setFloat32(off, x, true)] *)
Definition setFloat32 (h : Host) (buf : list Z) (off : nat) (x : JS.number)
  : result (list Z) :=
  write buf off (le_bytes 4 (float32_bits h x)).

(** [getUint32(off, true)] *)
Definition getUint32 (buf : list Z) (off : nat) : result Z :=
  if (off + 4 <=? length buf)%nat
  then Ok (le_value (take 4 (drop off buf)))
  else Throw RangeError.

End DataView.

Module STL.

Definition header : string := "STL gerado por GPXtruder Modern".

(** [i < header.length ? header.charCodeAt(i) : 0] *)
Definition header_byte (i : nat) : Z :=
  match String.get i header with
  | Some c => Z.of_nat (nat_of_ascii c)
  | None => 0%Z
  end.

(** [for (let i = 0; i < 80; i++) view.setUint8(i, ...)] over the indices
    listed. *)
Fixpoint write_header (buf : list Z) (indices : list nat) : result (list Z) :=
  match indices with
  | [] => Ok buf
  | i :: rest =>
      buf' <- DataView.setUint8 buf i (header_byte i) ;;
      write_header buf' rest
  end.

(** The three [setFloat32] calls of one vector, each followed by
    [offset += 4]. *)
Definition write_vec (h : Host) (buf : list Z) (off : nat) (x y z : JS.number)
  : result (list Z * nat) :=
  b1 <- DataView.setFloat32 h buf off x ;;
  b2 <- DataView.setFloat32 h b1 (off + 4) y ;;
  b3 <- DataView.setFloat32 h b2 (off + 8) z ;;
  Ok (b3, (off + 12)%nat).

(** The body of the triangle loop for [face = rawFaces[i]]. *)
Definition write_triangle (h : Host) (points : list vec3) (face : Face)
    (st : list Z * nat) : result (list Z * nat) :=
  v0 <- deref points (ix0 face) ;;
  v1 <- deref points (ix1 face) ;;
  v2 <- deref points (ix2 face) ;;
  let ux := at0 v1 - at0 v0 in
  let uy := at1 v1 - at1 v0 in
  let uz := at2 v1 - at2 v0 in
  let vx := at0 v2 - at0 v0 in
  let vy := at1 v2 - at1 v0 in
  let vz := at2 v2 - at2 v0 in
  let nx := uy * vz - uz * vy in
  let ny := uz * vx - ux * vz in
  let nz := ux * vy - uy * vx in
  let len := PrimFloat.sqrt (nx * nx + ny * ny + nz * nz) in
  let nx1 := if JS.gt len 0 then nx / len else nx in
  let ny1 := if JS.gt len 0 then ny / len else ny in
  let nz1 := if JS.gt len 0 then nz / len else nz in
  s1 <- write_vec h (fst st) (snd st) nx1 ny1 nz1 ;;
  s2 <- write_vec h (fst s1) (snd s1) (at0 v0) (at1 v0) (at2 v0) ;;
  s3 <- write_vec h (fst s2) (snd s2) (at0 v1) (at1 v1) (at2 v1) ;;
  s4 <- write_vec h (fst s3) (snd s3) (at0 v2) (at1 v2) (at2 v2) ;;
  b <- DataView.setUint16 (fst s4) (snd s4) 0 ;;
  Ok (b, (snd s4 + 2)%nat).

Fixpoint write_triangles (h : Host) (points : list vec3) (fs : list Face)
    (st : list Z * nat) : result (list Z * nat) :=
  match fs with
  | [] => Ok st
  | face :: rest =>
      st' <- write_triangle h points face st ;;
      write_triangles h points rest st'
  end.

(** [generateSTL()]: the bytes of the buffer returned. *)
Definition generateSTL (h : Host) (m : ModelCode) : result (list Z) :=
  let numTriangles := length (rawFaces m) in
  let bufferSize := (84 + numTriangles * 50)%nat in
  let buf := DataView.alloc bufferSize in
  b1 <- write_header buf (List.seq 0 80) ;;
  b2 <- DataView.setUint32 b1 80 (Z.of_nat numTriangles) ;;
  st <- write_triangles h (rawPoints m) (rawFaces m) (b2, 84%nat) ;;
  Ok (fst st).

End STL.

(** ** app.js: the options of the form *)

Module App.

Record Radio : Type := { checked : bool; value : string }.

Record ShapeBtn : Type := { active : bool; data_shape : string }.

(** The state of the form elements that [collectOptions] reads. *)
Record Form : Type := {
  pathWidth : string;
  vertical_input : string;
  width : string;
  depth : string;
  base_input : string;
  zcut_checked : bool;
  zoverride_checked : bool;
  zconstant_input : string;
  regionfit_checked : bool;
  eastMin : string;
  eastMax : string;
  northMin : string;
  northMax : string;
  shapeBtns : list ShapeBtn;
  projRadios : list Radio;
  projection_input : string;
  markerRadios : list Radio;
  markerInterval_input : string;
  smoothRadios : list Radio;
  mindist : string
}.

Fixpoint getRadioValue (h : Host) (radios : list Radio) : JS.number :=
  match radios with
  | [] => 0
  | r :: rest => if checked r then parseInt h (value r) else getRadioValue h rest
  end.

Definition getMarkerInterval (h : Host) (f : Form) (type : JS.number) : JS.number :=
  if JS.seq type 0 then 0
  else if JS.seq type 1 then 1000
  else if JS.seq type 2 then 1609
  else JS.or_else (parseFloat h (markerInterval_input f)) 1000.

(** The shape selected: the last active button assigns it. *)
Definition selected_shape (h : Host) (btns : list ShapeBtn) : JS.number :=
  fold_left (fun shape btn => if active btn then parseInt h (data_shape btn) else shape)
            btns 0.

(** The record built before validation. *)
Definition read_form (h : Host) (f : Form) : Options :=
  let markerType := getRadioValue h (markerRadios f) in
  {| buffer := parseFloat h (pathWidth f) / 2.0;
     vertical := parseFloat h (vertical_input f);
     bedx := parseFloat h (width f);
     bedy := parseFloat h (depth f);
     base := parseFloat h (base_input f);
     zcut := if zoverride_checked f then false else zcut_checked f;
     zoverride := zoverride_checked f;
     zconstant := JS.or_else (parseFloat h (zconstant_input f)) 100;
     regionfit := regionfit_checked f;
     region_minx := JS.or_else (parseFloat h (eastMin f)) 0;
     region_maxx := JS.or_else (parseFloat h (eastMax f)) 0;
     region_miny := JS.or_else (parseFloat h (northMin f)) 0;
     region_maxy := JS.or_else (parseFloat h (northMax f)) 0;
     shapetype := selected_shape h (shapeBtns f);
     projtype := getRadioValue h (projRadios f);
     projection := projection_input f;
     markerInterval := getMarkerInterval h f markerType;
     smoothtype := getRadioValue h (smoothRadios f);
     smoothspan := JS.or_else (parseFloat h (mindist f)) 10 |}.

(** The validation of [collectOptions]: the message of the first test that
    fails. *)
Definition validate (h : Host) (o : Options) : option string :=
  if negb (JS.isFinite (vertical o)) || JS.lt (vertical o) 1 then
    Some "O exagero vertical deve ser maior ou igual a 1."%string
  else if negb (JS.isFinite (bedx o)) || JS.lt (bedx o) 20 then
    Some "A largura deve ser maior ou igual a 20mm."%string
  else if negb (JS.isFinite (bedy o)) || JS.lt (bedy o) 20 then
    Some "A profundidade deve ser maior ou igual a 20mm."%string
  else if negb (JS.isFinite (buffer o)) || JS.lt (buffer o) 0.5 then
    Some "A largura do caminho deve ser maior ou igual a 1mm."%string
  else if JS.seq (projtype o) 1 && String.eqb (string_trim h (projection o)) "" then
    Some "Defina uma projeção personalizada (formato proj4)."%string
  else None.

(** [collectOptions()]: the record or [null], and the error messages shown
    by [showMessage]. *)
Definition collectOptions (h : Host) (f : Form) : option Options * list string :=
  let o := read_form h f in
  match validate h o with
  | Some msg => (None, [msg])
  | None => (Some o, [])
  end.

(** How a click on the button ends. *)
Inductive outcome : Type :=
  | NoTrack (message : string)
  | Rejected (messages : list string)
  | Generated (a : Artifact)
  | Failed (e : exn).

(** [generateModel()], with the deferred call run: [gpxData] is
    [state.gpxData]; the record of [collectOptions] is a new object. *)
Definition generateModel (h : Host) (gpxData : option ref) (f : Form) (w : World)
  : outcome * World :=
  match gpxData with
  | None => (NoTrack "Carregue um arquivo GPX primeiro.", w)
  | Some pts =>
      match collectOptions h f with
      | (None, msgs) => (Rejected msgs, w)
      | (Some o, _) =>
          let r := fresh (dom (store w)) in
          let w1 := {| store := <[r := OptionsObject o]> (store w);
                       projector := projector w; progress := progress w |} in
          match ModelGenerator.generate h pts r true w1 with
          | (Ok a, w2) => (Generated a, w2)
          | (Throw e, w2) => (Failed e, w2)
          end
      end
  end.

End App.

(** ** gpx-parser.js *)

(** The document object model, as the parser observes it: the descendants
    of an element with a given tag, in document order, its attributes
    ([null] when absent) and its text. *)
Module DOM.

#[local] Set Warnings "-register-all".

Inductive Element : Type := mkElement {
  getElementsByTagName : string -> list Element;
  getAttribute : string -> option string;
  textContent : string
}.

(** A document returned by [DOMParser.parseFromString]: whether
    [querySelector('parsererror')] finds an element, and its elements by
    tag. *)
Record Document : Type := {
  parsererror : bool;
  elements : string -> list Element
}.

(** [parseFromString(text, 'text/xml')], which may throw. *)
Definition Parser : Type := string -> result Document.

(** An attribute handed to [parseFloat]: [null] is read as its name. *)
Definition attribute_text (a : option string) : string :=
  match a with
  | Some s => s
  | None => "null"
  end.

End DOM.

Module GPXParser.

(** The summary [_calculateInfo] returns. *)
Record Coord : Type := { lat : JS.number; lon : JS.number }.

Record Info : Type := {
  name : string;
  totalPoints : nat;
  totalDistance : JS.number;
  minElevation : JS.number;
  maxElevation : JS.number;
  totalGain : JS.number;
  totalLoss : JS.number;
  hasElevation : bool;
  startCoord : Coord;
  endCoord : Coord
}.

(** The object [parse] returns: each field is [null] or a value. *)
Record Parsed : Type := {
  points : option (list vec3);
  info : option Info;
  error : option string
}.

Definition failed (message : string) : Parsed :=
  {| points := None; info := None; error := Some message |}.

Definition _parsePoint (h : Host) (forceElevation : bool) (defaultElevation : JS.number)
    (pt : DOM.Element) : vec3 :=
  let elevation :=
    if forceElevation then defaultElevation
    else match DOM.getElementsByTagName pt "ele" with
         | ele :: _ => parseFloat h (DOM.textContent ele)
         | [] => defaultElevation
         end in
  V3 (parseFloat h (DOM.attribute_text (DOM.getAttribute pt "lon")))
     (parseFloat h (DOM.attribute_text (DOM.getAttribute pt "lat")))
     elevation.

(** [for (...) points.push(this._parsePoint(trkpts[i], ...))] *)
Definition _parseSegment (h : Host) (forceElevation : bool) (defaultElevation : JS.number)
    (segment : DOM.Element) : list vec3 :=
  fold_left (fun pts pt => pts ++ [_parsePoint h forceElevation defaultElevation pt])
            (DOM.getElementsByTagName segment "trkpt") [].

(** [for (...) allPoints = allPoints.concat(segPoints)] *)
Definition _parseTrack (h : Host) (forceElevation : bool) (defaultElevation : JS.number)
    (track : DOM.Element) : list vec3 :=
  fold_left (fun allPoints seg =>
               allPoints ++ _parseSegment h forceElevation defaultElevation seg)
            (DOM.getElementsByTagName track "trkseg") [].

(** The locals of [_calculateInfo] that its loop assigns. *)
Record info_state : Type := {
  i_totalDistance : JS.number;
  i_minElevation : JS.number;
  i_maxElevation : JS.number;
  i_totalGain : JS.number;
  i_totalLoss : JS.number;
  i_hasElevation : bool
}.

(** The body of the loop at [points[i] = p]; [prev] is [points[i - 1]],
    absent when [i] is [0]. *)
Definition info_body (h : Host) (prev : option vec3) (p : vec3) (st : info_state)
  : info_state :=
  let ele := at2 p in
  let hasElevation1 :=
    if negb (JS.seq ele 1) && negb (JS.seq ele 0) then true else i_hasElevation st in
  let minElevation1 := if JS.lt ele (i_minElevation st) then ele else i_minElevation st in
  let maxElevation1 := if JS.gt ele (i_maxElevation st) then ele else i_maxElevation st in
  match prev with
  | None =>
      {| i_totalDistance := i_totalDistance st;
         i_minElevation := minElevation1; i_maxElevation := maxElevation1;
         i_totalGain := i_totalGain st; i_totalLoss := i_totalLoss st;
         i_hasElevation := hasElevation1 |}
  | Some q =>
      let dist := distVincenty h (at1 q) (at0 q) (at1 p) (at0 p) in
      let eleDiff := ele - at2 q in
      {| i_totalDistance := i_totalDistance st + dist;
         i_minElevation := minElevation1; i_maxElevation := maxElevation1;
         i_totalGain := if JS.gt eleDiff 0 then i_totalGain st + eleDiff
                        else i_totalGain st;
         i_totalLoss := if JS.gt eleDiff 0 then i_totalLoss st
                        else i_totalLoss st + PrimFloat.abs eleDiff;
         i_hasElevation := hasElevation1 |}
  end.

Fixpoint info_loop (h : Host) (prev : option vec3) (rest : list vec3) (st : info_state)
  : info_state :=
  match rest with
  | [] => st
  | p :: rest' => info_loop h (Some p) rest' (info_body h prev p st)
  end.

(** [_calculateInfo(points, track)]; the elevation of [points[0]] is read
    before the loop. *)
Definition _calculateInfo (h : Host) (pts : list vec3) (track : DOM.Element)
  : result Info :=
  let name0 :=
    match DOM.getElementsByTagName track "name" with
    | n :: _ => DOM.textContent n
    | [] => "Trilha sem nome"%string
    end in
  p0 <- deref pts 0 ;;
  let st := info_loop h None pts
              {| i_totalDistance := 0;
                 i_minElevation := at2 p0; i_maxElevation := at2 p0;
                 i_totalGain := 0; i_totalLoss := 0; i_hasElevation := false |} in
  pn <- deref pts (Z.of_nat (length pts) - 1) ;;
  Ok {| name := name0;
        totalPoints := length pts;
        totalDistance := i_totalDistance st;
        minElevation := i_minElevation st;
        maxElevation := i_maxElevation st;
        totalGain := i_totalGain st;
        totalLoss := i_totalLoss st;
        hasElevation := i_hasElevation st;
        startCoord := {| lat := at1 p0; lon := at0 p0 |};
        endCoord := {| lat := at1 pn; lon := at0 pn |} |}.

(** [parse(gpxText, forceElevation, defaultElevation)], with the
    [DOMParser] of the host. *)
Definition parse (h : Host) (parseFromString : DOM.Parser) (gpxText : string)
    (forceElevation : bool) (defaultElevation : JS.number) : result Parsed :=
  match parseFromString gpxText with
  | Throw _ => Ok (failed "Erro ao processar o arquivo GPX.")
  | Ok xmlDoc =>
      if DOM.parsererror xmlDoc then Ok (failed "O arquivo não é um XML válido.")
      else
        match DOM.elements xmlDoc "trk" with
        | [] =>
            Ok (failed "Este arquivo não contém nenhuma trilha (track). Verifique se é um arquivo GPX válido.")
        | track :: _ =>
            let pts := _parseTrack h forceElevation defaultElevation track in
            if (length pts <? 2)%nat
            then Ok (failed "A trilha não contém pontos suficientes (mínimo: 2).")
            else
              i <- _calculateInfo h pts track ;;
              Ok {| points := Some pts; info := Some i; error := None |}
        end
  end.

(** [parseXML(xmlDoc, forceElevation, defaultElevation)]: the points, or
    [null]. *)
Definition parseXML (h : Host) (xmlDoc : DOM.Document)
    (forceElevation : bool) (defaultElevation : JS.number) : option (list vec3) :=
  match DOM.elements xmlDoc "trk" with
  | [] => None
  | track :: _ =>
      let pts := _parseTrack h forceElevation defaultElevation track in
      if (2 <=? length pts)%nat then Some pts else None
  end.

End GPXParser.

(** ** A reference host *)

(** A host to run the definitions on.  Its transcendental functions are
    polynomial approximations after argument reduction: they agree with an
    engine's to about nine digits, not to the last bit, except at the
    arguments where the standard fixes the value ([Math.sin(0)],
    [Math.cos(0)], [Math.tan(0)], [Math.atan(0)]).  At [Math.PI] the sine is
    the distance from [Math.PI] to pi, which is what engines return. *)
Module Reference.

(** pi minus [Math.PI] *)
Definition pi_lo : JS.number := 0x1.1a62633145c07p-53.

Definition sin_poly (x : JS.number) : JS.number :=
  let x2 := x * x in
  x * (1 - x2 / 6 * (1 - x2 / 20 * (1 - x2 / 42 * (1 - x2 / 72 *
      (1 - x2 / 110 * (1 - x2 / 156 * (1 - x2 / 210))))))).

Definition cos_poly (x : JS.number) : JS.number :=
  let x2 := x * x in
  1 - x2 / 2 * (1 - x2 / 12 * (1 - x2 / 30 * (1 - x2 / 56 *
      (1 - x2 / 90 * (1 - x2 / 132 * (1 - x2 / 182)))))).

(** Sine and cosine for arguments between [-3 pi / 2] and [3 pi / 2]. *)
Definition sin (x : JS.number) : JS.number :=
  if JS.gt x (JS.PI / 2) then sin_poly ((JS.PI - x) + pi_lo)
  else if JS.lt x (- (JS.PI / 2)) then - sin_poly ((JS.PI + x) + pi_lo)
  else sin_poly x.

Definition cos (x : JS.number) : JS.number :=
  if JS.gt x (JS.PI / 2) then - cos_poly ((JS.PI - x) + pi_lo)
  else if JS.lt x (- (JS.PI / 2)) then - cos_poly ((JS.PI + x) + pi_lo)
  else cos_poly x.

Definition tan (x : JS.number) : JS.number := sin x / cos x.

Definition atan_poly (t : JS.number) : JS.number :=
  let t2 := t * t in
  t * (1 - t2 * (1 / 3 - t2 * (1 / 5 - t2 * (1 / 7 - t2 * (1 / 9 -
      t2 * (1 / 11 - t2 * (1 / 13 - t2 / 15))))))).

(** [atan x = 2 atan (x / (1 + sqrt (1 + x * x)))] *)
Definition halve (x : JS.number) : JS.number := x / (1 + PrimFloat.sqrt (1 + x * x)).

Definition atan_unit (x : JS.number) : JS.number := 4 * atan_poly (halve (halve x)).

Definition atan (x : JS.number) : JS.number :=
  if JS.gt x 1 then JS.PI / 2 - atan_unit (1 / x)
  else if JS.lt x (-1) then - (JS.PI / 2) - atan_unit (1 / x)
  else atan_unit x.

Definition atan2 (y x : JS.number) : JS.number :=
  if JS.gt x 0 then atan (y / x)
  else if JS.lt x 0 then (if JS.ge y 0 then atan (y / x) + JS.PI else atan (y / x) - JS.PI)
  else if JS.gt y 0 then JS.PI / 2
  else if JS.lt y 0 then - (JS.PI / 2)
  else 0.

(** The integer nearest to [x], for [0 <= x < 2^51]. *)
Definition round_small (x : JS.number) : JS.number :=
  (x + 0x1p+52) - 0x1p+52.

Definition floor_nonneg (x : JS.number) : JS.number :=
  if JS.lt x 0x1p+51 then
    let r := round_small x in if JS.lt x r then r - 1 else r
  else x.

Definition ceil_nonneg (x : JS.number) : JS.number :=
  if JS.lt x 0x1p+51 then
    let r := round_small x in if JS.lt r x then r + 1 else r
  else x.

Definition floor (x : JS.number) : JS.number :=
  if JS.ge x 0 then floor_nonneg x
  else if JS.lt x 0 then - ceil_nonneg (- x)
  else x.

Definition trunc (x : JS.number) : JS.number :=
  if JS.ge x 0 then floor_nonneg x
  else if JS.lt x 0 then - floor_nonneg (- x)
  else x.

Definition rem (x y : JS.number) : JS.number := x - y * trunc (x / y).

(** The integer part of a number, and its decimal digits. *)
Definition to_Z (x : JS.number) : Z :=
  match Prim2SF x with
  | S754_finite sgn m e =>
      let v := match e with
               | Zneg k => (Zpos m / 2 ^ Zpos k)%Z
               | _ => (Zpos m * 2 ^ e)%Z
               end in
      if sgn then (- v)%Z else v
  | _ => 0%Z
  end.

Definition to_string (x : JS.number) : string := pretty.pretty (to_Z x).

(** The forward Mercator projection on the sphere of radius [a_WGS84], with
    the northing by the series of the inverse Gudermannian function. *)
Definition mercator (xy : JS.number * JS.number) : JS.number * JS.number :=
  let lam := toRad (fst xy) in
  let phi := toRad (snd xy) in
  let p2 := phi * phi in
  (a_WGS84 * lam,
   a_WGS84 * (phi * (1 + p2 / 6 * (1 + p2 / 4 * (1 + p2 * 61 / 210))))).

Definition recognised (definition : string) : bool :=
  String.eqb definition "GOOGLE" || String.prefix "+proj=" definition.

(** The binary32 encoding of the number rounded to nearest, ties to even. *)
Definition binary32 (x : JS.number) : Z :=
  let sign (b : bool) := if b then 0x80000000%Z else 0%Z in
  let encode (r : spec_float) :=
    match r with
    | S754_zero b => sign b
    | S754_infinity b => (sign b + 0x7f800000)%Z
    | S754_nan => 0x7fc00000%Z
    | S754_finite b m e =>
        if (Zpos (digits2_pos m) =? 24)%Z
        then (sign b + (e + 150) * 0x800000 + (Zpos m - 0x800000))%Z
        else (sign b + Zpos m)%Z
    end in
  match Prim2SF x with
  | S754_finite b m e => encode (binary_round 24 128 b m e)
  | r => encode r
  end.

Definition digit (c : ascii) : option Z :=
  let n := Z.of_nat (nat_of_ascii c) in
  if ((48 <=? n) && (n <=? 57))%Z then Some (n - 48)%Z else None.

(** The digits at the head of [cs]: their value after [acc], how many they
    are, and what follows them. *)
Fixpoint digits (cs : list ascii) (acc : Z) (count : nat) : Z * nat * list ascii :=
  match cs with
  | c :: cs' =>
      match digit c with
      | Some v => digits cs' (10 * acc + v)%Z (S count)
      | None => (acc, count, cs)
      end
  | [] => (acc, count, [])
  end.

Fixpoint skip_spaces (cs : list ascii) : list ascii :=
  match cs with
  | c :: cs' => if Ascii.eqb c " " then skip_spaces cs' else cs
  | [] => []
  end.

Definition signed (cs : list ascii) : bool * list ascii :=
  match cs with
  | c :: cs' => if Ascii.eqb c "-" then (true, cs')
                else if Ascii.eqb c "+" then (false, cs') else (false, cs)
  | [] => (false, [])
  end.

(** Decimal numerals without exponent. *)
Definition parse_float (text : string) : JS.number :=
  let '(neg, cs) := signed (skip_spaces (list_ascii_of_string text)) in
  let '(ip, n1, rest) := digits cs 0%Z 0%nat in
  let '(fp, n2, _) :=
    match rest with
    | c :: rest' => if Ascii.eqb c "." then digits rest' ip 0%nat else (ip, 0%nat, rest)
    | [] => (ip, 0%nat, [])
    end in
  if (n1 + n2 =? 0)%nat then PrimFloat.nan
  else
    let v := JS.of_Z fp / JS.of_Z (10 ^ Z.of_nat n2) in
    if neg then - v else v.

Definition parse_int (text : string) : JS.number :=
  let '(neg, cs) := signed (skip_spaces (list_ascii_of_string text)) in
  let '(ip, n1, _) := digits cs 0%Z 0%nat in
  if (n1 =? 0)%nat then PrimFloat.nan
  else if neg then - JS.of_Z ip else JS.of_Z ip.

Definition trim (text : string) : string :=
  string_of_list_ascii
    (rev (skip_spaces (rev (skip_spaces (list_ascii_of_string text))))).

Definition host : Host :=
  {| Math_sin := sin;
     Math_cos := cos;
     Math_tan := tan;
     Math_atan := atan;
     Math_atan2 := atan2;
     Math_floor := floor;
     number_rem := rem;
     number_to_string := to_string;
     proj4_recognised := recognised;
     proj4_forward := fun _ xy =>
       if JS.isFinite (fst xy) && JS.isFinite (snd xy) then Some (mercator xy) else None;
     float32_bits := binary32;
     parseFloat := parse_float;
     parseInt := parse_int;
     string_trim := trim |}.

End Reference.

(** * Specifications *)

(** ** Geodesy *)

(** The value the first pass through the loop of [distVincenty] tests against
    [0]. *)
Definition first_sinSigma (h : Host) (lat1 lon1 lat2 lon2 : JS.number) : JS.number :=
  let L := toRad (lon2 - lon1) in
  let U1 := Math_atan h ((1 - f_WGS84) * Math_tan h (toRad lat1)) in
  let U2 := Math_atan h ((1 - f_WGS84) * Math_tan h (toRad lat2)) in
  vincenty_sinSigma h (Math_sin h U1) (Math_cos h U1) (Math_sin h U2) (Math_cos h U2) L.

(** The reduced latitude [U] that [distVincenty] computes for a latitude
    given in degrees. *)
Definition reduced_latitude (h : Host) (lat : JS.number) : JS.number :=
  Math_atan h ((1 - f_WGS84) * Math_tan h (toRad lat)).

(** A longitude, in degrees, that [toRad] sends to [0]: twenty times the
    smallest positive number. *)
Definition tiny_longitude : JS.number := 0x0.0000000000014p-1022.

(** A number that is neither infinite nor [NaN], read on its specification. *)
Definition SFfin (x : spec_float) : Prop :=
  match x with
  | S754_zero _ | S754_finite _ _ _ => True
  | _ => False
  end.

(** ** The marker arithmetic *)

(** What the first loop of [_scanPoints] does to [cd], [md] and the
    positions it stores, written once for any arithmetic: the loop itself is
    the instance at binary64 numbers, and the instance at rational numbers is
    what it computes when no operation rounds. *)
Module Markers.

Record arithmetic (num : Type) : Type := {
  zero : num;
  add : num -> num -> num;
  sub : num -> num -> num;
  gtb : num -> num -> bool;
  geb : num -> num -> bool
}.
Arguments zero {num} _.
Arguments add {num} _ _ _.
Arguments sub {num} _ _ _.
Arguments gtb {num} _ _ _.
Arguments geb {num} _ _ _.

Record marker_state (num : Type) : Type := {
  m_cd : num;
  m_md : num;
  m_pos : list num
}.
Arguments m_cd {num} _.
Arguments m_md {num} _.
Arguments m_pos {num} _.


(** One pass through the body of the loop, on a segment of length
    [segdist]. *)
Definition marker_step {num} (ar : arithmetic num) (interval segdist : num)
    (st : marker_state num) : marker_state num :=
  let lastmd := m_md st in
  let md1 := add ar (m_md st) segdist in
  let cd1 := add ar (m_cd st) segdist in
  if gtb ar interval (zero ar) && geb ar md1 interval then
    let lastSeg := sub ar interval lastmd in
    let nextSeg := sub ar segdist lastSeg in
    {| m_cd := cd1; m_md := nextSeg; m_pos := m_pos st ++ [sub ar cd1 nextSeg] |}
  else {| m_cd := cd1; m_md := md1; m_pos := m_pos st |}.


Definition binary64 : arithmetic JS.number :=
  {| zero := 0; add := PrimFloat.add; sub := PrimFloat.sub;
     gtb := JS.gt; geb := JS.ge |}.


(** The part of the state of the scan that [marker_step] follows. *)
Definition view (st : ModelGenerator.scan_state) : marker_state JS.number :=
  {| m_cd := ModelGenerator.cd st;
     m_md := ModelGenerator.md st;
     m_pos := map mk_pos (ModelGenerator.markerObjs st) |}.

(** The Vincenty lengths of the segments from [last] through [rest]. *)
Fixpoint segment_distances (h : Host) (last : vec3) (rest : list vec3) : list JS.number :=
  match rest with
  | [] => []
  | p :: rest' =>
      distVincenty h (at1 last) (at0 last) (at1 p) (at0 p) :: segment_distances h p rest'
  end.

Definition total (segs : list Q) : Q := fold_right Qplus 0%Q segs.



End Markers.

(** ** The distance filter *)

(** The distance the filter compares: from the point visited to a point
    kept. *)
Definition filter_dist (h : Host) (p q : vec3) : JS.number :=
  distVincenty h (at1 p) (at0 p) (at1 q) (at0 q).

(** The filter in the words of the specification: walking the points in
    order, a point is kept iff its distance to the last kept point is at
    least [mindist], or unconditionally when [mindist] is [0]. *)
Fixpoint kept_after (h : Host) (mindist : JS.number) (last : vec3) (rest : list vec3)
  : list vec3 :=
  match rest with
  | [] => []
  | p :: rest' =>
      if JS.seq mindist 0 || JS.ge (filter_dist h p last) mindist
      then p :: kept_after h mindist p rest'
      else kept_after h mindist last rest'
  end.

(** Every point of [l] is at least [mindist] away from the one before it,
    the first from [last]. *)
Fixpoint chain_apart (h : Host) (mindist : JS.number) (last : vec3) (l : list vec3) : Prop :=
  match l with
  | [] => True
  | p :: l' => JS.ge (filter_dist h p last) mindist = true /\ chain_apart h mindist p l'
  end.

(** ** The mesh *)

Definition face_in_range (n : Z) (f : Face) : Prop :=
  (0 <= ix0 f < n)%Z /\ (0 <= ix1 f < n)%Z /\ (0 <= ix2 f < n)%Z.

(** What one station does to the geometry: nothing, or one quad and its
    faces. *)
Inductive station_step (st st' : ModelGenerator.path_state) : Prop :=
  | station_skipped :
      ModelGenerator.vertices st' = ModelGenerator.vertices st ->
      ModelGenerator.faces st' = ModelGenerator.faces st ->
      ModelGenerator.s st' = ModelGenerator.s st ->
      station_step st st'
  | station_accepted (pathPts : (JS.number * JS.number) * (JS.number * JS.number))
      (z : JS.number) :
      ModelGenerator.vertices st' =
        PathSegment.points (ModelGenerator.vertices st) pathPts z ->
      ModelGenerator.faces st' =
        PathSegment.faces (ModelGenerator.faces st) (ModelGenerator.s st) ->
      ModelGenerator.s st' = (ModelGenerator.s st + 1)%Z ->
      station_step st st'.

(** The invariant of the loop of [_processPath]. *)
Record path_inv (st : ModelGenerator.path_state) : Prop := {
  inv_s : (0 <= ModelGenerator.s st)%Z;
  inv_vertices :
    Z.of_nat (length (ModelGenerator.vertices st)) = (4 * ModelGenerator.s st)%Z;
  inv_faces :
    Z.of_nat (length (ModelGenerator.faces st)) =
    if (ModelGenerator.s st =? 0)%Z then 0%Z else (2 + 8 * (ModelGenerator.s st - 1))%Z;
  inv_range :
    Forall (face_in_range (4 * ModelGenerator.s st)) (ModelGenerator.faces st)
}.

(** The geometry of [st'] is that of [st] with more vertices and faces
    after it. *)
Definition extends (st st' : ModelGenerator.path_state) : Prop :=
  (ModelGenerator.s st <= ModelGenerator.s st')%Z /\
  (exists ev, ModelGenerator.vertices st' = ModelGenerator.vertices st ++ ev) /\
  (exists ef, ModelGenerator.faces st' = ModelGenerator.faces st ++ ef).

(** ** The STL buffer *)

(** What a run of stores from offset [off] on leaves alone: the length of
    the buffer and the bytes below [off]. *)
Definition stores_from (off : nat) (buf buf' : list Z) : Prop :=
  length buf' = length buf /\
  forall i : nat, (i < off)%nat -> buf' !! i = buf !! i.

(** ** Effects *)

(** A computation that leaves the store as it found it. *)
Definition store_kept {A} (m : M A) : Prop :=
  forall w, store (snd (m w)) = store w.

(** The definition [configure_projection] stores in [options.projection]. *)
Definition chosen_projection (h : Host) (o : Options) (st : ModelGenerator.scan_state)
  : string :=
  if JS.seq (projtype o) ModelGenerator.PROJ_UTM then
    UTM.proj h ((ModelGenerator.minLat st + ModelGenerator.maxLat st) / 2)
               ((ModelGenerator.minLon st + ModelGenerator.maxLon st) / 2)
  else if JS.seq (projtype o) ModelGenerator.PROJ_GOOGLE then "GOOGLE"%string
  else projection o.

(** A pure step that can only fail on [undefined] or [null]. *)
Definition type_errors {A} (r : result A) : Prop :=
  forall e, r = Throw e -> e = TypeError.

(** The one error the generator constructs. *)
Definition projection_error : exn := Error "Projeção de mapa não reconhecida.".

(** A computation whose exceptions are a [TypeError] or the projection
    error. *)
Definition raises_only {A} (m : M A) : Prop :=
  forall w e w', m w = (Throw e, w') -> e = TypeError \/ e = projection_error.

(** The ranges the form states, as [collectOptions] tests them. *)
Definition in_stated_ranges (h : Host) (o : Options) : bool :=
  (JS.isFinite (vertical o) && negb (JS.lt (vertical o) 1)) &&
  (JS.isFinite (bedx o) && negb (JS.lt (bedx o) 20)) &&
  (JS.isFinite (bedy o) && negb (JS.lt (bedy o) 20)) &&
  (JS.isFinite (buffer o) && negb (JS.lt (buffer o) 0.5)) &&
  negb (JS.seq (projtype o) 1 && String.eqb (string_trim h (projection o)) "").

(** ** Sample inputs *)

Module Sample.

(** A two-point track on the equator, 0.001 degree long. *)
Definition track : list vec3 := [V3 0 0 10; V3 0.001 0 10].

(** A linear profile on a bed of 100 by 100 with a ribbon of half-width 5. *)
Definition options_with (vert : JS.number) : Options :=
  {| buffer := 5; vertical := vert; bedx := 100; bedy := 100; base := 1;
     zcut := false; zoverride := false; zconstant := 100;
     regionfit := false;
     region_minx := 0; region_maxx := 0; region_miny := 0; region_maxy := 0;
     shapetype := 1; projtype := 0; projection := "";
     markerInterval := 0; smoothtype := 0; smoothspan := 10 |}.


Definition points_ref : ref := 1%positive.
Definition options_ref : ref := 2%positive.

(** The caller's two objects, before the call. *)
Definition world (o : Options) : World :=
  {| store := <[options_ref := OptionsObject o]>
                (<[points_ref := PointsArray track]> ∅);
     projector := None;
     progress := [] |}.

(** Two fitted stations, and a third one after a right turn. *)
Definition fitted : list vec3 := [V3 0 (-45) 9; V3 0 45 9; V3 45 45 9].

(** One triangle. *)
Definition mesh : ModelCode :=
  {| rawPoints := [V3 0 0 0; V3 1 0 0; V3 0 1 0];
     rawFaces := [Tri 0 1 2];
     rawMarkers := [];
     markerWidth := 12 |}.

(** A form that asks for a vertical exaggeration of one half. *)
Definition form : App.Form :=
  {| App.pathWidth := "10"; App.vertical_input := "0.5";
     App.width := "100"; App.depth := "100"; App.base_input := "1";
     App.zcut_checked := false; App.zoverride_checked := false;
     App.zconstant_input := "100"; App.regionfit_checked := false;
     App.eastMin := ""; App.eastMax := ""; App.northMin := ""; App.northMax := "";
     App.shapeBtns := [ {| App.active := true; App.data_shape := "1" |} ];
     App.projRadios := [ {| App.checked := true; App.value := "0" |} ];
     App.projection_input := "";
     App.markerRadios := [ {| App.checked := true; App.value := "0" |} ];
     App.markerInterval_input := "";
     App.smoothRadios := [ {| App.checked := true; App.value := "0" |} ];
     App.mindist := "" |}.

End Sample.

(** ** Bounding boxes *)

(** A point none of whose coordinates is [NaN]. *)
Definition numeric (p : vec3) : bool :=
  negb (JS.isNaN (at0 p)) && negb (JS.isNaN (at1 p)) && negb (JS.isNaN (at2 p)).

(** The box [new Bounds(p0)] becomes after [update] with each point of [ps]. *)
Definition bounds_of (p0 : vec3) (ps : list vec3) : Bounds :=
  fold_left BoundsM.update ps (BoundsM.new p0).

(** The point lies in the box, on the three axes. *)
Definition within (b : Bounds) (p : vec3) : bool :=
  JS.le (minx b) (at0 p) && JS.le (at0 p) (maxx b) &&
  JS.le (miny b) (at1 p) && JS.le (at1 p) (maxy b) &&
  JS.le (minz b) (at2 p) && JS.le (at2 p) (maxz b).

(** A number that is not [NaN], read on its specification. *)
Definition SFnum (x : spec_float) : Prop :=
  match x with S754_nan => False | _ => True end.

(** A box none of whose six fields is [NaN]. *)
Definition numeric_bounds (b : Bounds) : Prop :=
  JS.isNaN (minx b) = false /\ JS.isNaN (maxx b) = false /\
  JS.isNaN (miny b) = false /\ JS.isNaN (maxy b) = false /\
  JS.isNaN (minz b) = false /\ JS.isNaN (maxz b) = false.


(** ** The scan *)

(** The running sums of [ds] after [acc]: what [cd += segdist] takes as
    values. *)
Fixpoint running_sums (acc : JS.number) (ds : list JS.number) : list JS.number :=
  match ds with
  | [] => []
  | d0 :: ds' => (acc + d0) :: running_sums (acc + d0) ds'
  end.



(** The geographic box of the scan holds the point. *)
Definition in_geo_box (st : ModelGenerator.scan_state) (p : vec3) : bool :=
  JS.le (ModelGenerator.minLon st) (at0 p) && JS.le (at0 p) (ModelGenerator.maxLon st) &&
  JS.le (ModelGenerator.minLat st) (at1 p) && JS.le (at1 p) (ModelGenerator.maxLat st).

(** A point whose longitude and latitude are numbers. *)
Definition located (p : vec3) : bool :=
  negb (JS.isNaN (at0 p)) && negb (JS.isNaN (at1 p)).

(** A scan state whose geographic box holds no [NaN]. *)
Definition numeric_geo_box (st : ModelGenerator.scan_state) : Prop :=
  JS.isNaN (ModelGenerator.minLon st) = false /\ JS.isNaN (ModelGenerator.maxLon st) = false /\
  JS.isNaN (ModelGenerator.minLat st) = false /\ JS.isNaN (ModelGenerator.maxLat st) = false.

(** ** The arrays of the distance filter *)

(** The distances between the successive points of [l], each from the
    later point to the one before it, as the filter computes them. *)
Fixpoint adjacent_dists (h : Host) (l : list vec3) : list JS.number :=
  match l with
  | a :: (b :: _) as l' => filter_dist h b a :: adjacent_dists h l'
  | _ => []
  end.

(** ** Effects of the phases *)

(** A computation that leaves the whole world as it found it, whether it
    returns or throws. *)
Definition world_kept {A} (m : M A) : Prop :=
  forall w r w', m w = (r, w') -> w' = w.

(** A computation that makes no progress call. *)
Definition progress_kept {A} (m : M A) : Prop :=
  forall w, progress (snd (m w)) = progress w.

(** ** Sample objects for the phases *)

Module Phase.

(** The context [generate] starts from, for the option record [o] stored
    at [Sample.options_ref]. *)
Definition context (o : Options) : Ctx :=
  {| options := Sample.options_ref;
     bed := {| bed_x := bedx o - (2 * buffer o); bed_y := bedy o - (2 * buffer o) |};
     ll := []; d := []; distance := 0; ringRadius := 0; smoothTotal := 0;
     projectedPoints := []; outputPoints := []; markers := [];
     bounds := None; offset := None; scale := None |}.

(** A context after a scan that kept three points 30 and 40 apart, on a
    track 70 long. *)
Definition scanned : Ctx :=
  {| options := Sample.options_ref;
     bed := {| bed_x := 90; bed_y := 90 |};
     ll := [V3 0 0 10; V3 0.001 0 12; V3 0.002 0 11]; d := [30; 40];
     distance := 70; ringRadius := 70 / (JS.PI * 2); smoothTotal := 70;
     projectedPoints := []; outputPoints := []; markers := [];
     bounds := None; offset := None; scale := None |}.

(** A custom projection that proj4 does not know, for a linear profile. *)
Definition unknown_projection : Options :=
  {| buffer := 5; vertical := 1; bedx := 100; bedy := 100; base := 1;
     zcut := false; zoverride := false; zconstant := 100;
     regionfit := false;
     region_minx := 0; region_maxx := 0; region_miny := 0; region_maxy := 0;
     shapetype := 1; projtype := 1; projection := "mercator";
     markerInterval := 0; smoothtype := 0; smoothspan := 10 |}.

(** The caller's two objects, with the array [l] as the track. *)
Definition world_of (l : list vec3) (o : Options) : World :=
  {| store := <[Sample.options_ref := OptionsObject o]>
                (<[Sample.points_ref := PointsArray l]> ∅);
     projector := None;
     progress := [] |}.

(** A form whose fields are all in range: a linear profile with markers
    every kilometre. *)
Definition valid_form : App.Form :=
  {| App.pathWidth := "10"; App.vertical_input := "1";
     App.width := "100"; App.depth := "100"; App.base_input := "1";
     App.zcut_checked := true; App.zoverride_checked := true;
     App.zconstant_input := "100"; App.regionfit_checked := false;
     App.eastMin := ""; App.eastMax := ""; App.northMin := ""; App.northMax := "";
     App.shapeBtns := [ {| App.active := false; App.data_shape := "0" |};
                        {| App.active := true; App.data_shape := "1" |} ];
     App.projRadios := [ {| App.checked := true; App.value := "0" |} ];
     App.projection_input := "";
     App.markerRadios := [ {| App.checked := false; App.value := "0" |};
                           {| App.checked := true; App.value := "1" |} ];
     App.markerInterval_input := "";
     App.smoothRadios := [ {| App.checked := true; App.value := "1" |} ];
     App.mindist := "0" |}.

End Phase.

(** The percentages [generate] hands to its callback, in order. *)
Definition progress_marks : list Z := [10; 30; 50; 70; 90]%Z.

(** The world after the progress calls [marks], made when a callback was
    given. *)
Definition with_progress (w : World) (cb : bool) (marks : list Z) : World :=
  {| store := store w; projector := projector w;
     progress := progress w ++ (if cb then marks else []) |}.

(** ** The bytes of an STL file *)

(** The file in the words of the format: a header of 80 bytes, the number
    of triangles on four bytes, then one record of 50 bytes per triangle. *)
Module STLFormat.

(** A number as [setFloat32(offset, x, true)] stores it. *)
Definition float32_le (h : Host) (x : JS.number) : list Z :=
  DataView.le_bytes 4 (float32_bits h x).

Definition vec_bytes (h : Host) (x y z : JS.number) : list Z :=
  float32_le h x ++ float32_le h y ++ float32_le h z.

(** The normal of the triangle: the cross product of its first two edges,
    divided by its length when that length is above [0]. *)
Definition facet_normal (v0 v1 v2 : vec3) : vec3 :=
  let ux := at0 v1 - at0 v0 in
  let uy := at1 v1 - at1 v0 in
  let uz := at2 v1 - at2 v0 in
  let vx := at0 v2 - at0 v0 in
  let vy := at1 v2 - at1 v0 in
  let vz := at2 v2 - at2 v0 in
  let nx := uy * vz - uz * vy in
  let ny := uz * vx - ux * vz in
  let nz := ux * vy - uy * vx in
  let len := PrimFloat.sqrt (nx * nx + ny * ny + nz * nz) in
  if JS.gt len 0 then V3 (nx / len) (ny / len) (nz / len) else V3 nx ny nz.

(** One record: the normal, the three corners, and an attribute byte
    count of zero. *)
Definition triangle_record (h : Host) (v0 v1 v2 : vec3) : list Z :=
  let n := facet_normal v0 v1 v2 in
  vec_bytes h (at0 n) (at1 n) (at2 n) ++
  vec_bytes h (at0 v0) (at1 v0) (at2 v0) ++
  vec_bytes h (at0 v1) (at1 v1) (at2 v1) ++
  vec_bytes h (at0 v2) (at1 v2) (at2 v2) ++
  [0; 0]%Z.

(** The record of a face, whose corners are looked up in [points]. *)
Definition triangle_bytes (h : Host) (points : list vec3) (face : Face) : result (list Z) :=
  v0 <- deref points (ix0 face) ;;
  v1 <- deref points (ix1 face) ;;
  v2 <- deref points (ix2 face) ;;
  Ok (triangle_record h v0 v1 v2).

Fixpoint triangles_bytes (h : Host) (points : list vec3) (fs : list Face)
  : result (list Z) :=
  match fs with
  | [] => Ok []
  | face :: rest =>
      b <- triangle_bytes h points face ;;
      bs <- triangles_bytes h points rest ;;
      Ok (b ++ bs)
  end.

(** The text of the header as character codes, padded with zeros to 80
    bytes. *)
Definition header_bytes : list Z :=
  map (fun c => Z.of_nat (nat_of_ascii c)) (list_ascii_of_string STL.header) ++
  repeat 0%Z (80 - String.length STL.header).

Definition stl_bytes (h : Host) (m : ModelCode) : result (list Z) :=
  bs <- triangles_bytes h (rawPoints m) (rawFaces m) ;;
  Ok (header_bytes ++ DataView.le_bytes 4 (Z.of_nat (length (rawFaces m))) ++ bs).

End STLFormat.

(** A computation whose progress calls are the first few of [marks], in
    order, whether it returns or throws. *)
Definition reports {A} (marks : list Z) (m : M A) : Prop :=
  forall w r w', m w = (r, w') -> exists k : nat, progress w' = progress w ++ take k marks.

(** ** The geometry of the ribbon *)

(** The four vertices of one station: two on the floor and, above each, one
    at the height of the station. *)
Definition quad (q : ((JS.number * JS.number) * (JS.number * JS.number)) * JS.number)
  : list vec3 :=
  PathSegment.points [] (fst q) (snd q).

(** A triangle with three different corners. *)
Definition proper_face (f : Face) : Prop :=
  ix0 f <> ix1 f /\ ix1 f <> ix2 f /\ ix0 f <> ix2 f.

(** ** The summary of a track *)

(** An elevation that counts as real data: neither of the two defaults. *)
Definition real_elevation (p : vec3) : bool :=
  negb (JS.seq (at2 p) 1) && negb (JS.seq (at2 p) 0).

(** The elevation of the point lies between the two numbers. *)
Definition elevation_between (lo hi : JS.number) (p : vec3) : bool :=
  JS.le lo (at2 p) && JS.le (at2 p) hi.

(** The four messages of [parse]. *)
Definition parse_errors : list string :=
  [ "Erro ao processar o arquivo GPX.";
    "O arquivo não é um XML válido.";
    "Este arquivo não contém nenhuma trilha (track). Verifique se é um arquivo GPX válido.";
    "A trilha não contém pontos suficientes (mínimo: 2)." ]%string.

(** Sample documents. *)
Module Gpx.

Definition leaf (text : string) : DOM.Element :=
  {| DOM.getElementsByTagName := fun _ => [];
     DOM.getAttribute := fun _ => None;
     DOM.textContent := text |}.

(** [<trkpt lat=... lon=...><ele>...</ele></trkpt>] *)
Definition trkpt (lat lon ele : string) : DOM.Element :=
  {| DOM.getElementsByTagName :=
       fun tag => if String.eqb tag "ele" then [leaf ele] else [];
     DOM.getAttribute :=
       fun a => if String.eqb a "lat" then Some lat
                else if String.eqb a "lon" then Some lon else None;
     DOM.textContent := ele |}.

Definition trkseg (pts : list DOM.Element) : DOM.Element :=
  {| DOM.getElementsByTagName :=
       fun tag => if String.eqb tag "trkpt" then pts else [];
     DOM.getAttribute := fun _ => None;
     DOM.textContent := "" |}.

(** A track of two segments, without a name. *)
Definition trk : DOM.Element :=
  {| DOM.getElementsByTagName :=
       fun tag =>
         if String.eqb tag "trkseg"
         then [ trkseg [trkpt "0" "0" "10"; trkpt "0" "0.001" "12"];
                trkseg [trkpt "0" "0.002" "11"] ]
         else [];
     DOM.getAttribute := fun _ => None;
     DOM.textContent := "" |}.

Definition document : DOM.Document :=
  {| DOM.parsererror := false;
     DOM.elements := fun tag => if String.eqb tag "trk" then [trk] else [] |}.

(** A parser that knows one text. *)
Definition parser : DOM.Parser :=
  fun text => if String.eqb text "sample" then Ok document else Throw (Error "parse").

End Gpx.

(** * Proofs *)

Import ModelGenerator.

(** ** Facts about binary64 numbers *)

Lemma SFsub_diag (x : spec_float) :
  SFsub prec emax x x = S754_zero false \/ SFsub prec emax x x = S754_nan.
Proof.
  destruct x as [sx | sx | | sx m e]; simpl.
  - left. now destruct sx.
  - right. now destruct sx.
  - now right.
  - left. rewrite Z.sub_diag. reflexivity.
Qed.

Lemma sub_diag_cases (a : float) :
  Prim2SF (a - a) = S754_zero false \/ Prim2SF (a - a) = S754_nan.
Proof. rewrite FloatAxioms.sub_spec. apply SFsub_diag. Qed.

(** A number minus itself is [0] or [NaN]: never an acute angle. *)
Lemma isAcute_sub_diag (a : float) : isAcute (a - a) = false.
Proof.
  unfold isAcute, JS.gt.
  rewrite FloatAxioms.ltb_spec, !FloatAxioms.abs_spec.
  destruct (sub_diag_cases a) as [-> | ->]; reflexivity.
Qed.

Lemma pos_not_zero (m : float) : JS.gt m 0 = true -> JS.seq m 0 = false.
Proof.
  unfold JS.gt, JS.seq. rewrite FloatAxioms.ltb_spec, FloatAxioms.eqb_spec.
  change (Prim2SF 0) with (S754_zero false).
  destruct (Prim2SF m) as [sx | sx | | sx mm e]; try destruct sx;
    unfold SFltb, SFeqb, SFcompare; intros; try reflexivity; try discriminate.
Qed.

Lemma digits2_xO (p : positive) :
  Zpos (digits2_pos (xO p)) = (Zpos (digits2_pos p) + 1)%Z.
Proof. change (digits2_pos p~0) with (Pos.succ (digits2_pos p)). lia. Qed.

Lemma digits2_pos_shift52 (m : positive) :
  Zpos (digits2_pos (4503599627370496 * m)) = (Zpos (digits2_pos m) + 52)%Z.
Proof.
  change (4503599627370496 * m)%positive with (Pos.iter xO m 52).
  simpl Pos.iter. rewrite !digits2_xO. lia.
Qed.

Lemma shr_52 (m : positive) :
  SpecFloat.iter_pos shr_1 52
    {| shr_m := Zpos (4503599627370496 * m); shr_r := false; shr_s := false |} =
  {| shr_m := Zpos m; shr_r := false; shr_s := false |}.
Proof. reflexivity. Qed.

(** The product by [1] is exact: the mantissa shifted left by 52 bits is
    shifted back without a bit lost. *)
Lemma SFmul_one_r (x : spec_float) :
  valid_binary x = true ->
  SFmul prec emax x (S754_finite false 4503599627370496 (-52)) = x.
Proof.
  intros Hv. destruct x as [sx | sx | | sx m e]; simpl.
  - now rewrite xorb_false_r.
  - now rewrite xorb_false_r.
  - reflexivity.
  - unfold valid_binary, SpecFloat.valid_binary, bounded, canonical_mantissa in Hv.
    apply andb_true_iff in Hv. destruct Hv as [Hc Hb].
    apply Z.eqb_eq in Hc. apply Z.leb_le in Hb.
    rewrite xorb_false_r, Pos.mul_comm.
    unfold binary_round_aux, shr_fexp.
    unfold Zdigits2 at 1. rewrite digits2_pos_shift52.
    replace (Z.pos (digits2_pos m) + 52 + (e + -52))%Z
      with (Z.pos (digits2_pos m) + e)%Z by lia.
    rewrite Hc.
    replace (e - (e + -52))%Z with 52%Z by lia.
    cbn [shr shr_record_of_loc]. rewrite shr_52.
    cbn [loc_of_shr_record shr_m round_nearest_even].
    replace (e + -52 + 52)%Z with e by lia.
    cbn [Zdigits2]. rewrite Hc, Z.sub_diag.
    cbn [shr shr_record_of_loc shr_m].
    apply Z.leb_le in Hb. now rewrite Hb.
Qed.

Lemma mul_one_r (x : float) : x * 1 = x.
Proof.
  apply Prim2SF_inj. rewrite mul_spec.
  change (Prim2SF 1) with (S754_finite false 4503599627370496 (-52)).
  apply SFmul_one_r, Prim2SF_valid.
Qed.

Lemma SFmul_comm (x y : spec_float) : SFmul prec emax x y = SFmul prec emax y x.
Proof.
  destruct x as [sx | sx | | sx mx ex], y as [sy | sy | | sy my ey]; simpl;
    try reflexivity; try (now rewrite xorb_comm).
  now rewrite xorb_comm, Pos.mul_comm, Z.add_comm.
Qed.

Lemma mul_comm (x y : float) : x * y = y * x.
Proof. apply Prim2SF_inj. rewrite !mul_spec. apply SFmul_comm. Qed.

Lemma is_finite_SFfin (x : float) : PrimFloat.is_finite x = true -> SFfin (Prim2SF x).
Proof.
  unfold PrimFloat.is_finite, PrimFloat.is_nan, PrimFloat.is_infinity.
  rewrite !FloatAxioms.eqb_spec, FloatAxioms.abs_spec.
  change (Prim2SF infinity) with (S754_infinity false).
  destruct (Prim2SF x) as [sx | sx | | sx m e]; try destruct sx; simpl;
    try discriminate; auto.
Qed.

Lemma SFfin_mul (x y : spec_float) :
  SFfin (SFmul prec emax x y) -> SFfin x /\ SFfin y.
Proof.
  destruct x as [sx | sx | | sx mx ex], y as [sy | sy | | sy my ey]; simpl; tauto.
Qed.

Lemma sub_diag_finite (x : float) : SFfin (Prim2SF x) -> x - x = 0.
Proof.
  intros Hx. apply Prim2SF_inj. rewrite FloatAxioms.sub_spec.
  change (Prim2SF 0) with (S754_zero false).
  destruct (Prim2SF x) as [sx | sx | | sx m e]; simpl in *; try contradiction.
  - now destruct sx.
  - now rewrite Z.sub_diag.
Qed.

Lemma sq_mul_zero (x : float) : SFfin (Prim2SF x) -> (x * 0) * (x * 0) = 0.
Proof.
  intros Hx. apply Prim2SF_inj. rewrite !mul_spec.
  change (Prim2SF 0) with (S754_zero false).
  destruct (Prim2SF x) as [sx | sx | | sx m e]; simpl in *; try contradiction;
    now destruct sx.
Qed.

(** The product of two numbers of absolute value at most [1] is finite.
    Their mantissas are below 2^53 and their exponents at most -52, so the
    exact product has a mantissa below 2^106 and an exponent at most -104;
    rounding shifts the mantissa right and can raise the exponent to 3 at
    most, far below the overflow threshold. *)
Local Open Scope Z_scope.

Lemma shr_1_bounds (mrs : shr_record) :
  0 <= shr_m mrs -> 0 <= shr_m (shr_1 mrs) <= shr_m mrs.
Proof.
  destruct mrs as [m r s]. cbn [shr_m]. unfold shr_1.
  destruct m as [| [p | p |] | p]; cbn [shr_m]; lia.
Qed.

Lemma iter_shr_1_bounds (n : positive) :
  forall mrs, 0 <= shr_m mrs ->
              0 <= shr_m (SpecFloat.iter_pos shr_1 n mrs) <= shr_m mrs.
Proof.
  induction n as [n IH | n IH |]; intros mrs H; cbn [SpecFloat.iter_pos].
  - pose proof (shr_1_bounds mrs H) as H1.
    pose proof (IH _ (proj1 H1)) as H2.
    pose proof (IH _ (proj1 H2)) as H3. lia.
  - pose proof (IH _ H) as H2.
    pose proof (IH _ (proj1 H2)) as H3. lia.
  - apply shr_1_bounds, H.
Qed.

Lemma shr_bounds (mrs : shr_record) (e n : Z) :
  0 <= shr_m mrs ->
  0 <= shr_m (fst (shr mrs e n)) <= shr_m mrs /\
  snd (shr mrs e n) <= Z.max e (e + n).
Proof.
  intros H. unfold shr. destruct n as [| p | p]; cbn [fst snd]; try lia.
  split; [apply iter_shr_1_bounds, H | lia].
Qed.

Lemma round_nearest_even_bounds (m : Z) (l : SpecFloat.location) :
  0 <= m -> 0 <= round_nearest_even m l <= m + 1.
Proof.
  intros H. unfold round_nearest_even.
  destruct l as [| [ | | ]]; try destruct (Z.even m); lia.
Qed.

Lemma digits2_pos_size (p : positive) : digits2_pos p = Pos.size p.
Proof. induction p; simpl; congruence. Qed.

Lemma Zdigits2_bound (z k : Z) : 0 <= k -> 0 <= z < 2 ^ k -> Zdigits2 z <= k.
Proof.
  intros Hk [H0 H1]. destruct z as [| p | p]; cbn [Zdigits2]; [lia | | lia].
  rewrite digits2_pos_size.
  pose proof (Pos.size_le p) as Hs.
  assert (Hs' : 2 ^ Zpos (Pos.size p) <= 2 * Zpos p).
  { rewrite <- Pos2Z.inj_pow. change (2 * Zpos p) with (Zpos p~0). lia. }
  destruct (Z.le_gt_cases (Zpos (Pos.size p)) k) as [|Hgt]; [assumption|].
  assert (Hp : 2 ^ (k + 1) <= 2 ^ Zpos (Pos.size p)) by (apply Z.pow_le_mono_r; lia).
  rewrite Z.pow_add_r in * by lia. lia.
Qed.

Lemma valid_mantissa_bound (m : positive) (e : Z) :
  bounded prec emax m e = true -> Zpos m < 2 ^ 53.
Proof.
  unfold bounded, canonical_mantissa, fexp. intros H.
  apply andb_true_iff in H as [H _]. apply Z.eqb_eq in H.
  rewrite digits2_pos_size in H.
  assert (Hd : Zpos (Pos.size m) <= 53) by (unfold prec in H; lia).
  pose proof (Pos.size_gt m) as Hg.
  assert (Hg' : Zpos m < 2 ^ Zpos (Pos.size m)) by (rewrite <- Pos2Z.inj_pow; lia).
  assert (Hp : 2 ^ Zpos (Pos.size m) <= 2 ^ 53) by (apply Z.pow_le_mono_r; lia).
  lia.
Qed.

Lemma binary_round_aux_fin (sx : bool) (m : positive) (e : Z) :
  Zpos m < 2 ^ 106 -> e <= -104 ->
  SFfin (binary_round_aux prec emax sx (Zpos m) e loc_Exact).
Proof.
  intros Hm He. unfold binary_round_aux, shr_fexp.
  cbn [shr_record_of_loc].
  set (r0 := {| shr_m := Z.pos m; shr_r := false; shr_s := false |}).
  set (n1 := fexp prec emax (Zdigits2 (Z.pos m) + e) - e).
  pose proof (shr_bounds r0 e n1) as [B1 E1]; [cbn; lia|].
  destruct (shr r0 e n1) as [mrs1 e1]. cbn [fst snd] in B1, E1.
  cbn [shr_m] in B1. fold r0 in B1.
  assert (Hd0 : Zdigits2 (Zpos m) <= 106) by (apply Zdigits2_bound; lia).
  assert (He1 : e1 <= -51) by (unfold n1, fexp, prec, emin, emax in E1; lia).
  set (m1 := round_nearest_even (shr_m mrs1) (loc_of_shr_record mrs1)).
  pose proof (round_nearest_even_bounds (shr_m mrs1) (loc_of_shr_record mrs1)) as B2.
  fold m1 in B2. specialize (B2 (proj1 B1)).
  set (r1 := {| shr_m := m1; shr_r := false; shr_s := false |}).
  set (n2 := fexp prec emax (Zdigits2 m1 + e1) - e1).
  pose proof (shr_bounds r1 e1 n2) as [B3 E3]; [cbn; lia|].
  destruct (shr r1 e1 n2) as [mrs2 e2]. cbn [fst snd] in B3, E3.
  assert (Hd1 : Zdigits2 m1 <= 107).
  { apply Zdigits2_bound; [lia|]. split; [lia|].
    assert (H107 : 2 ^ 107 = 2 * 2 ^ 106) by reflexivity. subst r0. cbn [shr_m] in B1. lia. }
  assert (He2 : e2 <= 3) by (unfold n2, fexp, prec, emin, emax in E3; lia).
  destruct (shr_m mrs2) as [| p | p] eqn:Em; [exact I | | lia].
  replace (e2 <=? emax - prec) with true; [exact I|].
  symmetry. apply Z.leb_le. unfold emax, prec. lia.
Qed.

Lemma SFleb_one_exponent (s : bool) (m : positive) (e : Z) :
  SFleb (SFabs (S754_finite s m e)) (S754_finite false 4503599627370496 (-52)) = true ->
  e <= -52.
Proof.
  unfold SFleb, SFabs, SFcompare.
  destruct (Z.compare_spec e (-52)) as [Hc | Hc | Hc]; intros Hle; try lia; discriminate.
Qed.

Lemma SFmul_fin_le_one (x y : spec_float) :
  valid_binary x = true -> valid_binary y = true ->
  SFleb (SFabs x) (S754_finite false 4503599627370496 (-52)) = true ->
  SFleb (SFabs y) (S754_finite false 4503599627370496 (-52)) = true ->
  SFfin (SFmul prec emax x y).
Proof.
  intros Vx Vy Hx Hy.
  destruct x as [sx | sx | | sx mx ex], y as [sy | sy | | sy my ey];
    try exact I; try discriminate.
  apply SFleb_one_exponent in Hx, Hy.
  unfold valid_binary, SpecFloat.valid_binary in Vx, Vy.
  apply valid_mantissa_bound in Vx, Vy.
  cbn [SFmul]. apply binary_round_aux_fin; [|lia].
  rewrite Pos2Z.inj_mul.
  assert (H106 : 2 ^ 106 = 2 ^ 53 * 2 ^ 53) by reflexivity. nia.
Qed.

Local Open Scope float_scope.

Lemma mul_finite_le_one (a b : float) :
  JS.le (PrimFloat.abs a) 1 = true -> JS.le (PrimFloat.abs b) 1 = true ->
  SFfin (Prim2SF (a * b)).
Proof.
  unfold JS.le. rewrite !FloatAxioms.leb_spec, !FloatAxioms.abs_spec, mul_spec.
  change (Prim2SF 1) with (S754_finite false 4503599627370496 (-52)).
  apply SFmul_fin_le_one; apply Prim2SF_valid.
Qed.

(** ** Geodesy *)

Lemma sinSigma_coincident (h : Host) (s c : float) :
  Math_sin h 0 = 0 -> Math_cos h 0 = 1 ->
  SFfin (Prim2SF (c * s)) ->
  vincenty_sinSigma h s c s c 0 = 0.
Proof.
  intros Hs0 Hc0 HP.
  assert (Hc : SFfin (Prim2SF c)).
  { rewrite mul_spec in HP. now apply SFfin_mul in HP. }
  unfold vincenty_sinSigma. rewrite Hs0, Hc0.
  rewrite mul_one_r, (mul_comm s c).
  rewrite (sub_diag_finite (c * s) HP), (sq_mul_zero c Hc).
  reflexivity.
Qed.

(** C8: for every geographic point (a finite longitude, and a latitude for
    which the host's sine and cosine of the reduced latitude are at most [1]
    in absolute value, as a sine and a cosine are), on a host whose
    [Math.sin(0)] is [0] and [Math.cos(0)] is [1] as the standard requires,
    [distVincenty] applied to the point and itself returns exactly [0]: the
    first pass finds [sinSigma === 0]. *)
Theorem distVincenty_coincident (h : Host) (lat lon : JS.number) :
  Math_sin h 0 = 0 -> Math_cos h 0 = 1 ->
  JS.isFinite lon = true ->
  JS.le (PrimFloat.abs (Math_sin h (reduced_latitude h lat))) 1 = true ->
  JS.le (PrimFloat.abs (Math_cos h (reduced_latitude h lat))) 1 = true ->
  distVincenty h lat lon lat lon = 0.
Proof.
  intros Hs0 Hc0 Hlon Hsin Hcos.
  unfold distVincenty.
  rewrite (sub_diag_finite lon (is_finite_SFfin _ Hlon)).
  change (toRad 0) with 0.
  unfold vincenty_loop, vincenty_body. fold (reduced_latitude h lat).
  rewrite (sinSigma_coincident h _ _ Hs0 Hc0 (mul_finite_le_one _ _ Hcos Hsin)).
  reflexivity.
Qed.

Lemma distVincenty_coincident_witness :
  distVincenty Reference.host (-23.55) (-46.63) (-23.55) (-46.63) = 0.
Proof. apply (distVincenty_coincident Reference.host); vm_compute; reflexivity. Defined.

(** C9, as stated, fails: for the equatorial antipodes the first pass
    computes [sinSigma] as the sine of [Math.PI], which is about 1.22e-16 and
    not [0]; the coincident-endpoint branch is not taken, and on the reference
    host the iteration runs out and the result is [NaN]. *)
Lemma antipodes_not_coincident :
  first_sinSigma Reference.host 0 0 0 180 = 0x1.1a62633145c07p-53 /\
  JS.seq (first_sinSigma Reference.host 0 0 0 180) 0 = false /\
  distVincenty Reference.host 0 0 0 180 = PrimFloat.nan.
Proof. repeat split; vm_compute; reflexivity. Qed.

(** C9, amended: there are distinct points for which [distVincenty] returns
    [0] through the coincident-endpoint branch of the first pass: two points
    of the equator whose longitudes differ by so little that the difference,
    in radians, rounds to [0].  It needs of the host only the four values the
    standard fixes. *)
Theorem distVincenty_zero_distinct (h : Host) :
  Math_sin h 0 = 0 -> Math_cos h 0 = 1 -> Math_tan h 0 = 0 -> Math_atan h 0 = 0 ->
  JS.seq tiny_longitude 0 = false /\
  first_sinSigma h 0 0 0 tiny_longitude = 0 /\
  distVincenty h 0 0 0 tiny_longitude = 0.
Proof.
  intros Hs Hc Ht Ha.
  assert (HU : Math_atan h ((1 - f_WGS84) * Math_tan h (toRad 0)) = 0).
  { change (toRad 0) with 0. rewrite Ht.
    change ((1 - f_WGS84) * 0) with 0. exact Ha. }
  assert (H1 : first_sinSigma h 0 0 0 tiny_longitude = 0).
  { unfold first_sinSigma. rewrite HU, Hs, Hc.
    change (toRad (tiny_longitude - 0)) with 0.
    unfold vincenty_sinSigma. rewrite Hs, Hc. reflexivity. }
  repeat split; [exact H1|].
  unfold first_sinSigma in H1. unfold distVincenty, vincenty_loop, vincenty_body.
  rewrite H1. reflexivity.
Qed.

Lemma distVincenty_zero_distinct_witness :
  JS.seq tiny_longitude 0 = false /\
  first_sinSigma Reference.host 0 0 0 tiny_longitude = 0 /\
  distVincenty Reference.host 0 0 0 tiny_longitude = 0.
Proof. apply (distVincenty_zero_distinct Reference.host); reflexivity. Defined.

(** ** The marker scan *)

(** Whatever the host, a track of two points gets one marker when the
    interval is half its length: the loop visits its single segment once. *)
Lemma scan_long_segment (h : Host) (A B : vec3) :
  let L := 0 + distVincenty h (at1 A) (at0 A) (at1 B) (at0 B) in
  JS.gt (L / 2) 0 = true -> JS.ge L (L / 2) = true ->
  exists st,
    scan h (L / 2) [A; B] = Ok st /\
    totaldist st = L /\
    length (markerObjs st) = 1%nat.
Proof.
  intros L H1 H2. eexists. split; [reflexivity|].
  cbn [scan_loop tail]. unfold scan_body.
  cbn [scan_init lastpt md totaldist]. fold L.
  rewrite H1, H2. cbn [andb totaldist markerObjs app length]. split; reflexivity.
Qed.


Import Markers.

(** The loop of [_scanPoints] is [marker_step] at binary64 arithmetic, run
    over the lengths of the segments. *)
Lemma scan_loop_markers (h : Host) (interval : JS.number) (rest : list vec3) :
  forall (i : nat) (prev : vec3) (st : scan_state),
    view (scan_loop h interval i prev rest st) =
    fold_left (fun m segdist => marker_step binary64 interval segdist m)
              (segment_distances h (lastpt st) rest) (view st).
Proof.
  induction rest as [| p rest IH]; intros i prev st; [reflexivity|].
  cbn [scan_loop segment_distances fold_left]. rewrite IH. f_equal.
  - unfold scan_body.
    destruct (JS.gt interval 0 && JS.ge _ interval); reflexivity.
  - unfold scan_body, marker_step, view. cbn [binary64 zero add sub gtb geb m_md m_cd m_pos].
    destruct (JS.gt interval 0 && JS.ge _ interval); cbn [cd md markerObjs]; [|reflexivity].
    now rewrite map_app.
Qed.








(** ** The result monad *)

Lemma rbind_Ok {A B} (r : result A) (k : A -> result B) (b : B) :
  rbind r k = Ok b -> exists a, r = Ok a /\ k a = Ok b.
Proof. destruct r; simpl; [eauto | discriminate]. Qed.

Lemma deref_Ok {A} (l : list A) (i : nat) (a : A) :
  l !! i = Some a -> deref l (Z.of_nat i) = Ok a.
Proof.
  intros H. unfold deref.
  destruct (Z.ltb_spec (Z.of_nat i) 0); [lia|].
  now rewrite Nat2Z.id, H.
Qed.

Lemma deref_in_range {A} (l : list A) (i : Z) :
  (0 <= i < Z.of_nat (length l))%Z -> exists a, deref l i = Ok a.
Proof.
  intros [Hlo Hhi]. unfold deref.
  destruct (Z.ltb_spec i 0); [lia|].
  destruct (l !! Z.to_nat i) as [a|] eqn:E; [eauto|].
  apply lookup_ge_None in E. lia.
Qed.

(** ** The distance filter *)

Lemma distFilter_loop_spec (h : Host) (m : JS.number) (rest : list vec3) :
  forall (front : list vec3) (last : vec3) (st : filter_state),
    filteredPts st = front ++ [last] -> pre st = length front ->
    exists st', distFilter_loop h m rest st = Ok st' /\
                filteredPts st' = front ++ last :: kept_after h m last rest.
Proof.
  induction rest as [| p rest IH]; intros front last st Hf Hp.
  - exists st. split; [reflexivity|]. now rewrite Hf.
  - cbn [distFilter_loop kept_after]. unfold distFilter_body.
    rewrite (deref_Ok (filteredPts st) (pre st) last).
    2:{ rewrite Hf, Hp. rewrite lookup_app_r by (apply Nat.le_refl).
        now rewrite Nat.sub_diag. }
    cbn [rbind]. fold (filter_dist h p last).
    destruct (JS.seq m 0 || JS.ge (filter_dist h p last) m); cbn [rbind].
    + destruct (IH (front ++ [last]) p
                  {| filteredPts := filteredPts st ++ [p];
                     filteredDst := filteredDst st ++ [filter_dist h p last];
                     ModelGenerator.total :=
                       (ModelGenerator.total st + filter_dist h p last)%float;
                     pre := pre st + 1 |}) as (st' & H1 & H2).
      * simpl. now rewrite Hf.
      * simpl. rewrite Hp, length_app. simpl. lia.
      * exists st'. split; [exact H1|]. rewrite H2, <- app_assoc. reflexivity.
    + apply IH; assumption.
Qed.

Lemma kept_after_chain (h : Host) (m : JS.number) (rest : list vec3) :
  JS.seq m 0 = false ->
  forall last, chain_apart h m last (kept_after h m last rest).
Proof.
  intros Hm. induction rest as [| p rest IH]; intros last; simpl; [exact I|].
  rewrite Hm. simpl.
  destruct (JS.ge (filter_dist h p last) m) eqn:E; simpl; auto.
Qed.

Lemma chain_apart_lookup (h : Host) (m : JS.number) (l : list vec3) :
  forall last, chain_apart h m last l ->
  forall (i : nat) (a b : vec3),
    (last :: l) !! i = Some a -> (last :: l) !! S i = Some b ->
    JS.ge (filter_dist h b a) m = true.
Proof.
  induction l as [| p l IH]; intros last Hc i a b Ha Hb.
  - destruct i; discriminate.
  - destruct Hc as [H1 H2]. destruct i as [| i].
    + injection Ha as <-. injection Hb as <-. exact H1.
    + apply (IH p H2 i a b); assumption.
Qed.

Lemma kept_after_all (h : Host) (m : JS.number) (rest : list vec3) :
  JS.seq m 0 = true -> forall last, kept_after h m last rest = rest.
Proof.
  intros Hm. induction rest as [| p rest IH]; intros last; simpl; [reflexivity|].
  rewrite Hm. simpl. now rewrite IH.
Qed.

(** C4: for every list of raw points with a first point [p0] and every
    [mindist], the filter returns, and keeps [p0] followed by the points the
    specification's walk keeps: those at a Vincenty distance of [mindist] or
    more from the last point kept before them.  When [mindist > 0] every two
    adjacent kept points are therefore [mindist] apart or more; when
    [mindist] is [0] every point is kept. *)
Theorem distFilter_keeps (h : Host) (p0 : vec3) (rest : list vec3) (m : JS.number) :
  exists f,
    _distFilter h (p0 :: rest) m = Ok f /\
    filteredPts f = p0 :: kept_after h m p0 rest /\
    (JS.gt m 0 = true ->
     forall (i : nat) (a b : vec3),
       filteredPts f !! i = Some a -> filteredPts f !! S i = Some b ->
       JS.ge (filter_dist h b a) m = true) /\
    (JS.seq m 0 = true -> filteredPts f = p0 :: rest).
Proof.
  destruct (distFilter_loop_spec h m rest [] p0
              {| filteredPts := [p0]; filteredDst := [];
                 ModelGenerator.total := 0; pre := 0 |})
    as (f & H1 & H2); [reflexivity | reflexivity |].
  exists f. simpl in H2. repeat split; [exact H1 | exact H2 | |].
  - intros Hm. rewrite H2.
    apply chain_apart_lookup, kept_after_chain, pos_not_zero, Hm.
  - intros Hm. rewrite H2. now rewrite kept_after_all.
Qed.

(** On the track [a, b, c] with [b] 11 m and [c] 111 m from [a], a minimum
    distance of 50 m keeps [a] and [c]. *)
Lemma distFilter_keeps_witness :
  exists f,
    _distFilter Reference.host [V3 0 0 10; V3 0.0001 0 10; V3 0.001 0 10] 50 = Ok f /\
    filteredPts f = [V3 0 0 10; V3 0.001 0 10] /\
    JS.ge (filter_dist Reference.host (V3 0.001 0 10) (V3 0 0 10)) 50 = true.
Proof.
  destruct (distFilter_keeps Reference.host (V3 0 0 10)
              [V3 0.0001 0 10; V3 0.001 0 10] 50) as (f & E & Hk & Hadj & _).
  exists f. split; [exact E|].
  assert (Hf : filteredPts f = [V3 0 0 10; V3 0.001 0 10])
    by (rewrite Hk; vm_compute; reflexivity).
  split; [exact Hf|].
  apply (Hadj eq_refl 0%nat); rewrite Hf; reflexivity.
Defined.

Local Open Scope Z_scope.

(** ** The path builder *)

Lemma face_in_range_mono (n n' : Z) (f : Face) :
  n <= n' -> face_in_range n f -> face_in_range n' f.
Proof. unfold face_in_range. lia. Qed.

Lemma path_body_step (h : Host) (buf : JS.number) (pts : list vec3)
    (st st' : path_state) (i : nat) :
  path_body h buf pts st i = Ok st' -> station_step st st'.
Proof.
  unfold path_body. intros H.
  apply rbind_Ok in H as (angle & _ & H).
  apply rbind_Ok in H as (skip & _ & H).
  destruct skip.
  - injection H as <-. now apply station_skipped.
  - apply rbind_Ok in H as (pathPts & _ & H).
    apply rbind_Ok in H as (p & _ & H).
    injection H as <-. now apply (station_accepted _ _ pathPts (at2 p)).
Qed.

Lemma path_inv_init : path_inv path_init.
Proof. split; simpl; auto; lia. Qed.

Lemma path_inv_step (st st' : path_state) :
  path_inv st -> station_step st st' -> path_inv st'.
Proof.
  intros [Hs Hv Hf Hr] [Ev Ef Es | pathPts z Ev Ef Es].
  - split; rewrite ?Ev, ?Ef, ?Es; auto.
  - split; rewrite ?Ev, ?Ef, ?Es.
    + lia.
    + unfold PathSegment.points. rewrite length_app. simpl. lia.
    + unfold PathSegment.faces, PathSegment.firstFace.
      destruct (Z.eqb_spec (s st) 0) as [E0 | N0].
      * rewrite length_app. simpl.
        destruct (Z.eqb_spec (s st + 1) 0); lia.
      * rewrite length_app. simpl.
        destruct (Z.eqb_spec (s st + 1) 0); lia.
    + unfold PathSegment.faces, PathSegment.firstFace.
      destruct (Z.eqb_spec (s st) 0) as [E0 | N0].
      * apply Forall_app. split.
        -- eapply Forall_impl; [exact Hr|]. intros f. apply face_in_range_mono. lia.
        -- repeat constructor; simpl; lia.
      * apply Forall_app. split.
        -- eapply Forall_impl; [exact Hr|]. intros f. apply face_in_range_mono. lia.
        -- repeat constructor; simpl; lia.
Qed.

Lemma path_loop_inv (h : Host) (buf : JS.number) (pts : list vec3) (stations : list nat) :
  forall st st', path_inv st -> path_loop h buf pts stations st = Ok st' -> path_inv st'.
Proof.
  induction stations as [| i rest IH]; simpl; intros st st' Hinv H.
  - now injection H as <-.
  - apply rbind_Ok in H as (st1 & H1 & H).
    eapply IH; [|exact H].
    eapply path_inv_step; [exact Hinv|]. eapply path_body_step; eauto.
Qed.

Lemma segment_heading_Ok (h : Host) (pts : list vec3) (i : Z) :
  0 <= i -> i + 1 < Z.of_nat (length pts) ->
  exists a, segment_heading h pts i = Ok a.
Proof.
  intros Hlo Hhi. unfold segment_heading.
  destruct (deref_in_range pts i) as [a ->]; [lia|].
  destruct (deref_in_range pts (i + 1)) as [b ->]; [lia|].
  simpl. eauto.
Qed.

Lemma segmentAngle_Ok (h : Host) (pts : list vec3) (i : Z) :
  (2 <= length pts)%nat -> 0 <= i < Z.of_nat (length pts) ->
  exists a, segmentAngle h pts i = Ok a.
Proof.
  intros Hn Hi. unfold segmentAngle.
  destruct (Z.eqb_spec (i + 1) (Z.of_nat (length pts)));
    apply segment_heading_Ok; lia.
Qed.

Lemma jointPoints_Ok (h : Host) (buf : JS.number) (pts : list vec3) (i : Z)
    (rel avga : JS.number) :
  0 <= i < Z.of_nat (length pts) ->
  exists v, jointPoints h buf pts i rel avga = Ok v.
Proof.
  intros Hi. unfold jointPoints.
  destruct (deref_in_range pts i Hi) as [p ->]. simpl. eauto.
Qed.

Lemma path_body_Ok (h : Host) (buf : JS.number) (pts : list vec3)
    (st : path_state) (i : nat) :
  (2 <= length pts)%nat -> (i < length pts)%nat ->
  exists st', path_body h buf pts st i = Ok st'.
Proof.
  intros Hn Hi. unfold path_body.
  destruct (segmentAngle_Ok h pts (Z.of_nat i) Hn) as [angle ->]; [lia|]. simpl.
  set (rel := (angle - _)%float).
  assert (Hskip : exists b : bool,
    (if isAcute rel && (Z.of_nat i <? Z.of_nat (length pts) - 1)
     then next <- segmentAngle h pts (Z.of_nat i + 1) ;; Ok (isAcute (next - angle)%float)
     else Ok false) = Ok b).
  { destruct (isAcute rel); simpl; [|eauto].
    destruct (Z.ltb_spec (Z.of_nat i) (Z.of_nat (length pts) - 1)); [|eauto].
    destruct (segmentAngle_Ok h pts (Z.of_nat i + 1) Hn) as [next ->]; [lia|].
    simpl. eauto. }
  destruct Hskip as [b ->]. simpl. destruct b; [eauto|].
  match goal with |- context [jointPoints h buf pts ?i ?r ?a] =>
    destruct (jointPoints_Ok h buf pts i r a) as [v ->]; [lia|] end.
  simpl. destruct (deref_in_range pts (Z.of_nat i)) as [p ->]; [lia|].
  simpl. eauto.
Qed.

Lemma path_loop_Ok (h : Host) (buf : JS.number) (pts : list vec3) (stations : list nat) :
  (2 <= length pts)%nat -> Forall (fun i => (i < length pts)%nat) stations ->
  forall st, exists st', path_loop h buf pts stations st = Ok st'.
Proof.
  intros Hn. induction 1 as [| i rest Hi _ IH]; simpl; intros st; [eauto|].
  destruct (path_body_Ok h buf pts st i Hn Hi) as [st1 ->]. simpl. apply IH.
Qed.

(** The first station is accepted. *)
Lemma path_body_first (h : Host) (buf : JS.number) (pts : list vec3) (st : path_state) :
  (2 <= length pts)%nat ->
  exists st' pathPts p0,
    pts !! 0%nat = Some p0 /\
    path_body h buf pts st 0 = Ok st' /\
    vertices st' = PathSegment.points (vertices st) pathPts (at2 p0) /\
    faces st' = PathSegment.faces (faces st) (s st) /\
    s st' = s st + 1.
Proof.
  intros Hn. unfold path_body. change (Z.of_nat 0) with 0.
  destruct (segmentAngle_Ok h pts 0 Hn) as [angle ->]; [lia|].
  cbn [rbind Z.eqb]. rewrite isAcute_sub_diag. cbn [andb rbind].
  match goal with |- context [jointPoints h buf pts ?i ?r ?a] =>
    destruct (jointPoints_Ok h buf pts i r a) as [v ->]; [lia|] end.
  cbn [rbind].
  destruct pts as [| p0 rest]; [simpl in Hn; lia|].
  exists {| lastAngle := angle;
            vertices := PathSegment.points (vertices st) v (at2 p0);
            faces := PathSegment.faces (faces st) (s st);
            s := s st + 1 |}, v, p0.
  repeat split; reflexivity.
Qed.

(** The last station is never skipped. *)
Lemma path_body_last (h : Host) (buf : JS.number) (pts : list vec3)
    (st st' : path_state) (i : nat) :
  S i = length pts -> path_body h buf pts st i = Ok st' -> s st' = s st + 1.
Proof.
  intros Hi. unfold path_body. intros H.
  apply rbind_Ok in H as (angle & _ & H).
  replace (Z.of_nat i <? Z.of_nat (length pts) - 1) with false in H
    by (symmetry; apply Z.ltb_ge; lia).
  rewrite andb_false_r in H. cbn [rbind] in H.
  apply rbind_Ok in H as (pathPts & _ & H).
  apply rbind_Ok in H as (p & _ & H).
  now injection H as <-.
Qed.

Lemma extends_refl (st : path_state) : extends st st.
Proof. repeat split; [lia | exists [] | exists []]; now rewrite app_nil_r. Qed.

Lemma extends_trans (a b c : path_state) : extends a b -> extends b c -> extends a c.
Proof.
  intros (H1 & [v1 E1] & [f1 F1]) (H2 & [v2 E2] & [f2 F2]).
  repeat split; [lia | exists (v1 ++ v2) | exists (f1 ++ f2)].
  - now rewrite E2, E1, app_assoc.
  - now rewrite F2, F1, app_assoc.
Qed.

Lemma station_step_extends (st st' : path_state) : station_step st st' -> extends st st'.
Proof.
  intros [Ev Ef Es | pathPts z Ev Ef Es].
  - repeat split; [lia | exists [] | exists []]; rewrite app_nil_r; congruence.
  - repeat split; [lia | |].
    + rewrite Ev. unfold PathSegment.points. eauto.
    + rewrite Ef. unfold PathSegment.faces, PathSegment.firstFace.
      destruct (s st =? 0); eauto.
Qed.

Lemma path_loop_extends (h : Host) (buf : JS.number) (pts : list vec3) (stations : list nat) :
  forall st st', path_loop h buf pts stations st = Ok st' -> extends st st'.
Proof.
  induction stations as [| i rest IH]; simpl; intros st st' H.
  - injection H as <-. apply extends_refl.
  - apply rbind_Ok in H as (st1 & H1 & H).
    eapply extends_trans; [|eapply IH; exact H].
    eapply station_step_extends, path_body_step; eauto.
Qed.

Lemma path_loop_app (h : Host) (buf : JS.number) (pts : list vec3) (l1 l2 : list nat) :
  forall st, path_loop h buf pts (l1 ++ l2) st =
             (st1 <- path_loop h buf pts l1 st ;; path_loop h buf pts l2 st1).
Proof.
  induction l1 as [| i l1 IH]; simpl; intros st; [reflexivity|].
  destruct (path_body h buf pts st i); simpl; [apply IH | reflexivity].
Qed.

(** With two points or more the loop ends, and has accepted the first and
    the last station at least. *)
Lemma path_loop_returns (h : Host) (buf : JS.number) (pts : list vec3) :
  (2 <= length pts)%nat ->
  exists st1 st pathPts p0,
    pts !! 0%nat = Some p0 /\
    path_body h buf pts path_init 0 = Ok st1 /\
    vertices st1 = PathSegment.points [] pathPts (at2 p0) /\
    faces st1 = [Tri 0 2 3; Tri 3 1 0] /\
    s st1 = 1 /\
    path_loop h buf pts (List.seq 0 (length pts)) path_init = Ok st /\
    extends st1 st /\ 2 <= s st.
Proof.
  intros Hn.
  destruct (path_body_first h buf pts path_init Hn)
    as (st1 & pathPts & p0 & Hp0 & H1 & Hv & Hf & Hs).
  assert (Hseq : List.seq 0 (length pts) =
                 0%nat :: List.seq 1 (length pts - 2) ++ [(length pts - 1)%nat]).
  { replace (length pts) with (S (length pts - 2 + 1)) at 1 by lia.
    cbn [List.seq]. f_equal. rewrite seq_app. cbn [List.seq]. do 2 f_equal. lia. }
  destruct (path_loop_Ok h buf pts (List.seq 1 (length pts - 2)) Hn) with (st := st1)
    as [st2 H2].
  { apply Forall_forall. intros i Hi. apply elem_of_seq in Hi. lia. }
  destruct (path_body_Ok h buf pts st2 (length pts - 1) Hn) as [st3 H3]; [lia|].
  exists st1, st3, pathPts, p0.
  assert (E12 : extends st1 st2) by (eapply path_loop_extends; eauto).
  assert (E23 : extends st2 st3)
    by (eapply station_step_extends, path_body_step; eauto).
  apply path_body_last in H3 as Hs3; [|lia].
  repeat split; auto.
  - rewrite Hseq. cbn [path_loop]. rewrite H1. cbn [rbind].
    rewrite path_loop_app, H2. cbn [rbind path_loop]. now rewrite H3.
  - destruct (extends_trans _ _ _ E12 E23) as (? & ? & ?). lia.
  - apply (extends_trans _ _ _ E12 E23).
  - apply (extends_trans _ _ _ E12 E23).
  - destruct E12 as (? & _). simpl in Hs. lia.
Qed.

Lemma build_path_inv (h : Host) (buf : JS.number) (pts : list vec3) (st : path_state) :
  build_path h buf pts = Ok st ->
  exists st0,
    path_loop h buf pts (List.seq 0 (length pts)) path_init = Ok st0 /\
    path_inv st0 /\
    vertices st = vertices st0 /\
    s st = s st0 /\
    faces st = PathSegment.lastFace (faces st0) (s st0).
Proof.
  unfold build_path. intros H.
  apply rbind_Ok in H as (st0 & H0 & H). injection H as <-.
  assert (Hinv : path_inv st0) by (eapply path_loop_inv; [apply path_inv_init | exact H0]).
  exists st0. split; [exact H0|]. split; [exact Hinv|].
  split; [reflexivity|]. split; [reflexivity|].
  cbn [faces vertices]. f_equal. destruct Hinv as [_ Hv _ _]. rewrite Hv.
  rewrite Z.mul_comm. apply Z.div_mul. lia.
Qed.

(** With two points or more [build_path] returns, with two stations
    accepted at least. *)
Lemma build_path_returns (h : Host) (buf : JS.number) (pts : list vec3) :
  (2 <= length pts)%nat ->
  exists st, build_path h buf pts = Ok st /\ 2 <= s st.
Proof.
  intros Hn.
  destruct (path_loop_returns h buf pts Hn)
    as (st1 & st0 & pathPts & p0 & _ & _ & _ & _ & _ & H0 & _ & Hs).
  unfold build_path. rewrite H0. cbn [rbind]. eexists. split; [reflexivity|]. exact Hs.
Qed.



(** C6: in a path built with one accepted station or more, every index of
    every triangle, caps and bridges alike, is an index of the vertex array;
    and from every sequence of two fitted points or more the builder returns
    such a path. *)
Theorem path_indices_in_range (h : Host) (buf : JS.number) (pts : list vec3) :
  (forall st, build_path h buf pts = Ok st -> 1 <= s st ->
     Forall (face_in_range (Z.of_nat (length (vertices st)))) (faces st)) /\
  ((2 <= length pts)%nat -> exists st, build_path h buf pts = Ok st /\ 1 <= s st).
Proof.
  split.
  - intros st H Hs.
    destruct (build_path_inv h buf pts st H) as (st0 & _ & Hinv & Ev & Es & Ef).
    destruct Hinv as [_ Hv _ Hr]. rewrite Ev, Ef, Hv. rewrite Es in Hs.
    unfold PathSegment.lastFace. apply Forall_app. split; [exact Hr|].
    repeat (apply List.Forall_cons; [unfold face_in_range; simpl; lia|]).
    apply List.Forall_nil.
  - intros Hn. destruct (build_path_returns h buf pts Hn) as (st & E & Hs).
    exists st. split; [exact E | lia].
Qed.

Lemma path_indices_in_range_witness :
  exists st,
    build_path Reference.host 5%float Sample.fitted = Ok st /\
    Forall (face_in_range 12) (faces st).
Proof.
  destruct (path_indices_in_range Reference.host 5%float Sample.fitted) as [Hrange Hret].
  destruct Hret as (st & E & Hs); [simpl; lia|].
  pose proof (Hrange st E Hs) as Hr.
  assert (H12 : length (vertices st) = 12%nat).
  { pose proof E as E'. vm_compute in E'. injection E' as <-. reflexivity. }
  exists st. rewrite H12 in Hr. split; [exact E | exact Hr].
Defined.

(** C10, as stated, fails: a sequence of one fitted point is not empty, and
    its only station is not accepted: the angle of the segment before it reads
    [outputPoints[-1]], and [_processPath] throws. *)
Lemma single_station_throws :
  build_path Reference.host 5%float [V3 0 0 9]%float = Throw TypeError.
Proof. reflexivity. Qed.

(** C10, amended: for every sequence of two fitted points or more the first
    station is accepted: the body of the loop at index 0 ends with one
    station counted, the four vertices of that station's quad and the two
    triangles of the start cap, and the path returned has them as its
    vertices 0 to 3 and its first two triangles. *)
Theorem first_station_accepted (h : Host) (buf : JS.number) (pts : list vec3) :
  (2 <= length pts)%nat ->
  exists st1 st pathPts p0,
    pts !! 0%nat = Some p0 /\
    path_body h buf pts path_init 0 = Ok st1 /\
    s st1 = 1 /\
    vertices st1 = PathSegment.points [] pathPts (at2 p0) /\
    faces st1 = [Tri 0 2 3; Tri 3 1 0] /\
    build_path h buf pts = Ok st /\
    (exists ev, vertices st = vertices st1 ++ ev) /\
    (exists ef, faces st = faces st1 ++ ef).
Proof.
  intros Hn.
  destruct (path_loop_returns h buf pts Hn)
    as (st1 & st0 & pathPts & p0 & Hp0 & H1 & Hv & Hf & Hs & H0 & Hext & _).
  destruct Hext as (_ & [ev Ev] & [ef Ef]).
  unfold build_path. rewrite H0. cbn [rbind].
  eexists st1, _, pathPts, p0.
  repeat split; try eassumption; try reflexivity; cbn [vertices faces].
  - exists ev. exact Ev.
  - unfold PathSegment.lastFace. rewrite Ef, <- app_assoc. eauto.
Qed.

Lemma first_station_accepted_witness :
  exists st,
    build_path Reference.host 5%float Sample.fitted = Ok st /\
    take 2 (faces st) = [Tri 0 2 3; Tri 3 1 0] /\
    map at2 (take 4 (vertices st)) = [0; 0; 9; 9]%float.
Proof.
  destruct (first_station_accepted Reference.host 5%float Sample.fitted)
    as (st1 & st & pathPts & p0 & Hp0 & _ & _ & Hv & Hf & E & [ev Ev] & [ef Ef]);
    [simpl; lia|].
  injection Hp0 as <-.
  exists st. split; [exact E|]. rewrite Ev, Ef, Hv, Hf. split; reflexivity.
Defined.

Local Open Scope float_scope.

(** ** The STL emitter *)

Lemma le_bytes_length (n : nat) (v : Z) : length (DataView.le_bytes n v) = n.
Proof. revert v. induction n as [| n IH]; intros v; simpl; [reflexivity | now rewrite IH]. Qed.

Lemma le_value_bytes (n : nat) (v : Z) :
  DataView.le_value (DataView.le_bytes n v) = (v mod 256 ^ Z.of_nat n)%Z.
Proof.
  revert v. induction n as [| n IH]; intros v.
  - simpl. now rewrite Z.mod_1_r.
  - cbn [DataView.le_bytes DataView.le_value]. rewrite IH.
    rewrite Nat2Z.inj_succ, Z.pow_succ_r by lia.
    rewrite Z.rem_mul_r by lia. lia.
Qed.

Lemma write_inv (buf buf' : list Z) (off : nat) (bs : list Z) :
  DataView.write buf off bs = Ok buf' ->
  (off + length bs <= length buf)%nat /\
  buf' = take off buf ++ bs ++ drop (off + length bs) buf.
Proof.
  unfold DataView.write.
  destruct (Nat.leb_spec (off + length bs) (length buf)); [|discriminate].
  intros E. injection E as <-. auto.
Qed.

Lemma write_Ok (buf : list Z) (off : nat) (bs : list Z) :
  (off + length bs <= length buf)%nat ->
  DataView.write buf off bs = Ok (take off buf ++ bs ++ drop (off + length bs) buf).
Proof.
  intros H. unfold DataView.write.
  destruct (Nat.leb_spec (off + length bs) (length buf)); [reflexivity | lia].
Qed.

Lemma stores_from_refl (off : nat) (buf : list Z) : stores_from off buf buf.
Proof. split; auto. Qed.

Lemma stores_from_trans (off off' : nat) (a b c : list Z) :
  (off <= off')%nat -> stores_from off a b -> stores_from off' b c -> stores_from off a c.
Proof.
  intros Hle [L1 H1] [L2 H2]. split; [congruence|].
  intros i Hi. rewrite H2 by lia. now apply H1.
Qed.

Lemma write_stores (buf buf' : list Z) (off : nat) (bs : list Z) :
  DataView.write buf off bs = Ok buf' -> stores_from off buf buf'.
Proof.
  intros H. apply write_inv in H as [Hle ->]. split.
  - rewrite !length_app, length_take, length_drop. lia.
  - intros i Hi. rewrite lookup_app_l by (rewrite length_take; lia).
    now rewrite lookup_take_lt.
Qed.

Lemma write_returns (buf : list Z) (off : nat) (bs : list Z) :
  (off + length bs <= length buf)%nat ->
  exists buf', DataView.write buf off bs = Ok buf' /\ length buf' = length buf.
Proof.
  intros H. rewrite (write_Ok buf off bs H). eexists. split; [reflexivity|].
  rewrite !length_app, length_take, length_drop. lia.
Qed.

Lemma write_header_length (indices : list nat) :
  forall buf buf', STL.write_header buf indices = Ok buf' -> length buf' = length buf.
Proof.
  induction indices as [| i rest IH]; simpl; intros buf buf' H.
  - now injection H as <-.
  - apply rbind_Ok in H as (b1 & H1 & H).
    apply write_stores in H1 as [L1 _]. rewrite (IH _ _ H). exact L1.
Qed.

Lemma write_header_Ok (indices : list nat) :
  forall buf, Forall (fun i => (i < length buf)%nat) indices ->
              exists buf', STL.write_header buf indices = Ok buf'.
Proof.
  induction indices as [| i rest IH]; simpl; intros buf Hall; [eauto|].
  apply Forall_cons in Hall as [Hi Hrest].
  unfold DataView.setUint8.
  destruct (write_returns buf i (DataView.le_bytes 1 (STL.header_byte i)))
    as (b1 & -> & L1); [simpl; lia|].
  cbn [rbind]. apply IH. now rewrite L1.
Qed.

Lemma write_vec_inv (h : Host) (buf : list Z) (off : nat) (x y z : JS.number)
    (st' : list Z * nat) :
  STL.write_vec h buf off x y z = Ok st' ->
  snd st' = (off + 12)%nat /\ stores_from off buf (fst st').
Proof.
  unfold STL.write_vec, DataView.setFloat32. intros H.
  apply rbind_Ok in H as (b1 & H1 & H).
  apply rbind_Ok in H as (b2 & H2 & H).
  apply rbind_Ok in H as (b3 & H3 & H).
  injection H as <-. simpl. split; [reflexivity|].
  apply write_stores in H1, H2, H3.
  eapply stores_from_trans; [| exact H1 |]. 2: eapply stores_from_trans; [| exact H2 | exact H3].
  all: lia.
Qed.

Lemma write_vec_Ok (h : Host) (buf : list Z) (off : nat) (x y z : JS.number) :
  (off + 12 <= length buf)%nat ->
  exists buf', STL.write_vec h buf off x y z = Ok (buf', (off + 12)%nat) /\
               length buf' = length buf.
Proof.
  intros Hle. unfold STL.write_vec, DataView.setFloat32.
  destruct (write_returns buf off (DataView.le_bytes 4 (float32_bits h x)))
    as (b1 & -> & L1); [rewrite le_bytes_length; lia|].
  cbn [rbind].
  destruct (write_returns b1 (off + 4) (DataView.le_bytes 4 (float32_bits h y)))
    as (b2 & -> & L2); [rewrite le_bytes_length; lia|].
  cbn [rbind].
  destruct (write_returns b2 (off + 8) (DataView.le_bytes 4 (float32_bits h z)))
    as (b3 & -> & L3); [rewrite le_bytes_length; lia|].
  cbn [rbind].
  exists b3. split; [reflexivity | congruence].
Qed.

Lemma write_triangle_inv (h : Host) (points : list vec3) (face : Face)
    (st st' : list Z * nat) :
  STL.write_triangle h points face st = Ok st' ->
  snd st' = (snd st + 50)%nat /\ stores_from (snd st) (fst st) (fst st').
Proof.
  unfold STL.write_triangle, DataView.setUint16. intros H.
  apply rbind_Ok in H as (v0 & _ & H).
  apply rbind_Ok in H as (v1 & _ & H).
  apply rbind_Ok in H as (v2 & _ & H).
  apply rbind_Ok in H as (s1 & H1 & H).
  apply rbind_Ok in H as (s2 & H2 & H).
  apply rbind_Ok in H as (s3 & H3 & H).
  apply rbind_Ok in H as (s4 & H4 & H).
  apply rbind_Ok in H as (b & H5 & H).
  injection H as <-. simpl.
  apply write_vec_inv in H1 as [O1 S1], H2 as [O2 S2], H3 as [O3 S3], H4 as [O4 S4].
  apply write_stores in H5.
  split; [lia|].
  eapply stores_from_trans; [| exact S1 |].
  2: eapply stores_from_trans; [| exact S2 |].
  3: eapply stores_from_trans; [| exact S3 |].
  4: eapply stores_from_trans; [| exact S4 | exact H5].
  all: lia.
Qed.

Lemma write_triangles_inv (h : Host) (points : list vec3) (fs : list Face) :
  forall st st', STL.write_triangles h points fs st = Ok st' ->
                 stores_from (snd st) (fst st) (fst st').
Proof.
  induction fs as [| face rest IH]; simpl; intros st st' H.
  - injection H as <-. apply stores_from_refl.
  - apply rbind_Ok in H as (st1 & H1 & H).
    apply write_triangle_inv in H1 as [O1 S1]. apply IH in H.
    eapply stores_from_trans; [| exact S1 | exact H]. lia.
Qed.

Lemma write_triangle_Ok (h : Host) (points : list vec3) (face : Face)
    (buf : list Z) (off : nat) :
  face_in_range (Z.of_nat (length points)) face ->
  (off + 50 <= length buf)%nat ->
  exists buf', STL.write_triangle h points face (buf, off) = Ok (buf', (off + 50)%nat) /\
               length buf' = length buf.
Proof.
  intros (R0 & R1 & R2) Hle. unfold STL.write_triangle.
  destruct (deref_in_range points (ix0 face) R0) as [v0 ->].
  destruct (deref_in_range points (ix1 face) R1) as [v1 ->].
  destruct (deref_in_range points (ix2 face) R2) as [v2 ->].
  cbn [rbind fst snd].
  match goal with |- context [STL.write_vec h buf off ?x ?y ?z] =>
    destruct (write_vec_Ok h buf off x y z) as (b1 & -> & L1); [lia|] end.
  cbn [rbind fst snd].
  destruct (write_vec_Ok h b1 (off + 12) (at0 v0) (at1 v0) (at2 v0)) as (b2 & -> & L2); [lia|].
  cbn [rbind fst snd].
  destruct (write_vec_Ok h b2 (off + 12 + 12) (at0 v1) (at1 v1) (at2 v1)) as (b3 & -> & L3); [lia|].
  cbn [rbind fst snd].
  destruct (write_vec_Ok h b3 (off + 12 + 12 + 12) (at0 v2) (at1 v2) (at2 v2)) as (b4 & -> & L4); [lia|].
  cbn [rbind fst snd].
  unfold DataView.setUint16.
  destruct (write_returns b4 (off + 12 + 12 + 12 + 12) (DataView.le_bytes 2 0))
    as (b5 & -> & L5); [simpl; lia|].
  cbn [rbind]. exists b5. split; [do 2 f_equal; lia | congruence].
Qed.

Lemma write_triangles_Ok (h : Host) (points : list vec3) (fs : list Face) :
  Forall (face_in_range (Z.of_nat (length points))) fs ->
  forall buf off, (off + 50 * length fs <= length buf)%nat ->
                  exists st', STL.write_triangles h points fs (buf, off) = Ok st'.
Proof.
  induction 1 as [| face rest Hf _ IH]; simpl; intros buf off Hle; [eauto|].
  destruct (write_triangle_Ok h points face buf off Hf) as (b1 & -> & L1); [lia|].
  cbn [rbind]. apply IH. lia.
Qed.

Lemma take4_le_bytes (buf buf' : list Z) (v : Z) :
  DataView.setUint32 buf 80 v = Ok buf' ->
  take 4 (drop 80 buf') = DataView.le_bytes 4 v.
Proof.
  unfold DataView.setUint32. intros H. apply write_inv in H as [Hle ->].
  rewrite le_bytes_length in Hle.
  rewrite drop_app_length' by (rewrite length_take; lia).
  rewrite take_app_length' by (now rewrite le_bytes_length).
  reflexivity.
Qed.

Lemma stores_from_take4 (buf buf' : list Z) :
  stores_from 84 buf buf' -> take 4 (drop 80 buf') = take 4 (drop 80 buf).
Proof.
  intros [L H]. apply list_eq. intros i.
  destruct (Nat.lt_ge_cases i 4) as [Hi | Hi].
  - rewrite !lookup_take_lt, !lookup_drop by lia. apply H. lia.
  - now rewrite !lookup_take_ge by lia.
Qed.

(** C7: for every mesh of [N] triangles, the buffer [generateSTL] returns has
    exactly [84 + 50 * N] bytes, and its four bytes at offset 80 read, as a
    little-endian unsigned integer, [N] (an array length, below [2^32]); and
    it does return one when every index of every triangle is an index of the
    vertex array. *)
Theorem generateSTL_layout (h : Host) (m : ModelCode) :
  (forall buf, STL.generateSTL h m = Ok buf ->
     length buf = (84 + 50 * length (rawFaces m))%nat /\
     ((Z.of_nat (length (rawFaces m)) < 2 ^ 32)%Z ->
      DataView.getUint32 buf 80 = Ok (Z.of_nat (length (rawFaces m))))) /\
  (Forall (face_in_range (Z.of_nat (length (rawPoints m)))) (rawFaces m) ->
   exists buf, STL.generateSTL h m = Ok buf).
Proof.
  unfold STL.generateSTL. split.
  - intros buf H.
    apply rbind_Ok in H as (b1 & H1 & H).
    apply rbind_Ok in H as (b2 & H2 & H).
    apply rbind_Ok in H as (st & H3 & H).
    injection H as <-.
    apply write_header_length in H1.
    unfold DataView.alloc in H1. rewrite repeat_length in H1.
    pose proof (take4_le_bytes _ _ _ H2) as Hcount.
    apply write_stores in H2 as [L2 _].
    apply write_triangles_inv in H3. simpl in H3.
    pose proof (stores_from_take4 _ _ H3) as Hkeep.
    destruct H3 as [L3 _].
    assert (Hlen : length (fst st) = (84 + 50 * length (rawFaces m))%nat) by lia.
    split; [exact Hlen|].
    intros Hn. unfold DataView.getUint32.
    destruct (Nat.leb_spec (80 + 4) (length (fst st))); [|lia].
    rewrite Hkeep, Hcount, le_value_bytes.
    f_equal. apply Z.mod_small. change (256 ^ Z.of_nat 4)%Z with (2 ^ 32)%Z. lia.
  - intros Hvalid.
    destruct (write_header_Ok (List.seq 0 80)
                (DataView.alloc (84 + length (rawFaces m) * 50))) as [b1 H1].
    { apply Forall_forall. intros i Hi. apply elem_of_seq in Hi.
      unfold DataView.alloc. rewrite repeat_length. lia. }
    rewrite H1. cbn [rbind].
    apply write_header_length in H1.
    unfold DataView.alloc in H1. rewrite repeat_length in H1.
    unfold DataView.setUint32.
    destruct (write_returns b1 80 (DataView.le_bytes 4 (Z.of_nat (length (rawFaces m)))))
      as (b2 & -> & L2); [rewrite le_bytes_length; lia|].
    cbn [rbind].
    destruct (write_triangles_Ok h (rawPoints m) (rawFaces m) Hvalid b2 84) as [st ->]; [lia|].
    cbn [rbind]. eauto.
Qed.

Lemma generateSTL_layout_witness :
  exists buf,
    STL.generateSTL Reference.host Sample.mesh = Ok buf /\
    length buf = 134%nat /\
    DataView.getUint32 buf 80 = Ok 1%Z.
Proof.
  destruct (generateSTL_layout Reference.host Sample.mesh) as [Hlayout Hret].
  destruct Hret as [buf E].
  { repeat (apply List.Forall_cons; [unfold face_in_range; simpl; lia|]).
    apply List.Forall_nil. }
  destruct (Hlayout buf E) as [Hlen Hcount].
  exists buf. repeat split; [exact E | exact Hlen | apply Hcount; reflexivity].
Defined.

(** ** What a generation writes *)

Lemma kept_ret {A} (a : A) : store_kept (ret a).
Proof. intros w. reflexivity. Qed.

Lemma kept_throw {A} (e : exn) : store_kept (@throw A e).
Proof. intros w. reflexivity. Qed.

Lemma kept_lift {A} (r : result A) : store_kept (lift r).
Proof. intros w. reflexivity. Qed.

Lemma kept_bind {A B} (m : M A) (k : A -> M B) :
  store_kept m -> (forall a, store_kept (k a)) -> store_kept (bind m k).
Proof.
  intros Hm Hk w. unfold bind. specialize (Hm w).
  destruct (m w) as [[a | e] w1]; simpl in *; [|exact Hm].
  now rewrite Hk.
Qed.

Lemma kept_read_options (r : ref) : store_kept (read_options r).
Proof. intros w. unfold read_options. destruct (store w !! r) as [[|]|]; reflexivity. Qed.

Lemma kept_read_points (r : ref) : store_kept (read_points r).
Proof. intros w. unfold read_points. destruct (store w !! r) as [[|]|]; reflexivity. Qed.

Lemma kept_read_projector : store_kept read_projector.
Proof. intros w. reflexivity. Qed.

Lemma kept_write_projector (p : string) : store_kept (write_projector p).
Proof. intros w. reflexivity. Qed.

Lemma kept_report (cb : bool) (pct : Z) : store_kept (report cb pct).
Proof. intros w. unfold report. destruct cb; reflexivity. Qed.


Ltac kept_step :=
  first
    [ apply kept_ret | apply kept_throw | apply kept_lift
    | apply kept_read_options | apply kept_read_points | apply kept_read_projector
    | apply kept_write_projector | apply kept_report
    | apply kept_bind; [| intros ?]
    | match goal with
      | |- store_kept (if ?b then _ else _) => destruct b
      | |- store_kept (match ?r with Ok _ => _ | Throw _ => _ end) => destruct r
      end ].

Ltac kept := repeat kept_step.








Lemma set_projection_same (o : Options) : set_projection o (projection o) = o.
Proof. now destruct o. Qed.


Lemma run_bind {A B} (m : M A) (k : A -> M B) (w : World) :
  bind m k w = match m w with
               | (Ok a, w1) => k a w1
               | (Throw e, w1) => (Throw e, w1)
               end.
Proof. reflexivity. Qed.


Lemma run_read_options (r : ref) (w : World) (o : Options) :
  store w !! r = Some (OptionsObject o) -> read_options r w = (Ok o, w).
Proof. intros H. unfold read_options. now rewrite H. Qed.

Lemma run_read_points (r : ref) (w : World) (l : list vec3) :
  store w !! r = Some (PointsArray l) -> read_points r w = (Ok l, w).
Proof. intros H. unfold read_points. now rewrite H. Qed.


Lemma scan_nonempty (h : Host) (iv : JS.number) (p0 : vec3) (rest : list vec3) :
  scan h iv (p0 :: rest) = Ok (scan_loop h iv 1 p0 rest (scan_init p0)).
Proof. reflexivity. Qed.


(** ** What a generation throws *)

Lemma te_Ok {A} (a : A) : type_errors (Ok a).
Proof. intros e H. discriminate. Qed.

Lemma te_Throw {A} : type_errors (@Throw A TypeError).
Proof. intros e H. now injection H as <-. Qed.

Lemma te_rbind {A B} (r : result A) (k : A -> result B) :
  type_errors r -> (forall a, type_errors (k a)) -> type_errors (rbind r k).
Proof.
  intros Hr Hk e. destruct r as [a | e0]; simpl.
  - apply Hk.
  - intros H. injection H as <-. now apply Hr.
Qed.

Lemma te_deref {A} (l : list A) (i : Z) : type_errors (deref l i).
Proof.
  unfold deref. destruct (i <? 0)%Z; [apply te_Throw|].
  destruct (l !! Z.to_nat i); [apply te_Ok | apply te_Throw].
Qed.

Lemma te_nonnull {A} (o : option A) : type_errors (nonnull o).
Proof. destruct o; [apply te_Ok | apply te_Throw]. Qed.

Ltac te_step :=
  first
    [ apply te_Ok | apply te_Throw | apply te_deref | apply te_nonnull
    | apply te_rbind; [| intros ?]
    | match goal with
      | |- type_errors (if ?b then _ else _) => destruct b
      | |- type_errors (match ?o with Some _ => _ | None => _ end) => destruct o
      end ].

Lemma te_scan (h : Host) (iv : JS.number) (pts : list vec3) : type_errors (scan h iv pts).
Proof. unfold scan. repeat te_step. Qed.

Lemma te_distFilter_loop (h : Host) (m : JS.number) (rest : list vec3) :
  forall st, type_errors (distFilter_loop h m rest st).
Proof.
  induction rest as [| p rest IH]; intros st; simpl; [apply te_Ok|].
  apply te_rbind; [| exact IH]. unfold distFilter_body. repeat te_step.
Qed.

Lemma te_distFilter (h : Host) (points : list vec3) (m : JS.number) :
  type_errors (_distFilter h points m).
Proof.
  unfold _distFilter. destruct points; [apply te_Throw | apply te_distFilter_loop].
Qed.

Lemma te_segmentAngle (h : Host) (pts : list vec3) (i : Z) :
  type_errors (segmentAngle h pts i).
Proof. unfold segmentAngle, segment_heading. repeat te_step. Qed.

Lemma te_path_body (h : Host) (buf : JS.number) (pts : list vec3) (st : path_state) (i : nat) :
  type_errors (path_body h buf pts st i).
Proof.
  unfold path_body, jointPoints.
  repeat first [apply te_segmentAngle | te_step].
Qed.

Lemma te_path_loop (h : Host) (buf : JS.number) (pts : list vec3) (stations : list nat) :
  forall st, type_errors (path_loop h buf pts stations st).
Proof.
  induction stations as [| i rest IH]; intros st; simpl; [apply te_Ok|].
  apply te_rbind; [apply te_path_body | exact IH].
Qed.

Lemma te_build_path (h : Host) (buf : JS.number) (pts : list vec3) :
  type_errors (build_path h buf pts).
Proof. unfold build_path. repeat first [apply te_path_loop | te_step]. Qed.

Lemma te_forward (h : Host) (definition : string) (xy : JS.number * JS.number) :
  type_errors (forward h definition xy).
Proof. unfold forward. repeat te_step. Qed.

Lemma te_project (h : Host) (p : option string) (v : vec3) :
  type_errors (PointProjector.project h p v).
Proof. unfold PointProjector.project. repeat first [apply te_forward | te_step]. Qed.

Lemma te_smoothing_distance (h : Host) (ctx : Ctx) (o : Options) (st : scan_state) :
  type_errors (smoothing_distance h ctx o st).
Proof. unfold smoothing_distance. repeat first [apply te_forward | te_step]. Qed.

Lemma ro_ret {A} (a : A) : raises_only (ret a).
Proof. intros w e w' H. discriminate. Qed.

Lemma ro_lift {A} (r : result A) : type_errors r -> raises_only (lift r).
Proof. intros Hr w e w' H. injection H as H _. left. now apply Hr. Qed.

Lemma ro_throw_projection {A} : raises_only (@throw A projection_error).
Proof. intros w e w' H. injection H as <- _. now right. Qed.

Lemma ro_bind {A B} (m : M A) (k : A -> M B) :
  raises_only m -> (forall a, raises_only (k a)) -> raises_only (bind m k).
Proof.
  intros Hm Hk w e w'. rewrite run_bind.
  destruct (m w) as [[a | e0] w1] eqn:E.
  - apply Hk.
  - intros H. injection H as <- _. eapply Hm, E.
Qed.

Lemma ro_read_options (r : ref) : raises_only (read_options r).
Proof.
  intros w e w'. unfold read_options.
  destruct (store w !! r) as [[|]|]; intros H; try discriminate;
    injection H as <- _; now left.
Qed.

Lemma ro_read_points (r : ref) : raises_only (read_points r).
Proof.
  intros w e w'. unfold read_points.
  destruct (store w !! r) as [[|]|]; intros H; try discriminate;
    injection H as <- _; now left.
Qed.

Lemma ro_write_projection (r : ref) (p : string) : raises_only (write_projection r p).
Proof.
  intros w e w'. unfold write_projection.
  destruct (store w !! r) as [[|]|]; intros H; try discriminate;
    injection H as <- _; now left.
Qed.

Lemma ro_read_projector : raises_only read_projector.
Proof. intros w e w' H. discriminate. Qed.

Lemma ro_write_projector (p : string) : raises_only (write_projector p).
Proof. intros w e w' H. discriminate. Qed.

Lemma ro_report (cb : bool) (pct : Z) : raises_only (report cb pct).
Proof. intros w e w'. unfold report. destruct cb; discriminate. Qed.

Lemma ro_mapM {A B} (f : A -> M B) (l : list A) :
  (forall a, raises_only (f a)) -> raises_only (mapM f l).
Proof.
  intros Hf. induction l as [| a l IH]; simpl; [apply ro_ret|].
  apply ro_bind; [apply Hf|]. intros b.
  apply ro_bind; [exact IH|]. intros bs. apply ro_ret.
Qed.

Ltac ro_step :=
  first
    [ apply ro_ret | apply ro_throw_projection
    | apply ro_read_options | apply ro_read_points | apply ro_write_projection
    | apply ro_read_projector | apply ro_write_projector | apply ro_report
    | apply ro_lift;
      first [ apply te_deref | apply te_nonnull | apply te_scan | apply te_distFilter
            | apply te_build_path | apply te_project | apply te_smoothing_distance ]
    | apply ro_bind; [| intros ?]
    | match goal with
      | |- raises_only (if ?b then _ else _) => destruct b
      | |- raises_only (match ?r with Ok _ => _ | Throw _ => _ end) => destruct r
      end ].

Lemma ro_projectPoint (h : Host) (ctx : Ctx) (p : vec3) (cdr : JS.number) :
  raises_only (_projectPoint h ctx p cdr).
Proof. unfold _projectPoint. repeat ro_step. Qed.

Lemma ro_project_marker (h : Host) (ctx : Ctx) (st : scan_state) (m : MarkerObj) :
  raises_only (project_marker h ctx st m).
Proof. unfold project_marker. repeat first [apply ro_projectPoint | ro_step]. Qed.

Lemma ro_scanPoints (h : Host) (ctx : Ctx) (pts : ref) : raises_only (_scanPoints h ctx pts).
Proof.
  unfold _scanPoints, configure_projection, init_projector.
  repeat first [ apply ro_mapM; intros; apply ro_project_marker | ro_step ].
Qed.

Lemma ro_projectPoints_loop (h : Host) (ctx : Ctx) (rest : list vec3) :
  forall i cd0 b acc, raises_only (projectPoints_loop h ctx i rest cd0 b acc).
Proof.
  induction rest as [| p rest IH]; intros i cd0 b acc; simpl; [apply ro_ret|].
  apply ro_bind; [apply ro_projectPoint|]. intros point. apply IH.
Qed.

Lemma ro_projectPoints (h : Host) (ctx : Ctx) : raises_only (_projectPoints h ctx).
Proof.
  unfold _projectPoints.
  repeat first [apply ro_projectPoint | apply ro_projectPoints_loop | ro_step].
Qed.

Lemma ro_generate (h : Host) (pts opts : ref) (cb : bool) :
  raises_only (generate h pts opts cb).
Proof.
  unfold generate, _calculateZScale, _processPath.
  repeat first [apply ro_scanPoints | apply ro_projectPoints | ro_step].
Qed.

(** ** The options of the form *)

Lemma validate_ranges (h : Host) (o : Options) :
  in_stated_ranges h o = false -> exists msg, App.validate h o = Some msg.
Proof.
  unfold in_stated_ranges, App.validate.
  destruct (JS.isFinite (vertical o)), (JS.lt (vertical o) 1); simpl; eauto.
  destruct (JS.isFinite (bedx o)), (JS.lt (bedx o) 20); simpl; eauto.
  destruct (JS.isFinite (bedy o)), (JS.lt (bedy o) 20); simpl; eauto.
  destruct (JS.isFinite (buffer o)), (JS.lt (buffer o) 0.5); simpl; eauto.
  destruct (JS.seq (projtype o) 1 && String.eqb (string_trim h (projection o)) "");
    simpl; [eauto | discriminate].
Qed.

Lemma validate_vertical (h : Host) (o : Options) :
  JS.lt (vertical o) 1 = true ->
  App.validate h o = Some "O exagero vertical deve ser maior ou igual a 1."%string.
Proof. intros H. unfold App.validate. rewrite H, orb_true_r. reflexivity. Qed.

(** C3, amended: an option record that violates a stated range, in
    particular one with [vertical < 1], is rejected by the form: its
    [collectOptions] shows one error message and returns [null], and
    [generateModel] ends there, with no artifact and without calling the
    generator.  The generator itself checks no range: the only exceptions it
    raises are a [TypeError] and the unrecognised-projection error. *)
Theorem invalid_options_rejected_by_form (h : Host) (f : App.Form) (pts : ref) (w : World) :
  (in_stated_ranges h (App.read_form h f) = false ->
   exists msg, App.generateModel h (Some pts) f w = (App.Rejected [msg], w)) /\
  (JS.lt (vertical (App.read_form h f)) 1 = true ->
   App.generateModel h (Some pts) f w =
     (App.Rejected ["O exagero vertical deve ser maior ou igual a 1."%string], w)) /\
  (forall p o cb w0 e w1,
     generate h p o cb w0 = (Throw e, w1) -> e = TypeError \/ e = projection_error).
Proof.
  repeat split.
  - intros H. destruct (validate_ranges h _ H) as [msg Hmsg].
    exists msg. unfold App.generateModel, App.collectOptions. now rewrite Hmsg.
  - intros H. unfold App.generateModel, App.collectOptions.
    now rewrite (validate_vertical h _ H).
  - intros p o cb w0 e w1. apply ro_generate.
Qed.

Lemma invalid_options_rejected_by_form_witness :
  App.generateModel Reference.host (Some Sample.points_ref) Sample.form
    (Sample.world (Sample.options_with 1)) =
  (App.Rejected ["O exagero vertical deve ser maior ou igual a 1."%string],
   Sample.world (Sample.options_with 1)).
Proof.
  destruct (invalid_options_rejected_by_form Reference.host Sample.form
              Sample.points_ref (Sample.world (Sample.options_with 1))) as (_ & H & _).
  apply H. vm_compute. reflexivity.
Defined.

(** C3, as stated, fails: given a record whose [vertical] is one half the
    generator reports no error; it returns an artifact, the box of eight
    vertices and twelve triangles of the two-point track. *)
Lemma generate_accepts_low_vertical :
  JS.lt (vertical (Sample.options_with 0.5)) 1 = true /\
  exists a,
    fst (generate Reference.host Sample.points_ref Sample.options_ref true
           (Sample.world (Sample.options_with 0.5))) = Ok a /\
    length (rawPoints (art_code a)) = 8%nat /\
    length (rawFaces (art_code a)) = 12%nat.
Proof.
  split; [reflexivity|]. eexists. split; [vm_compute; reflexivity|].
  split; reflexivity.
Qed.

(** ** The inputs of a generation *)





(** ** The order of binary64 numbers *)

Lemma SFcompare_refl (x : spec_float) : SFnum x -> SFcompare x x = Some Eq.
Proof.
  destruct x as [s | s | | s m e]; simpl; intros H; try contradiction; try reflexivity.
  - now destruct s.
  - rewrite Z.compare_refl.
    change (Pos.compare_cont Eq m m) with (Pos.compare m m).
    rewrite Pos.compare_refl. now destruct s.
Qed.

Lemma SFcompare_antisym (x y : spec_float) :
  SFcompare y x = option_map CompOpp (SFcompare x y).
Proof.
  destruct x as [sx | sx | | sx mx ex], y as [sy | sy | | sy my ey]; simpl;
    try reflexivity; try (now destruct sx); try (now destruct sy);
    try (now destruct sx, sy).
  change (Pos.compare_cont Eq mx my) with (Pos.compare mx my).
  change (Pos.compare_cont Eq my mx) with (Pos.compare my mx).
  rewrite (Z.compare_antisym ex ey), (Pos.compare_antisym mx my).
  destruct sx, sy; simpl; try reflexivity;
    destruct (ex ?= ey)%Z; simpl; try reflexivity;
    destruct (mx ?= my)%positive; reflexivity.
Qed.

Lemma SFleb_trans (x y z : spec_float) :
  SFleb x y = true -> SFleb y z = true -> SFleb x z = true.
Proof.
  unfold SFleb.
  destruct x as [sx | sx | | sx mx ex], y as [sy | sy | | sy my ey],
           z as [sz | sz | | sz mz ez]; simpl;
    try discriminate; try reflexivity;
    try (destruct sx; simpl; try discriminate; try reflexivity);
    try (destruct sy; simpl; try discriminate; try reflexivity);
    try (destruct sz; simpl; try discriminate; try reflexivity).
  all: change (Pos.compare_cont Eq) with Pos.compare.
  all: destruct (Z.compare_spec ex ey), (Z.compare_spec ey ez), (Z.compare_spec ex ez);
       try lia; try discriminate; try reflexivity; subst.
  all: destruct (Pos.compare_spec mx my), (Pos.compare_spec my mz), (Pos.compare_spec mx mz);
       simpl; try lia; try discriminate; try reflexivity.
Qed.

Lemma isNaN_SFnum (x : float) : JS.isNaN x = false -> SFnum (Prim2SF x).
Proof.
  unfold JS.isNaN, PrimFloat.is_nan. rewrite FloatAxioms.eqb_spec. unfold SFeqb.
  destruct (Prim2SF x) as [s | s | | s m e]; simpl; try exact (fun _ => I).
  discriminate.
Qed.

Lemma number_le_refl (x : float) : JS.isNaN x = false -> JS.le x x = true.
Proof.
  intros H. unfold JS.le. rewrite FloatAxioms.leb_spec. unfold SFleb.
  now rewrite SFcompare_refl by now apply isNaN_SFnum.
Qed.

Lemma number_le_trans (x y z : float) : JS.le x y = true -> JS.le y z = true -> JS.le x z = true.
Proof. unfold JS.le. rewrite !FloatAxioms.leb_spec. apply SFleb_trans. Qed.

Lemma number_lt_le (x y : float) : JS.lt x y = true -> JS.le x y = true.
Proof.
  unfold JS.lt, JS.le. rewrite FloatAxioms.ltb_spec, FloatAxioms.leb_spec.
  unfold SFltb, SFleb. now destruct (SFcompare _ _) as [[]|].
Qed.

Lemma SFcompare_num (x y : spec_float) :
  SFnum x -> SFnum y -> exists c, SFcompare x y = Some c.
Proof.
  destruct x as [sx | sx | | sx mx ex], y as [sy | sy | | sy my ey]; simpl;
    intros Hx Hy; try contradiction; eauto.
Qed.

Lemma number_not_lt_le (x y : float) :
  JS.isNaN x = false -> JS.isNaN y = false -> JS.lt x y = false -> JS.le y x = true.
Proof.
  intros Hx Hy. apply isNaN_SFnum in Hx, Hy.
  unfold JS.lt, JS.le. rewrite FloatAxioms.ltb_spec, FloatAxioms.leb_spec.
  unfold SFltb, SFleb. rewrite (SFcompare_antisym (Prim2SF x) (Prim2SF y)).
  destruct (SFcompare_num _ _ Hx Hy) as [c ->]. now destruct c.
Qed.

(** The lower bound after one more value. *)
Lemma min_step (x m : float) :
  JS.isNaN x = false -> JS.isNaN m = false ->
  let m' := if JS.lt x m then x else m in
  JS.isNaN m' = false /\ JS.le m' x = true /\ JS.le m' m = true.
Proof.
  intros Hx Hm. cbv zeta. destruct (JS.lt x m) eqn:E.
  - split; [exact Hx|]. split; [now apply number_le_refl | now apply number_lt_le].
  - split; [exact Hm|]. split; [now apply number_not_lt_le | now apply number_le_refl].
Qed.

Lemma max_step (x m : float) :
  JS.isNaN x = false -> JS.isNaN m = false ->
  let m' := if JS.gt x m then x else m in
  JS.isNaN m' = false /\ JS.le x m' = true /\ JS.le m m' = true.
Proof.
  intros Hx Hm. cbv zeta. unfold JS.gt. fold (JS.lt m x). destruct (JS.lt m x) eqn:E.
  - split; [exact Hx|]. split; [now apply number_le_refl | now apply number_lt_le].
  - split; [exact Hm|]. split; [now apply number_not_lt_le | now apply number_le_refl].
Qed.

Lemma numeric_coords (p : vec3) :
  numeric p = true ->
  JS.isNaN (at0 p) = false /\ JS.isNaN (at1 p) = false /\ JS.isNaN (at2 p) = false.
Proof.
  unfold numeric. intros H.
  apply andb_true_iff in H as [H H2]. apply andb_true_iff in H as [H0 H1].
  apply negb_true_iff in H0, H1, H2. auto.
Qed.

Lemma within_intro (b : Bounds) (p : vec3) :
  JS.le (minx b) (at0 p) = true -> JS.le (at0 p) (maxx b) = true ->
  JS.le (miny b) (at1 p) = true -> JS.le (at1 p) (maxy b) = true ->
  JS.le (minz b) (at2 p) = true -> JS.le (at2 p) (maxz b) = true ->
  within b p = true.
Proof. unfold within. now intros -> -> -> -> -> ->. Qed.

Lemma within_elim (b : Bounds) (p : vec3) :
  within b p = true ->
  JS.le (minx b) (at0 p) = true /\ JS.le (at0 p) (maxx b) = true /\
  JS.le (miny b) (at1 p) = true /\ JS.le (at1 p) (maxy b) = true /\
  JS.le (minz b) (at2 p) = true /\ JS.le (at2 p) (maxz b) = true.
Proof.
  unfold within. intros H.
  repeat (apply andb_true_iff in H as [H ?]). auto 10.
Qed.

Lemma update_numeric (b : Bounds) (q : vec3) :
  numeric_bounds b -> numeric q = true ->
  numeric_bounds (BoundsM.update b q) /\
  within (BoundsM.update b q) q = true /\
  (forall p, within b p = true -> within (BoundsM.update b q) p = true).
Proof.
  intros (N1 & N2 & N3 & N4 & N5 & N6) Hq.
  apply numeric_coords in Hq as (Q0 & Q1 & Q2).
  destruct (min_step _ _ Q0 N1) as (A1 & A2 & A3).
  destruct (max_step _ _ Q0 N2) as (B1 & B2 & B3).
  destruct (min_step _ _ Q1 N3) as (C1 & C2 & C3).
  destruct (max_step _ _ Q1 N4) as (D1 & D2 & D3).
  destruct (min_step _ _ Q2 N5) as (E1 & E2 & E3).
  destruct (max_step _ _ Q2 N6) as (F1 & F2 & F3).
  split; [| split].
  - unfold numeric_bounds, BoundsM.update; cbn [minx maxx miny maxy minz maxz]. auto 10.
  - apply within_intro; unfold BoundsM.update; cbn [minx maxx miny maxy minz maxz];
      assumption.
  - intros p Hp. apply within_elim in Hp as (P1 & P2 & P3 & P4 & P5 & P6).
    apply within_intro; unfold BoundsM.update; cbn [minx maxx miny maxy minz maxz];
      eauto using number_le_trans.
Qed.

Lemma fold_update_encloses (ps : list vec3) :
  forall (b : Bounds) (seen : list vec3),
    numeric_bounds b -> Forall (fun p => numeric p = true) ps ->
    Forall (fun p => within b p = true) seen ->
    Forall (fun p => within (fold_left BoundsM.update ps b) p = true) (seen ++ ps).
Proof.
  induction ps as [| q ps IH]; intros b seen Hb Hps Hseen; cbn [fold_left].
  - now rewrite app_nil_r.
  - apply Forall_cons in Hps as [Hq Hps].
    destruct (update_numeric b q Hb Hq) as (Hb' & Hq' & Hmono).
    replace (seen ++ q :: ps) with ((seen ++ [q]) ++ ps) by now rewrite <- app_assoc.
    apply IH; [exact Hb' | exact Hps |].
    apply Forall_app. split.
    + eapply Forall_impl; [exact Hseen | exact Hmono].
    + now apply Forall_singleton.
Qed.

(** X1: the box that [new Bounds(p0)] becomes after [update] with every
    other point holds all the points, on the three axes, when no coordinate
    is [NaN]. *)
Theorem bounds_enclose (p0 : vec3) (ps : list vec3) :
  Forall (fun p => numeric p = true) (p0 :: ps) ->
  Forall (fun p => within (bounds_of p0 ps) p = true) (p0 :: ps).
Proof.
  intros H. apply Forall_cons in H as [H0 Hps].
  apply (fold_update_encloses ps (BoundsM.new p0) [p0]).
  - apply numeric_coords in H0 as (Q0 & Q1 & Q2).
    unfold numeric_bounds, BoundsM.new; cbn [minx maxx miny maxy minz maxz]. auto 10.
  - exact Hps.
  - apply Forall_singleton. apply numeric_coords in H0 as (Q0 & Q1 & Q2).
    apply within_intro; unfold BoundsM.new; cbn [minx maxx miny maxy minz maxz];
      now apply number_le_refl.
Qed.

Lemma bounds_enclose_witness :
  Forall (fun p => within (bounds_of (V3 1 5 2) [V3 (-3) 7 2; V3 2 (-1) 9]) p = true)
         [V3 1 5 2; V3 (-3) 7 2; V3 2 (-1) 9].
Proof.
  apply (bounds_enclose (V3 1 5 2) [V3 (-3) 7 2; V3 2 (-1) 9]).
  repeat (apply List.Forall_cons; [reflexivity|]). apply List.Forall_nil.
Defined.

(** ** The scan: its arrays *)

Lemma scan_body_fields (h : Host) (iv : JS.number) (i : nat) (prev rawpt : vec3)
    (st : scan_state) :
  let segdist := distVincenty h (at1 (lastpt st)) (at0 (lastpt st)) (at1 rawpt) (at0 rawpt) in
  let st' := scan_body h iv i prev rawpt st in
  lastpt st' = rawpt /\
  rawpoints st' = rawpoints st ++ [rawpt] /\
  rawpointcd st' = rawpointcd st ++ [cd st + segdist] /\
  totaldist st' = totaldist st + segdist /\
  cd st' = cd st + segdist.
Proof.
  cbv zeta. unfold scan_body.
  destruct (JS.gt iv 0 && JS.ge _ iv); cbn; auto.
Qed.

Lemma scan_loop_arrays (h : Host) (iv : JS.number) (rest : list vec3) :
  forall (i : nat) (prev : vec3) (st : scan_state),
    let segs := segment_distances h (lastpt st) rest in
    let st' := scan_loop h iv i prev rest st in
    rawpoints st' = rawpoints st ++ rest /\
    rawpointcd st' = rawpointcd st ++ running_sums (cd st) segs /\
    totaldist st' = fold_left PrimFloat.add segs (totaldist st) /\
    cd st' = fold_left PrimFloat.add segs (cd st).
Proof.
  induction rest as [| p rest IH]; intros i prev st; cbv zeta.
  - cbn. now rewrite !app_nil_r.
  - cbn [scan_loop segment_distances running_sums fold_left].
    destruct (scan_body_fields h iv i prev p st) as (E1 & E2 & E3 & E4 & E5).
    destruct (IH (S i) p (scan_body h iv i prev p st)) as (H1 & H2 & H3 & H4).
    rewrite E1 in H2, H3, H4. rewrite E2 in H1. rewrite E3, E5 in H2.
    rewrite E4 in H3. rewrite E5 in H4.
    rewrite H1, H2, H3, H4, <- !app_assoc. auto.
Qed.

(** X2: the first loop of [_scanPoints] copies the points into
    [rawpoints], stores in [rawpointcd] the running sums of the lengths of
    the segments, one per segment (so that [rawpointcd[k]] belongs to point
    [k + 1], and the array has no entry at the index of the last point: a
    read there gives no number, [NaN] in arithmetic), and ends with [totaldist] and [cd] both equal
    to the sum of the lengths, added in order from [0]. *)
Theorem scan_arrays (h : Host) (iv : JS.number) (p0 : vec3) (rest : list vec3) :
  exists st,
    scan h iv (p0 :: rest) = Ok st /\
    rawpoints st = p0 :: rest /\
    rawpointcd st = running_sums 0 (segment_distances h p0 rest) /\
    number_at (rawpointcd st) (Z.of_nat (length rest)) = PrimFloat.nan /\
    totaldist st = fold_left PrimFloat.add (segment_distances h p0 rest) 0 /\
    cd st = totaldist st.
Proof.
  exists (scan_loop h iv 1 p0 rest (scan_init p0)). split; [reflexivity|].
  destruct (scan_loop_arrays h iv rest 1 p0 (scan_init p0)) as (H1 & H2 & H3 & H4).
  cbn [scan_init rawpoints rawpointcd totaldist cd lastpt app] in H1, H2, H3, H4.
  split; [exact H1|]. split; [exact H2|]. split; [| split; [exact H3 | now rewrite H3, H4]].
  unfold number_at. destruct (Z.ltb_spec (Z.of_nat (length rest)) 0); [reflexivity|].
  rewrite Nat2Z.id, H2.
  assert (Hlen : forall ds acc, length (running_sums acc ds) = length ds).
  { induction ds as [| d0 ds IHd]; intros acc; simpl; [reflexivity | now rewrite IHd]. }
  assert (Hseg : forall l q, length (segment_distances h q l) = length l).
  { induction l as [| a l IHl]; intros q; simpl; [reflexivity | now rewrite IHl]. }
  rewrite lookup_ge_None_2; [reflexivity|]. rewrite Hlen, Hseg. apply Nat.le_refl.
Qed.

(** ** The scan: its markers *)

Lemma scan_body_markers (h : Host) (iv : JS.number) (i : nat) (prev rawpt : vec3)
    (st : scan_state) :
  markerObjs (scan_body h iv i prev rawpt st) = markerObjs st \/
  exists m, mk_seg m = i /\
            markerObjs (scan_body h iv i prev rawpt st) = markerObjs st ++ [m].
Proof.
  unfold scan_body. destruct (JS.gt iv 0 && JS.ge _ iv); cbn [markerObjs]; [|now left].
  right. eexists. split; [|reflexivity]. reflexivity.
Qed.

Lemma scan_loop_segs (h : Host) (iv : JS.number) (rest : list vec3) :
  forall (i : nat) (prev : vec3) (st : scan_state),
  exists new,
    markerObjs (scan_loop h iv i prev rest st) = markerObjs st ++ new /\
    StronglySorted lt (map mk_seg new) /\
    Forall (fun m => (i <= mk_seg m < i + length rest)%nat) new /\
    (length new <= length rest)%nat.
Proof.
  induction rest as [| p rest IH]; intros i prev st.
  - exists []. cbn. rewrite app_nil_r. repeat split; constructor.
  - cbn [scan_loop length].
    destruct (IH (S i) p (scan_body h iv i prev p st)) as (new & E & Hs & Hr & Hl).
    destruct (scan_body_markers h iv i prev p st) as [E0 | (m & Em & E0)]; rewrite E0 in E.
    + exists new. split; [exact E|]. split; [exact Hs|]. split; [|lia].
      eapply Forall_impl; [exact Hr|]. intros m Hm. simpl in Hm. lia.
    + exists (m :: new). split; [now rewrite E, <- app_assoc|].
      split; [| split; [|simpl; lia]].
      * cbn [map]. constructor; [exact Hs|].
        apply Forall_map. eapply Forall_impl; [exact Hr|].
        intros m' Hm'. simpl in Hm'. simpl. lia.
      * constructor; [lia|].
        eapply Forall_impl; [exact Hr|]. intros m' Hm'. simpl in Hm'. lia.
Qed.

(** X3: the markers the scan records are numbered by the segment that
    carries them: strictly increasing indices, each the index of a point
    after the first, so that there is one marker per segment at most. *)
Theorem scan_marker_segments (h : Host) (iv : JS.number) (p0 : vec3) (rest : list vec3) :
  exists st,
    scan h iv (p0 :: rest) = Ok st /\
    StronglySorted lt (map mk_seg (markerObjs st)) /\
    Forall (fun m => (1 <= mk_seg m <= length rest)%nat) (markerObjs st) /\
    (length (markerObjs st) <= length rest)%nat.
Proof.
  exists (scan_loop h iv 1 p0 rest (scan_init p0)). split; [reflexivity|].
  destruct (scan_loop_segs h iv rest 1 p0 (scan_init p0)) as (new & E & Hs & Hr & Hl).
  cbn [scan_init markerObjs app] in E. rewrite E.
  split; [exact Hs|]. split; [|exact Hl].
  eapply Forall_impl; [exact Hr|]. intros m Hm. simpl in Hm. lia.
Qed.

Lemma scan_loop_no_markers (h : Host) (iv : JS.number) (rest : list vec3) :
  JS.gt iv 0 = false ->
  forall (i : nat) (prev : vec3) (st : scan_state),
    markerObjs (scan_loop h iv i prev rest st) = markerObjs st.
Proof.
  intros Hiv. induction rest as [| p rest IH]; intros i prev st; [reflexivity|].
  cbn [scan_loop]. rewrite IH. unfold scan_body. rewrite Hiv. reflexivity.
Qed.

(** X4: a marker interval that is not above [0] (zero, negative or [NaN])
    disables the markers: the scan records none, whatever the track. *)
Theorem scan_without_interval (h : Host) (iv : JS.number) (p0 : vec3) (rest : list vec3) :
  JS.gt iv 0 = false ->
  exists st, scan h iv (p0 :: rest) = Ok st /\ markerObjs st = [].
Proof.
  intros Hiv. exists (scan_loop h iv 1 p0 rest (scan_init p0)). split; [reflexivity|].
  now rewrite scan_loop_no_markers.
Qed.

Lemma scan_without_interval_witness :
  exists st, scan Reference.host PrimFloat.nan Sample.track = Ok st /\ markerObjs st = [].
Proof. apply (scan_without_interval Reference.host PrimFloat.nan); reflexivity. Defined.

(** ** The scan: its geographic box *)

Lemma located_coords (p : vec3) :
  located p = true -> JS.isNaN (at0 p) = false /\ JS.isNaN (at1 p) = false.
Proof.
  unfold located. intros H. apply andb_true_iff in H as [H0 H1].
  apply negb_true_iff in H0, H1. auto.
Qed.

Lemma in_geo_box_intro (st : scan_state) (p : vec3) :
  JS.le (minLon st) (at0 p) = true -> JS.le (at0 p) (maxLon st) = true ->
  JS.le (minLat st) (at1 p) = true -> JS.le (at1 p) (maxLat st) = true ->
  in_geo_box st p = true.
Proof. unfold in_geo_box. now intros -> -> -> ->. Qed.

Lemma in_geo_box_elim (st : scan_state) (p : vec3) :
  in_geo_box st p = true ->
  JS.le (minLon st) (at0 p) = true /\ JS.le (at0 p) (maxLon st) = true /\
  JS.le (minLat st) (at1 p) = true /\ JS.le (at1 p) (maxLat st) = true.
Proof.
  unfold in_geo_box. intros H. repeat (apply andb_true_iff in H as [H ?]). auto.
Qed.

Lemma scan_body_box (h : Host) (iv : JS.number) (i : nat) (prev q : vec3) (st : scan_state) :
  let st' := scan_body h iv i prev q st in
  minLon st' = (if JS.lt (at0 q) (minLon st) then at0 q else minLon st) /\
  maxLon st' = (if JS.gt (at0 q) (maxLon st) then at0 q else maxLon st) /\
  minLat st' = (if JS.lt (at1 q) (minLat st) then at1 q else minLat st) /\
  maxLat st' = (if JS.gt (at1 q) (maxLat st) then at1 q else maxLat st).
Proof.
  cbv zeta. unfold scan_body. destruct (JS.gt iv 0 && JS.ge _ iv); cbn; auto.
Qed.

Lemma scan_body_geo (h : Host) (iv : JS.number) (i : nat) (prev q : vec3) (st : scan_state) :
  numeric_geo_box st -> located q = true ->
  numeric_geo_box (scan_body h iv i prev q st) /\
  in_geo_box (scan_body h iv i prev q st) q = true /\
  (forall p, in_geo_box st p = true -> in_geo_box (scan_body h iv i prev q st) p = true).
Proof.
  intros (N1 & N2 & N3 & N4) Hq. apply located_coords in Hq as (Q0 & Q1).
  destruct (scan_body_box h iv i prev q st) as (E1 & E2 & E3 & E4).
  destruct (min_step _ _ Q0 N1) as (A1 & A2 & A3).
  destruct (max_step _ _ Q0 N2) as (B1 & B2 & B3).
  destruct (min_step _ _ Q1 N3) as (C1 & C2 & C3).
  destruct (max_step _ _ Q1 N4) as (D1 & D2 & D3).
  split; [| split].
  - unfold numeric_geo_box. now rewrite E1, E2, E3, E4.
  - apply in_geo_box_intro; rewrite ?E1, ?E2, ?E3, ?E4; assumption.
  - intros p Hp. apply in_geo_box_elim in Hp as (P1 & P2 & P3 & P4).
    apply in_geo_box_intro; rewrite ?E1, ?E2, ?E3, ?E4; eauto using number_le_trans.
Qed.

Lemma scan_loop_geo (h : Host) (iv : JS.number) (rest : list vec3) :
  forall (i : nat) (prev : vec3) (st : scan_state) (seen : list vec3),
    numeric_geo_box st -> Forall (fun p => located p = true) rest ->
    Forall (fun p => in_geo_box st p = true) seen ->
    Forall (fun p => in_geo_box (scan_loop h iv i prev rest st) p = true) (seen ++ rest).
Proof.
  induction rest as [| q rest IH]; intros i prev st seen Hb Hrest Hseen; cbn [scan_loop].
  - now rewrite app_nil_r.
  - apply Forall_cons in Hrest as [Hq Hrest].
    destruct (scan_body_geo h iv i prev q st Hb Hq) as (Hb' & Hq' & Hmono).
    replace (seen ++ q :: rest) with ((seen ++ [q]) ++ rest) by now rewrite <- app_assoc.
    apply IH; [exact Hb' | exact Hrest |].
    apply Forall_app. split.
    + eapply Forall_impl; [exact Hseen | exact Hmono].
    + now apply Forall_singleton.
Qed.

(** X5: the geographic box the scan computes ([minLon], [maxLon],
    [minLat], [maxLat]) holds every point of a track whose longitudes and
    latitudes are numbers. *)
Theorem scan_geo_box (h : Host) (iv : JS.number) (p0 : vec3) (rest : list vec3) :
  Forall (fun p => located p = true) (p0 :: rest) ->
  exists st,
    scan h iv (p0 :: rest) = Ok st /\
    Forall (fun p => in_geo_box st p = true) (p0 :: rest).
Proof.
  intros H. apply Forall_cons in H as [H0 Hrest].
  exists (scan_loop h iv 1 p0 rest (scan_init p0)). split; [reflexivity|].
  apply located_coords in H0 as (Q0 & Q1).
  apply (scan_loop_geo h iv rest 1 p0 (scan_init p0) [p0]).
  - unfold numeric_geo_box. cbn. auto.
  - exact Hrest.
  - apply Forall_singleton. apply in_geo_box_intro; cbn; now apply number_le_refl.
Qed.

Lemma scan_geo_box_witness :
  exists st,
    scan Reference.host 0 [V3 2 48 0; V3 (-1) 50 0; V3 3 47 0] = Ok st /\
    Forall (fun p => in_geo_box st p = true) [V3 2 48 0; V3 (-1) 50 0; V3 3 47 0].
Proof.
  apply (scan_geo_box Reference.host 0 (V3 2 48 0) [V3 (-1) 50 0; V3 3 47 0]).
  repeat (apply List.Forall_cons; [reflexivity|]). apply List.Forall_nil.
Defined.

(** ** The distance filter: its arrays *)

Lemma distFilter_loop_arrays (h : Host) (m : JS.number) (rest : list vec3) :
  forall (front : list vec3) (last : vec3) (st : filter_state),
    filteredPts st = front ++ [last] -> pre st = length front ->
    exists st',
      distFilter_loop h m rest st = Ok st' /\
      filteredPts st' = front ++ last :: kept_after h m last rest /\
      pre st' = (length front + length (kept_after h m last rest))%nat /\
      filteredDst st' =
        filteredDst st ++ adjacent_dists h (last :: kept_after h m last rest) /\
      ModelGenerator.total st' =
        fold_left PrimFloat.add (adjacent_dists h (last :: kept_after h m last rest))
                  (ModelGenerator.total st).
Proof.
  induction rest as [| p rest IH]; intros front last st Hf Hp.
  - exists st. cbn. rewrite app_nil_r, Nat.add_0_r. auto.
  - cbn [distFilter_loop kept_after]. unfold distFilter_body.
    rewrite (deref_Ok (filteredPts st) (pre st) last).
    2:{ rewrite Hf, Hp. rewrite lookup_app_r by (apply Nat.le_refl).
        now rewrite Nat.sub_diag. }
    cbn [rbind]. fold (filter_dist h p last).
    destruct (JS.seq m 0 || JS.ge (filter_dist h p last) m); cbn [rbind].
    + destruct (IH (front ++ [last]) p
                  {| filteredPts := filteredPts st ++ [p];
                     filteredDst := filteredDst st ++ [filter_dist h p last];
                     ModelGenerator.total :=
                       (ModelGenerator.total st + filter_dist h p last)%float;
                     pre := pre st + 1 |}) as (st' & H1 & H2 & H3 & H4 & H5).
      * simpl. now rewrite Hf.
      * simpl. rewrite Hp, length_app. simpl. lia.
      * exists st'. split; [exact H1|].
        cbn [filteredDst ModelGenerator.total] in H4, H5.
        rewrite H2, H3, H4, H5, <- !app_assoc, length_app. cbn.
        repeat split; lia.
    + apply IH; assumption.
Qed.

Lemma kept_after_sublist (h : Host) (m : JS.number) (rest : list vec3) :
  forall last, sublist (kept_after h m last rest) rest.
Proof.
  induction rest as [| p rest IH]; intros last; cbn [kept_after]; [constructor|].
  destruct (JS.seq m 0 || JS.ge (filter_dist h p last) m).
  - apply sublist_skip, IH.
  - apply sublist_cons, IH.
Qed.

Lemma adjacent_dists_length (h : Host) (l : list vec3) :
  length (adjacent_dists h l) = (length l - 1)%nat.
Proof.
  induction l as [| a [| b l] IH]; [reflexivity | reflexivity |].
  cbn [adjacent_dists length] in *. rewrite IH. lia.
Qed.

(** X6: the three values [_distFilter] leaves in the context, from every
    non-empty array: [ll] is the first point followed by points picked in
    order from the rest, [d] holds the distance of each kept point after the
    first to the kept point before it (one entry fewer than [ll]), and
    [smoothTotal] is the sum of [d], added in order from [0]. *)
Theorem distFilter_arrays (h : Host) (p0 : vec3) (rest : list vec3) (m : JS.number) :
  exists f kept,
    _distFilter h (p0 :: rest) m = Ok f /\
    filteredPts f = p0 :: kept /\ sublist kept rest /\
    filteredDst f = adjacent_dists h (filteredPts f) /\
    (length (filteredDst f) + 1 = length (filteredPts f))%nat /\
    ModelGenerator.total f = fold_left PrimFloat.add (filteredDst f) 0.
Proof.
  destruct (distFilter_loop_arrays h m rest [] p0
              {| filteredPts := [p0]; filteredDst := [];
                 ModelGenerator.total := 0; pre := 0 |})
    as (f & H1 & H2 & H3 & H4 & H5); [reflexivity | reflexivity |].
  cbn [app filteredDst ModelGenerator.total] in H2, H4, H5.
  exists f, (kept_after h m p0 rest). split; [exact H1|]. split; [exact H2|].
  split; [apply kept_after_sublist|]. rewrite H4, H5, H2.
  split; [reflexivity|]. split; [|reflexivity].
  rewrite adjacent_dists_length. simpl. lia.
Qed.

Lemma isNaN_spec (x : float) : JS.isNaN x = true -> Prim2SF x = S754_nan.
Proof.
  unfold JS.isNaN, PrimFloat.is_nan. rewrite FloatAxioms.eqb_spec. unfold SFeqb.
  intros H. apply negb_true_iff in H.
  destruct (Prim2SF x) as [s | s | | s mm e] eqn:E; [| | reflexivity |].
  - now rewrite SFcompare_refl in H.
  - now rewrite SFcompare_refl in H.
  - now rewrite SFcompare_refl in H.
Qed.

Lemma kept_after_nan (h : Host) (m : JS.number) (rest : list vec3) :
  JS.isNaN m = true -> forall last, kept_after h m last rest = [].
Proof.
  intros Hm. apply isNaN_spec in Hm.
  induction rest as [| p rest IH]; intros last; cbn [kept_after]; [reflexivity|].
  replace (JS.seq m 0) with false
    by (unfold JS.seq; now rewrite FloatAxioms.eqb_spec, Hm).
  replace (JS.ge (filter_dist h p last) m) with false.
  - apply IH.
  - unfold JS.ge. rewrite FloatAxioms.leb_spec, Hm. reflexivity.
Qed.

(** X7: a minimum distance that is [NaN] makes the filter drop every point
    but the first: no distance is at least [NaN], and [NaN] is not [0]. *)
Theorem distFilter_nan (h : Host) (p0 : vec3) (rest : list vec3) (m : JS.number) :
  JS.isNaN m = true ->
  exists f,
    _distFilter h (p0 :: rest) m = Ok f /\
    filteredPts f = [p0] /\ filteredDst f = [] /\ ModelGenerator.total f = 0.
Proof.
  intros Hm.
  destruct (distFilter_loop_arrays h m rest [] p0
              {| filteredPts := [p0]; filteredDst := [];
                 ModelGenerator.total := 0; pre := 0 |})
    as (f & H1 & H2 & H3 & H4 & H5); [reflexivity | reflexivity |].
  rewrite (kept_after_nan h m rest Hm) in H2, H4, H5.
  exists f. split; [exact H1|]. auto.
Qed.

Lemma distFilter_nan_witness :
  exists f,
    _distFilter Reference.host [V3 0 0 10; V3 0.0001 0 10; V3 0.001 0 10] PrimFloat.nan = Ok f /\
    filteredPts f = [V3 0 0 10] /\ filteredDst f = [] /\ ModelGenerator.total f = 0.
Proof.
  apply (distFilter_nan Reference.host (V3 0 0 10) [V3 0.0001 0 10; V3 0.001 0 10]).
  reflexivity.
Defined.

(** ** Running the phases *)

Lemma bind_Ok {A B} (m : M A) (k : A -> M B) (w w' : World) (b : B) :
  bind m k w = (Ok b, w') -> exists a w1, m w = (Ok a, w1) /\ k a w1 = (Ok b, w').
Proof.
  rewrite run_bind. destruct (m w) as [[a | e] w1]; [eauto | discriminate].
Qed.

Lemma read_options_Ok (r : ref) (w w' : World) (o : Options) :
  read_options r w = (Ok o, w') -> w' = w /\ store w !! r = Some (OptionsObject o).
Proof.
  unfold read_options. destruct (store w !! r) as [[l | o0] |]; intros E;
    try discriminate. now injection E as <- <-.
Qed.

Lemma read_points_Ok (r : ref) (w w' : World) (l : list vec3) :
  read_points r w = (Ok l, w') -> w' = w /\ store w !! r = Some (PointsArray l).
Proof.
  unfold read_points. destruct (store w !! r) as [[l0 | o0] |]; intros E;
    try discriminate. now injection E as <- <-.
Qed.

Lemma lift_Ok {A} (r : result A) (w w' : World) (a : A) :
  lift r w = (Ok a, w') -> w' = w /\ r = Ok a.
Proof. unfold lift. intros E. now injection E as -> <-. Qed.

Lemma wk_ret {A} (a : A) : world_kept (ret a).
Proof. intros w r w' E. now injection E as _ <-. Qed.

Lemma wk_lift {A} (r : result A) : world_kept (lift r).
Proof. intros w r0 w' E. now injection E as _ <-. Qed.

Lemma wk_bind {A B} (m : M A) (k : A -> M B) :
  world_kept m -> (forall a, world_kept (k a)) -> world_kept (bind m k).
Proof.
  intros Hm Hk w r w'. rewrite run_bind.
  destruct (m w) as [[a | e] w1] eqn:E; apply Hm in E; subst w1.
  - apply Hk.
  - intros E'. now injection E' as _ <-.
Qed.

Lemma wk_read_options (r : ref) : world_kept (read_options r).
Proof.
  intros w r0 w'. unfold read_options.
  destruct (store w !! r) as [[|]|]; intros E; now injection E as _ <-.
Qed.

Lemma wk_read_points (r : ref) : world_kept (read_points r).
Proof.
  intros w r0 w'. unfold read_points.
  destruct (store w !! r) as [[|]|]; intros E; now injection E as _ <-.
Qed.

Lemma wk_read_projector : world_kept read_projector.
Proof. intros w r w' E. now injection E as _ <-. Qed.

Ltac wk_step :=
  first
    [ apply wk_ret | apply wk_lift | apply wk_read_options | apply wk_read_points
    | apply wk_read_projector
    | apply wk_bind; [| intros ?]
    | match goal with
      | |- world_kept (if ?b then _ else _) => destruct b
      end ].

Lemma wk_projectPoint (h : Host) (ctx : Ctx) (p : vec3) (cdr : JS.number) :
  world_kept (_projectPoint h ctx p cdr).
Proof. unfold _projectPoint. repeat wk_step. Qed.

Lemma wk_project_marker (h : Host) (ctx : Ctx) (st : scan_state) (m : MarkerObj) :
  world_kept (project_marker h ctx st m).
Proof. unfold project_marker. repeat first [apply wk_projectPoint | wk_step]. Qed.

Lemma wk_mapM {A B} (f : A -> M B) (l : list A) :
  (forall a, world_kept (f a)) -> world_kept (mapM f l).
Proof.
  intros Hf. induction l as [| a l IH]; simpl; [apply wk_ret|].
  apply wk_bind; [apply Hf|]. intros b.
  apply wk_bind; [exact IH|]. intros bs. apply wk_ret.
Qed.

Lemma wk_projectPoints_loop (h : Host) (ctx : Ctx) (rest : list vec3) :
  forall i cd0 b acc, world_kept (projectPoints_loop h ctx i rest cd0 b acc).
Proof.
  induction rest as [| p rest IH]; intros i cd0 b acc; simpl; [apply wk_ret|].
  apply wk_bind; [apply wk_projectPoint|]. intros point. apply IH.
Qed.

Lemma wk_projectPoints (h : Host) (ctx : Ctx) : world_kept (_projectPoints h ctx).
Proof.
  unfold _projectPoints.
  repeat first [apply wk_projectPoint | apply wk_projectPoints_loop | wk_step].
Qed.

Lemma wk_calculateZScale (h : Host) (ctx : Ctx) : world_kept (_calculateZScale h ctx).
Proof. unfold _calculateZScale. repeat wk_step. Qed.

Lemma wk_processPath (h : Host) (ctx : Ctx) : world_kept (_processPath h ctx).
Proof. unfold _processPath. repeat wk_step. Qed.

Lemma mapM_Ok_length {A B} (f : A -> M B) (l : list A) :
  forall w w' bs, mapM f l w = (Ok bs, w') -> length bs = length l.
Proof.
  induction l as [| a l IH]; simpl; intros w w' bs E.
  - now injection E as <- _.
  - apply bind_Ok in E as (b & w1 & _ & E).
    apply bind_Ok in E as (bs0 & w2 & E2 & E).
    injection E as <- _. simpl. f_equal. eapply IH, E2.
Qed.

(** ** Single points *)

Lemma projectPoint_Ok (h : Host) (ctx : Ctx) (p : vec3) (cdr : JS.number)
    (w w' : World) (q : vec3) :
  _projectPoint h ctx p cdr w = (Ok q, w') -> w' = w /\ at2 q = at2 p.
Proof.
  intros E. split; [eapply wk_projectPoint, E|].
  unfold _projectPoint in E. apply bind_Ok in E as (o & w1 & _ & E).
  destruct (JS.seq (shapetype o) SHAPE_LINEAR); [now injection E as <- _|].
  destruct (JS.seq (shapetype o) SHAPE_RING); [now injection E as <- _|].
  apply bind_Ok in E as (pr & w2 & _ & E). apply lift_Ok in E as [_ E].
  unfold PointProjector.project in E. destruct pr; [|discriminate].
  apply rbind_Ok in E as (xy & _ & E). now injection E as <-.
Qed.



(** ** Bulk projection *)

Lemma projectPoints_loop_Ok (h : Host) (ctx : Ctx) (rest : list vec3) :
  forall i cd0 b acc w w' r,
    projectPoints_loop h ctx i rest cd0 b acc w = (Ok r, w') ->
    w' = w /\
    exists qs,
      snd r = acc ++ qs /\ length qs = length rest /\
      map at2 qs = map at2 rest /\ fst r = fold_left BoundsM.update qs b.
Proof.
  induction rest as [| p rest IH]; intros i cd0 b acc w w' r E.
  - injection E as <- <-. split; [reflexivity|]. exists []. cbn.
    now rewrite app_nil_r.
  - cbn [projectPoints_loop] in E. apply bind_Ok in E as (q & w1 & E1 & E).
    apply projectPoint_Ok in E1 as [-> Hz].
    apply IH in E as [-> (qs & H1 & H2 & H3 & H4)].
    split; [reflexivity|]. exists (q :: qs). cbn.
    rewrite H1, H2, H3, H4, Hz, <- app_assoc. auto.
Qed.

Lemma projectPoints_Ok (h : Host) (ctx ctx' : Ctx) (w w' : World) :
  _projectPoints h ctx w = (Ok ctx', w') ->
  w' = w /\
  exists o q0 qs,
    store w !! options ctx = Some (OptionsObject o) /\
    projectedPoints ctx' = projectedPoints ctx ++ q0 :: qs /\
    length (q0 :: qs) = length (ll ctx) /\
    map at2 (q0 :: qs) = map at2 (ll ctx) /\
    bounds ctx' =
      Some (if regionfit o
            then {| minx := region_minx o; maxx := region_maxx o;
                    miny := region_miny o; maxy := region_maxy o;
                    minz := minz (bounds_of q0 qs); maxz := maxz (bounds_of q0 qs) |}
            else bounds_of q0 qs) /\
    (exists off, offset ctx' = Some off) /\
    (exists sc, scale ctx' = Some sc) /\
    options ctx' = options ctx /\ markers ctx' = markers ctx /\
    distance ctx' = distance ctx /\ bed ctx' = bed ctx /\ ll ctx' = ll ctx.
Proof.
  intros E. split; [eapply wk_projectPoints, E|].
  unfold _projectPoints in E.
  apply bind_Ok in E as (p0 & w1 & E1 & E). apply lift_Ok in E1 as [-> E1].
  apply bind_Ok in E as (xyz & w1 & E2 & E). apply projectPoint_Ok in E2 as [-> Hz].
  apply bind_Ok in E as (r & w1 & E3 & E).
  apply projectPoints_loop_Ok in E3 as [-> (qs & H1 & H2 & H3 & H4)].
  apply bind_Ok in E as (o & w1 & E4 & E). apply read_options_Ok in E4 as [-> Ho].
  injection E as <- _.
  destruct (ll ctx) as [| p0' rest]; [discriminate|].
  unfold deref in E1. cbn in E1. injection E1 as ->.
  exists o, xyz, qs. cbn [projectedPoints bounds offset scale options markers distance
                          bed ll tail] in *.
  split; [exact Ho|]. split; [now rewrite H1, <- app_assoc|].
  split; [cbn; now rewrite H2|]. split; [cbn; now rewrite H3, Hz|].
  unfold bounds_of. rewrite <- H4.
  split; [reflexivity|]. split; [eauto|]. split; [eauto|]. auto.
Qed.

(** X9: [_projectPoints] projects every filtered point, in order: from a
    context with no projected point yet it leaves as many projected points
    as [ll] has points, with the same elevations, and writes nothing outside
    the context.  The box it stores is the one [Bounds.update] grows over
    the projected points, with its east and north sides replaced by the
    region of the options when [regionfit] is set. *)
Theorem projectPoints_arrays (h : Host) (ctx ctx' : Ctx) (w w' : World) :
  projectedPoints ctx = [] ->
  _projectPoints h ctx w = (Ok ctx', w') ->
  w' = w /\
  length (projectedPoints ctx') = length (ll ctx) /\
  map at2 (projectedPoints ctx') = map at2 (ll ctx) /\
  exists o q0 qs,
    store w !! options ctx = Some (OptionsObject o) /\
    projectedPoints ctx' = q0 :: qs /\
    (regionfit o = false -> bounds ctx' = Some (bounds_of q0 qs)) /\
    (regionfit o = true ->
     bounds ctx' =
       Some {| minx := region_minx o; maxx := region_maxx o;
               miny := region_miny o; maxy := region_maxy o;
               minz := minz (bounds_of q0 qs); maxz := maxz (bounds_of q0 qs) |}).
Proof.
  intros Hnil E.
  apply projectPoints_Ok in E
    as [-> (o & q0 & qs & Ho & Hp & Hl & Hz & Hb & _)].
  rewrite Hnil in Hp. cbn [app] in Hp. rewrite Hp.
  split; [reflexivity|]. split; [exact Hl|]. split; [exact Hz|].
  exists o, q0, qs. split; [exact Ho|]. split; [reflexivity|].
  split; intros Hr; now rewrite Hr in Hb.
Qed.

Lemma projectPoints_arrays_witness :
  exists ctx',
    fst (_projectPoints Reference.host Phase.scanned (Sample.world (Sample.options_with 1)))
      = Ok ctx' /\
    length (projectedPoints ctx') = 3%nat /\
    map at2 (projectedPoints ctx') = [10; 12; 11].
Proof.
  destruct (_projectPoints Reference.host Phase.scanned
              (Sample.world (Sample.options_with 1))) as [[ctx' | e] w'] eqn:E.
  - exists ctx'. split; [reflexivity|].
    destruct (projectPoints_arrays Reference.host Phase.scanned ctx'
                (Sample.world (Sample.options_with 1)) w' eq_refl E) as (_ & Hl & Hz & _).
    split; [exact Hl | exact Hz].
  - vm_compute in E. discriminate.
Defined.

(** ** The scan phase *)

Lemma configure_projection_run (h : Host) (ctx : Ctx) (st : scan_state) (w : World)
    (o : Options) :
  store w !! options ctx = Some (OptionsObject o) ->
  configure_projection h ctx st w =
    (Ok tt,
     {| store := <[options ctx := OptionsObject (set_projection o (chosen_projection h o st))]>
                   (store w);
        projector := projector w; progress := progress w |}).
Proof.
  intros Ho. unfold configure_projection, chosen_projection.
  rewrite run_bind, (run_read_options _ _ _ Ho).
  destruct (JS.seq (projtype o) PROJ_UTM).
  - unfold write_projection. now rewrite Ho.
  - destruct (JS.seq (projtype o) PROJ_GOOGLE).
    + unfold write_projection. now rewrite Ho.
    + rewrite set_projection_same, insert_id by exact Ho. now destruct w.
Qed.

Lemma scanPoints_Ok (h : Host) (ctx ctx' : Ctx) (pts : ref) (w w' : World) :
  _scanPoints h ctx pts w = (Ok ctx', w') ->
  exists l o st ms f,
    store w !! pts = Some (PointsArray l) /\
    store w !! options ctx = Some (OptionsObject o) /\
    scan h (markerInterval o) l = Ok st /\
    proj4_recognised h (chosen_projection h o st) = true /\
    w' = {| store := <[options ctx :=
                         OptionsObject (set_projection o (chosen_projection h o st))]>
                       (store w);
            projector := Some (chosen_projection h o st);
            progress := progress w |} /\
    length ms = length (markerObjs st) /\
    (exists sd,
       smoothing_distance h
         (with_markers (with_scan ctx (totaldist st)) (markers ctx ++ ms))
         (set_projection o (chosen_projection h o st)) st = Ok sd /\
       _distFilter h (rawpoints st) sd = Ok f) /\
    ctx' = with_filter (with_markers (with_scan ctx (totaldist st)) (markers ctx ++ ms)) f.
Proof.
  unfold _scanPoints. intros E.
  apply bind_Ok in E as (l & w1 & E1 & E). apply read_points_Ok in E1 as [-> Hl].
  apply bind_Ok in E as (o & w1 & E1 & E). apply read_options_Ok in E1 as [-> Ho].
  apply bind_Ok in E as (st & w1 & E1 & E). apply lift_Ok in E1 as [-> Hst].
  apply bind_Ok in E as ([] & w1 & E1 & E).
  rewrite (configure_projection_run h (with_scan ctx (totaldist st)) st w o Ho) in E1.
  cbn [with_scan options] in E1. injection E1 as <-.
  apply bind_Ok in E as ([] & w2 & E2 & E).
  unfold init_projector in E2.
  rewrite run_bind in E2. cbn [with_scan options] in E2.
  rewrite (run_read_options _ _ (set_projection o (chosen_projection h o st))) in E2
    by (cbn [store]; apply lookup_insert_eq).
  unfold PointProjector.init in E2. cbn [set_projection projection] in E2.
  destruct (proj4_recognised h (chosen_projection h o st)) eqn:Hrec; [|discriminate].
  unfold write_projector in E2. cbn [store projector progress] in E2.
  injection E2 as <-.
  apply bind_Ok in E as (ms & w3 & E3 & E).
  pose proof (mapM_Ok_length _ _ _ _ _ E3) as Hms.
  apply wk_mapM in E3; [| intros; apply wk_project_marker]. subst w3.
  apply bind_Ok in E as (o2 & w3 & E4 & E). apply read_options_Ok in E4 as [-> Ho2].
  cbn [with_markers with_scan options store] in Ho2.
  rewrite lookup_insert_eq in Ho2. injection Ho2 as <-.
  apply bind_Ok in E as (sd & w3 & E5 & E). apply lift_Ok in E5 as [-> Hsd].
  apply bind_Ok in E as (f & w3 & E5 & E). apply lift_Ok in E5 as [-> Hf].
  injection E as <- <-.
  exists l, o, st, ms, f.
  split; [exact Hl|]. split; [exact Ho|]. split; [exact Hst|]. split; [exact Hrec|].
  split; [reflexivity|]. split; [exact Hms|]. split; [eauto | reflexivity].
Qed.

(** ** The phases of a generation *)

Lemma report_run (cb : bool) (pct : Z) (w : World) :
  report cb pct w = (Ok tt, with_progress w cb [pct]).
Proof.
  unfold report, with_progress. destruct cb; [reflexivity|].
  rewrite app_nil_r. now destruct w.
Qed.

Lemma with_progress_app (w : World) (cb : bool) (l1 l2 : list Z) :
  with_progress (with_progress w cb l1) cb l2 = with_progress w cb (l1 ++ l2).
Proof.
  unfold with_progress. cbn [store projector progress]. f_equal.
  destruct cb; [now rewrite <- app_assoc | now rewrite !app_nil_r].
Qed.

Lemma nonnull_Ok {A} (o : option A) (a : A) : nonnull o = Ok a -> o = Some a.
Proof. destruct o; simpl; congruence. Qed.

Lemma processPath_Ok (h : Host) (ctx : Ctx) (w w' : World) (code : ModelCode) :
  _processPath h ctx w = (Ok code, w') ->
  w' = w /\
  exists o stp,
    store w !! options ctx = Some (OptionsObject o) /\
    build_path h (buffer o) (outputPoints ctx) = Ok stp /\
    code = {| rawPoints := vertices stp; rawFaces := faces stp;
              rawMarkers := markers ctx; markerWidth := 2 * buffer o + 2 |}.
Proof.
  intros E. split; [eapply wk_processPath, E|].
  unfold _processPath in E.
  apply bind_Ok in E as (o & w1 & E1 & E). apply read_options_Ok in E1 as [-> Ho].
  apply bind_Ok in E as (stp & w1 & E1 & E). apply lift_Ok in E1 as [-> Hp].
  injection E as <- _. eauto.
Qed.

(** What a generation that returns has done, phase by phase. *)
Lemma generate_Ok (h : Host) (pts opts : ref) (cb : bool) (w w' : World) (a : Artifact) :
  generate h pts opts cb w = (Ok a, w') ->
  exists l o st ms f stp,
    store w !! pts = Some (PointsArray l) /\
    store w !! opts = Some (OptionsObject o) /\
    scan h (markerInterval o) l = Ok st /\
    proj4_recognised h (chosen_projection h o st) = true /\
    w' = with_progress
           {| store := <[opts := OptionsObject
                                   (set_projection o (chosen_projection h o st))]> (store w);
              projector := Some (chosen_projection h o st);
              progress := progress w |} cb progress_marks /\
    length ms = length (markerObjs st) /\
    (exists md, _distFilter h (rawpoints st) md = Ok f) /\
    length (art_outputPoints a) = length (filteredPts f) /\
    build_path h (buffer o) (art_outputPoints a) = Ok stp /\
    rawPoints (art_code a) = vertices stp /\
    rawFaces (art_code a) = faces stp /\
    length (rawMarkers (art_code a)) = length ms /\
    map orientation (rawMarkers (art_code a)) = map orientation ms /\
    markerWidth (art_code a) = 2 * buffer o + 2 /\
    art_distance a = totaldist st /\
    art_bed a = {| bed_x := bedx o; bed_y := bedy o |}.
Proof.
  unfold generate. intros E.
  apply bind_Ok in E as (o & w0 & E0 & E). apply read_options_Ok in E0 as [-> Ho].
  apply bind_Ok in E as ([] & w0 & E0 & E). rewrite report_run in E0. injection E0 as <-.
  apply bind_Ok in E as (ctx1 & w1 & E1 & E).
  apply scanPoints_Ok in E1
    as (l & o1 & st & ms & f & Hl & Ho1 & Hst & Hrec & -> & Hms & Hf & ->).
  cbn [with_progress store options] in Hl, Ho1. rewrite Ho in Ho1. injection Ho1 as <-.
  apply bind_Ok in E as ([] & w2 & E2 & E). rewrite report_run in E2. injection E2 as <-.
  apply bind_Ok in E as (ctx2 & w3 & E3 & E).
  apply projectPoints_Ok in E3
    as [-> (o2 & q0 & qs & Ho2 & Hp & Hlen & _ & _ & _ & _ & Hopt & Hmk & Hdist & _ & _)].
  cbn [with_filter with_markers with_scan projectedPoints app options markers distance ll]
    in Hp, Hlen, Hopt, Hmk, Hdist.
  apply bind_Ok in E as ([] & w4 & E4 & E). rewrite report_run in E4. injection E4 as <-.
  apply bind_Ok in E as (zscale & w5 & E5 & E). apply wk_calculateZScale in E5. subst w5.
  apply bind_Ok in E as (o3 & w5 & E5 & E). apply read_options_Ok in E5 as [-> Ho3].
  apply bind_Ok in E as (off & w5 & E5 & E). apply lift_Ok in E5 as [-> Hoff].
  apply bind_Ok in E as ([] & w6 & E6 & E). rewrite report_run in E6. injection E6 as <-.
  apply bind_Ok in E as (code & w7 & E7 & E).
  apply processPath_Ok in E7 as [-> (o4 & stp & Ho4 & Hpath & ->)].
  apply bind_Ok in E as ([] & w8 & E8 & E). rewrite report_run in E8. injection E8 as <-.
  apply bind_Ok in E as (o5 & w9 & E9 & E). apply read_options_Ok in E9 as [-> Ho5].
  injection E as <- <-.
  cbn [options outputPoints markers] in Ho4, Hpath, Ho5.
  rewrite Hopt in Ho4, Ho5.
  cbn [with_progress store projector progress] in Ho4, Ho5.
  rewrite lookup_insert_eq in Ho4, Ho5. injection Ho4 as <-. injection Ho5 as <-.
  cbn [set_projection buffer bedx bedy] in *.
  exists l, o, st, ms, f, stp.
  cbn [art_code art_outputPoints art_distance art_bed rawPoints rawFaces rawMarkers
       markerWidth distance].
  split; [exact Hl|]. split; [exact Ho|]. split; [exact Hst|]. split; [exact Hrec|].
  split.
  { rewrite !with_progress_app. unfold with_progress, progress_marks.
    cbn [store projector progress]. f_equal.
    destruct cb; [now rewrite <- app_assoc | now rewrite !app_nil_r]. }
  split; [exact Hms|]. split; [destruct Hf as (sd & _ & Hf); eauto|].
  split; [now rewrite length_map, Hp, Hlen|].
  split; [exact Hpath|]. split; [reflexivity|]. split; [reflexivity|].
  rewrite Hmk, Hdist. rewrite length_map, map_map. cbn [orientation].
  repeat split; reflexivity.
Qed.

(** ** What a generation returns *)

Lemma station_step_count (st st' : path_state) :
  station_step st st' -> (s st <= s st' <= s st + 1)%Z.
Proof. intros [_ _ Es | pathPts z _ _ Es]; lia. Qed.

Lemma path_loop_count (h : Host) (buf : JS.number) (pts : list vec3) (stations : list nat) :
  forall st st', path_loop h buf pts stations st = Ok st' ->
                 (s st <= s st' <= s st + Z.of_nat (length stations))%Z.
Proof.
  induction stations as [| i rest IH]; simpl; intros st st' H.
  - injection H as <-. lia.
  - apply rbind_Ok in H as (st1 & H1 & H).
    apply path_body_step, station_step_count in H1. apply IH in H. lia.
Qed.

Lemma build_path_single (h : Host) (buf : JS.number) (p : vec3) :
  build_path h buf [p] = Throw TypeError.
Proof. reflexivity. Qed.

(** What a path built from a non-empty sequence is. *)
Lemma build_path_Ok (h : Host) (buf : JS.number) (pts : list vec3) (st : path_state) :
  pts <> [] -> build_path h buf pts = Ok st ->
  (2 <= length pts)%nat /\
  (2 <= s st <= Z.of_nat (length pts))%Z /\
  Z.of_nat (length (vertices st)) = (4 * s st)%Z /\
  Z.of_nat (length (faces st)) = (4 + 8 * (s st - 1))%Z /\
  Forall (face_in_range (Z.of_nat (length (vertices st)))) (faces st).
Proof.
  intros Hne E.
  assert (Hn : (2 <= length pts)%nat).
  { destruct pts as [| p [| q pts]]; [congruence | | simpl; lia].
    rewrite build_path_single in E. discriminate. }
  split; [exact Hn|].
  destruct (build_path_returns h buf pts Hn) as (st' & E' & Hs).
  rewrite E in E'. injection E' as <-.
  destruct (build_path_inv h buf pts st E) as (st0 & H0 & Hinv & Ev & Es & Ef).
  apply path_loop_count in H0. rewrite length_seq in H0. cbn [path_init s] in H0.
  destruct Hinv as [_ Hv Hf Hr]. rewrite Ev, Ef, Es in *.
  split; [lia|]. split; [exact Hv|].
  unfold PathSegment.lastFace. rewrite length_app. cbn [length].
  split; [destruct (Z.eqb_spec (s st0) 0); lia|].
  rewrite Hv. apply Forall_app. split; [exact Hr|].
  repeat (apply List.Forall_cons; [unfold face_in_range; simpl; lia|]).
  apply List.Forall_nil.
Qed.

Lemma scan_rawpoints (h : Host) (iv : JS.number) (l : list vec3) (st : scan_state) :
  scan h iv l = Ok st -> rawpoints st = l /\ l <> [].
Proof.
  destruct l as [| p0 rest]; [discriminate|]. rewrite scan_nonempty. intros E.
  injection E as <-. split; [|discriminate].
  destruct (scan_loop_arrays h iv rest 1 p0 (scan_init p0)) as (H1 & _). exact H1.
Qed.

Lemma distFilter_length (h : Host) (l : list vec3) (m : JS.number) (f : filter_state) :
  _distFilter h l m = Ok f -> (1 <= length (filteredPts f) <= length l)%nat.
Proof.
  destruct l as [| p0 rest]; [discriminate|]. intros E.
  destruct (distFilter_loop_arrays h m rest [] p0
              {| filteredPts := [p0]; filteredDst := [];
                 ModelGenerator.total := 0; pre := 0 |})
    as (f' & H1 & H2 & _); [reflexivity | reflexivity |].
  unfold _distFilter in E. rewrite E in H1. injection H1 as <-.
  rewrite H2. cbn [app length].
  pose proof (sublist_length _ _ (kept_after_sublist h m rest p0)). lia.
Qed.

(** X10: every artifact [generate] returns is a ribbon of two stations or
    more: it has between 2 output points and as many as the track has
    points, [4 * S] vertices and [4 + 8 * (S - 1)] triangles for some number
    [S >= 2] of stations not above the number of output points, and every
    triangle index is an index of the vertex array. *)
Theorem generate_artifact_shape (h : Host) (pts opts : ref) (cb : bool) (w w' : World)
    (a : Artifact) :
  generate h pts opts cb w = (Ok a, w') ->
  exists (l : list vec3) (S : Z),
    store w !! pts = Some (PointsArray l) /\
    (2 <= length (art_outputPoints a) <= length l)%nat /\
    (2 <= S <= Z.of_nat (length (art_outputPoints a)))%Z /\
    Z.of_nat (length (rawPoints (art_code a))) = (4 * S)%Z /\
    Z.of_nat (length (rawFaces (art_code a))) = (4 + 8 * (S - 1))%Z /\
    Forall (face_in_range (Z.of_nat (length (rawPoints (art_code a)))))
           (rawFaces (art_code a)).
Proof.
  intros E.
  apply generate_Ok in E
    as (l & o & st & ms & f & stp & Hl & _ & Hst & _ & _ & _ & [md Hf] & Hlen & Hp
        & Hv & Hfc & _).
  apply scan_rawpoints in Hst as [Hraw _]. rewrite Hraw in Hf.
  apply distFilter_length in Hf.
  destruct (build_path_Ok h (buffer o) (art_outputPoints a) stp) as (H2 & Hs & Hnv & Hnf & Hr);
    [intros Hnil; rewrite Hnil in Hlen; simpl in Hlen; lia | exact Hp |].
  exists l, (s stp). rewrite Hv, Hfc.
  split; [exact Hl|]. split; [lia|]. auto.
Qed.

Lemma generate_artifact_shape_witness :
  exists a,
    fst (generate Reference.host Sample.points_ref Sample.options_ref true
           (Sample.world (Sample.options_with 1))) = Ok a /\
    exists S : Z,
      (2 <= S <= Z.of_nat (length (art_outputPoints a)))%Z /\
      Z.of_nat (length (rawPoints (art_code a))) = (4 * S)%Z.
Proof.
  destruct (generate Reference.host Sample.points_ref Sample.options_ref true
              (Sample.world (Sample.options_with 1))) as [[a | e] w'] eqn:E.
  - exists a. split; [reflexivity|].
    destruct (generate_artifact_shape _ _ _ _ _ _ _ E) as (l & S & _ & _ & HS & Hv & _).
    exists S. split; [exact HS | exact Hv].
  - vm_compute in E. discriminate.
Defined.

(** ** The bytes of the STL buffer *)

Import STLFormat.

Lemma write_at (pre rest bs : list Z) :
  (length bs <= length rest)%nat ->
  DataView.write (pre ++ rest) (length pre) bs = Ok (pre ++ bs ++ drop (length bs) rest).
Proof.
  intros H. rewrite write_Ok by (rewrite length_app; lia).
  rewrite take_app_length, drop_app_add'; reflexivity.
Qed.

Lemma float32_le_length (h : Host) (x : JS.number) : length (float32_le h x) = 4%nat.
Proof. apply le_bytes_length. Qed.

Lemma vec_bytes_length (h : Host) (x y z : JS.number) : length (vec_bytes h x y z) = 12%nat.
Proof. unfold vec_bytes. now rewrite !length_app, !float32_le_length. Qed.

Lemma triangle_record_length (h : Host) (v0 v1 v2 : vec3) :
  length (triangle_record h v0 v1 v2) = 50%nat.
Proof. unfold triangle_record. now rewrite !length_app, !vec_bytes_length. Qed.

Lemma write_vec_at (h : Host) (pre rest : list Z) (x y z : JS.number) :
  (12 <= length rest)%nat ->
  STL.write_vec h (pre ++ rest) (length pre) x y z =
    Ok (pre ++ vec_bytes h x y z ++ drop 12 rest, (length pre + 12)%nat).
Proof.
  intros H. unfold STL.write_vec, DataView.setFloat32.
  fold (float32_le h x) (float32_le h y) (float32_le h z).
  rewrite write_at by (rewrite float32_le_length; lia). cbn [rbind].
  rewrite float32_le_length.
  replace (pre ++ float32_le h x ++ drop 4 rest)
    with ((pre ++ float32_le h x) ++ drop 4 rest) by now rewrite <- app_assoc.
  replace (length pre + 4)%nat with (length (pre ++ float32_le h x))
    by now rewrite length_app, float32_le_length.
  rewrite write_at by (rewrite float32_le_length, length_drop; lia). cbn [rbind].
  rewrite float32_le_length, drop_drop.
  replace ((pre ++ float32_le h x) ++ float32_le h y ++ drop (4 + 4) rest)
    with (((pre ++ float32_le h x) ++ float32_le h y) ++ drop (4 + 4) rest)
    by now rewrite <- !app_assoc.
  replace (length pre + 8)%nat with (length ((pre ++ float32_le h x) ++ float32_le h y))
    by (rewrite !length_app, !float32_le_length; lia).
  rewrite write_at by (rewrite float32_le_length, length_drop; lia). cbn [rbind].
  rewrite float32_le_length, drop_drop. unfold vec_bytes.
  do 2 f_equal. now rewrite <- !app_assoc.
Qed.

Lemma write_record_at (h : Host) (pre rest : list Z) (nx ny nz : JS.number) (v0 v1 v2 : vec3) :
  (50 <= length rest)%nat ->
  (s1 <- STL.write_vec h (pre ++ rest) (length pre) nx ny nz ;;
   s2 <- STL.write_vec h (fst s1) (snd s1) (at0 v0) (at1 v0) (at2 v0) ;;
   s3 <- STL.write_vec h (fst s2) (snd s2) (at0 v1) (at1 v1) (at2 v1) ;;
   s4 <- STL.write_vec h (fst s3) (snd s3) (at0 v2) (at1 v2) (at2 v2) ;;
   b <- DataView.setUint16 (fst s4) (snd s4) 0 ;; Ok (b, (snd s4 + 2)%nat)) =
  Ok (pre ++ (vec_bytes h nx ny nz ++
              vec_bytes h (at0 v0) (at1 v0) (at2 v0) ++
              vec_bytes h (at0 v1) (at1 v1) (at2 v1) ++
              vec_bytes h (at0 v2) (at1 v2) (at2 v2) ++ [0; 0]%Z) ++ drop 50 rest,
      (length pre + 50)%nat).
Proof.
  intros H.
  rewrite write_vec_at by lia. cbn [rbind fst snd].
  set (b1 := vec_bytes h nx ny nz).
  replace (pre ++ b1 ++ drop 12 rest) with ((pre ++ b1) ++ drop 12 rest)
    by now rewrite <- app_assoc.
  replace (length pre + 12)%nat with (length (pre ++ b1))
    by (subst b1; now rewrite length_app, vec_bytes_length).
  rewrite write_vec_at by (rewrite length_drop; lia). cbn [rbind fst snd].
  set (b2 := vec_bytes h (at0 v0) (at1 v0) (at2 v0)).
  rewrite drop_drop.
  replace ((pre ++ b1) ++ b2 ++ drop (12 + 12) rest)
    with (((pre ++ b1) ++ b2) ++ drop (12 + 12) rest) by now rewrite <- !app_assoc.
  replace (length (pre ++ b1) + 12)%nat with (length ((pre ++ b1) ++ b2))
    by (subst b2; now rewrite (length_app _ (vec_bytes _ _ _ _)), vec_bytes_length).
  rewrite write_vec_at by (rewrite length_drop; lia). cbn [rbind fst snd].
  set (b3 := vec_bytes h (at0 v1) (at1 v1) (at2 v1)).
  rewrite drop_drop.
  replace (((pre ++ b1) ++ b2) ++ b3 ++ drop (12 + 12 + 12) rest)
    with ((((pre ++ b1) ++ b2) ++ b3) ++ drop (12 + 12 + 12) rest)
    by now rewrite <- !app_assoc.
  replace (length ((pre ++ b1) ++ b2) + 12)%nat with (length (((pre ++ b1) ++ b2) ++ b3))
    by (subst b3; now rewrite (length_app _ (vec_bytes _ _ _ _)), vec_bytes_length).
  rewrite write_vec_at by (rewrite length_drop; lia). cbn [rbind fst snd].
  set (b4 := vec_bytes h (at0 v2) (at1 v2) (at2 v2)).
  rewrite drop_drop.
  unfold DataView.setUint16.
  replace ((((pre ++ b1) ++ b2) ++ b3) ++ b4 ++ drop (12 + 12 + 12 + 12) rest)
    with (((((pre ++ b1) ++ b2) ++ b3) ++ b4) ++ drop (12 + 12 + 12 + 12) rest)
    by now rewrite <- !app_assoc.
  replace (length (((pre ++ b1) ++ b2) ++ b3) + 12)%nat
    with (length ((((pre ++ b1) ++ b2) ++ b3) ++ b4))
    by (subst b4; now rewrite (length_app _ (vec_bytes _ _ _ _)), vec_bytes_length).
  rewrite write_at by (cbn [DataView.le_bytes length]; rewrite length_drop; lia).
  cbn [rbind DataView.le_bytes length]. rewrite drop_drop.
  f_equal. f_equal.
  - now rewrite <- !app_assoc.
  - subst b1 b2 b3 b4. rewrite !length_app, !vec_bytes_length. lia.
Qed.

Lemma write_triangle_at (h : Host) (points : list vec3) (face : Face) (pre rest : list Z) :
  (50 <= length rest)%nat ->
  STL.write_triangle h points face (pre ++ rest, length pre) =
    (b <- triangle_bytes h points face ;;
     Ok (pre ++ b ++ drop 50 rest, (length pre + 50)%nat)).
Proof.
  intros H. unfold STL.write_triangle, triangle_bytes.
  destruct (deref points (ix0 face)) as [v0 |]; [|reflexivity].
  destruct (deref points (ix1 face)) as [v1 |]; [|reflexivity].
  destruct (deref points (ix2 face)) as [v2 |]; [|reflexivity].
  cbn [rbind fst snd]. cbv zeta.
  rewrite write_record_at by exact H.
  unfold triangle_record, facet_normal. cbv zeta.
  destruct (JS.gt _ 0); reflexivity.
Qed.

Lemma write_triangles_at (h : Host) (points : list vec3) (fs : list Face) :
  forall pre rest,
    (50 * length fs <= length rest)%nat ->
    STL.write_triangles h points fs (pre ++ rest, length pre) =
      (bs <- triangles_bytes h points fs ;;
       Ok (pre ++ bs ++ drop (50 * length fs) rest, (length pre + 50 * length fs)%nat)).
Proof.
  induction fs as [| face fs IH]; intros pre rest H.
  - cbn. now rewrite Nat.add_0_r.
  - cbn [STL.write_triangles triangles_bytes length] in *.
    rewrite write_triangle_at by lia.
    unfold triangle_bytes.
    destruct (deref points (ix0 face)) as [v0 |]; [|reflexivity].
    destruct (deref points (ix1 face)) as [v1 |]; [|reflexivity].
    destruct (deref points (ix2 face)) as [v2 |]; [|reflexivity].
    cbn [rbind].
    set (b := triangle_record h v0 v1 v2).
    replace (pre ++ b ++ drop 50 rest) with ((pre ++ b) ++ drop 50 rest)
      by now rewrite <- app_assoc.
    replace (length pre + 50)%nat with (length (pre ++ b))
      by (subst b; now rewrite length_app, triangle_record_length).
    rewrite IH by (rewrite length_drop; lia).
    destruct (triangles_bytes h points fs) as [bs |]; [|reflexivity].
    cbn [rbind]. rewrite drop_drop.
    replace (50 * S (length fs))%nat with (50 + 50 * length fs)%nat by lia.
    f_equal. f_equal.
    + now rewrite <- !app_assoc.
    + subst b. rewrite length_app, triangle_record_length. lia.
Qed.

Lemma header_byte_small (i : nat) : (STL.header_byte i mod 256 = STL.header_byte i)%Z.
Proof.
  unfold STL.header_byte. destruct (String.get i STL.header) as [c |]; [|reflexivity].
  apply Z.mod_small. pose proof (nat_ascii_bounded c). lia.
Qed.

Lemma write_header_at (n : nat) :
  forall pre rest,
    (n <= length rest)%nat ->
    STL.write_header (pre ++ rest) (List.seq (length pre) n) =
      Ok (pre ++ map STL.header_byte (List.seq (length pre) n) ++ drop n rest).
Proof.
  induction n as [| n IH]; intros pre rest H.
  - reflexivity.
  - cbn [List.seq STL.write_header map]. unfold DataView.setUint8.
    rewrite write_at by (cbn; lia). cbn [rbind DataView.le_bytes length].
    rewrite header_byte_small.
    replace (pre ++ [STL.header_byte (length pre)] ++ drop 1 rest)
      with ((pre ++ [STL.header_byte (length pre)]) ++ drop 1 rest)
      by now rewrite <- app_assoc.
    replace (S (length pre)) with (length (pre ++ [STL.header_byte (length pre)]))
      by (rewrite length_app; simpl; lia).
    rewrite IH by (rewrite length_drop; lia).
    rewrite drop_drop, <- !app_assoc. reflexivity.
Qed.

Lemma header_bytes_eq : map STL.header_byte (List.seq 0 80) = header_bytes.
Proof. reflexivity. Qed.

Lemma header_bytes_length : length header_bytes = 80%nat.
Proof. reflexivity. Qed.

Lemma generateSTL_run (h : Host) (m : ModelCode) :
  STL.generateSTL h m = stl_bytes h m.
Proof.
  unfold STL.generateSTL, stl_bytes, DataView.alloc.
  set (n := length (rawFaces m)).
  set (cnt := DataView.le_bytes 4 (Z.of_nat n)).
  set (buf := repeat 0%Z (84 + n * 50)).
  assert (Hbuf : length buf = (84 + n * 50)%nat) by apply repeat_length.
  pose proof (write_header_at 80 [] buf) as Hh.
  cbn [app length] in Hh. rewrite Hh by lia. clear Hh.
  cbn [rbind]. rewrite header_bytes_eq.
  unfold DataView.setUint32. fold cnt.
  pose proof (write_at header_bytes (drop 80 buf) cnt) as Hw.
  rewrite header_bytes_length in Hw. rewrite Hw
    by (subst cnt; rewrite le_bytes_length, length_drop; lia).
  clear Hw. cbn [rbind].
  replace (length cnt) with 4%nat by (subst cnt; now rewrite le_bytes_length).
  rewrite drop_drop.
  pose proof (write_triangles_at h (rawPoints m) (rawFaces m) (header_bytes ++ cnt)
                (drop (80 + 4) buf)) as Ht.
  rewrite length_app, header_bytes_length in Ht.
  replace (length cnt) with 4%nat in Ht by (subst cnt; now rewrite le_bytes_length).
  rewrite <- app_assoc in Ht. cbn [Nat.add] in Ht. cbn [Nat.add].
  rewrite Ht by (rewrite length_drop; fold n; lia). clear Ht.
  destruct (triangles_bytes h (rawPoints m) (rawFaces m)) as [bs |]; [|reflexivity].
  cbn [rbind fst]. f_equal. rewrite drop_drop.
  rewrite drop_ge by (fold n; lia).
  now rewrite app_nil_r, <- app_assoc.
Qed.

Lemma deref_Some {A} (l : list A) (i : Z) (a : A) :
  deref l i = Ok a -> (0 <= i < Z.of_nat (length l))%Z /\ l !! Z.to_nat i = Some a.
Proof.
  unfold deref. destruct (Z.ltb_spec i 0); [discriminate|].
  destruct (l !! Z.to_nat i) as [a0 |] eqn:E; [|discriminate].
  intros [= <-]. split; [|reflexivity].
  apply lookup_lt_Some in E. lia.
Qed.

Lemma triangle_bytes_Ok (h : Host) (points : list vec3) (face : Face) (b : list Z) :
  triangle_bytes h points face = Ok b ->
  face_in_range (Z.of_nat (length points)) face /\
  exists v0 v1 v2,
    points !! Z.to_nat (ix0 face) = Some v0 /\
    points !! Z.to_nat (ix1 face) = Some v1 /\
    points !! Z.to_nat (ix2 face) = Some v2 /\
    b = triangle_record h v0 v1 v2.
Proof.
  unfold triangle_bytes. intros E.
  apply rbind_Ok in E as (v0 & E0 & E). apply rbind_Ok in E as (v1 & E1 & E).
  apply rbind_Ok in E as (v2 & E2 & E). injection E as <-.
  apply deref_Some in E0 as [R0 L0], E1 as [R1 L1], E2 as [R2 L2].
  split; [now repeat split|]. exists v0, v1, v2. auto.
Qed.

Lemma triangle_bytes_in_range (h : Host) (points : list vec3) (face : Face) :
  face_in_range (Z.of_nat (length points)) face ->
  exists b, triangle_bytes h points face = Ok b.
Proof.
  intros (R0 & R1 & R2). unfold triangle_bytes.
  destruct (deref_in_range points (ix0 face) R0) as [v0 ->].
  destruct (deref_in_range points (ix1 face) R1) as [v1 ->].
  destruct (deref_in_range points (ix2 face) R2) as [v2 ->].
  cbn. eauto.
Qed.

Lemma triangles_bytes_Ok (h : Host) (points : list vec3) (fs : list Face) :
  forall bs, triangles_bytes h points fs = Ok bs ->
    length bs = (50 * length fs)%nat /\
    Forall (face_in_range (Z.of_nat (length points))) fs /\
    forall (i : nat) (face : Face), fs !! i = Some face ->
      exists v0 v1 v2,
        points !! Z.to_nat (ix0 face) = Some v0 /\
        points !! Z.to_nat (ix1 face) = Some v1 /\
        points !! Z.to_nat (ix2 face) = Some v2 /\
        take 50 (drop (50 * i) bs) = triangle_record h v0 v1 v2.
Proof.
  induction fs as [| f0 fs IH]; intros bs E.
  - injection E as <-. split; [reflexivity|]. split; [constructor|].
    intros i face Hi. discriminate.
  - cbn [triangles_bytes] in E.
    apply rbind_Ok in E as (b & Eb & E). apply rbind_Ok in E as (bs' & Ebs & E).
    injection E as <-.
    apply triangle_bytes_Ok in Eb as (Hr & v0 & v1 & v2 & L0 & L1 & L2 & ->).
    destruct (IH bs' Ebs) as (Hlen & Hall & Hrec).
    split; [rewrite length_app, triangle_record_length, Hlen; simpl; lia|].
    split; [now constructor|].
    intros [| i] face Hi.
    + injection Hi as <-. exists v0, v1, v2.
      split; [exact L0|]. split; [exact L1|]. split; [exact L2|].
      rewrite Nat.mul_0_r, drop_0.
      now rewrite take_app_length' by now rewrite triangle_record_length.
    + destruct (Hrec i face Hi) as (u0 & u1 & u2 & M0 & M1 & M2 & Ht).
      exists u0, u1, u2.
      split; [exact M0|]. split; [exact M1|]. split; [exact M2|].
      replace (50 * S i)%nat with (length (triangle_record h v0 v1 v2) + 50 * i)%nat
        by (rewrite triangle_record_length; lia).
      now rewrite drop_app_add'.
Qed.

Lemma triangles_bytes_in_range (h : Host) (points : list vec3) (fs : list Face) :
  Forall (face_in_range (Z.of_nat (length points))) fs ->
  exists bs, triangles_bytes h points fs = Ok bs.
Proof.
  induction 1 as [| f0 fs Hf _ [bs IH]]; [cbn; eauto|].
  destruct (triangle_bytes_in_range h points f0 Hf) as [b Hb].
  cbn [triangles_bytes]. rewrite Hb, IH. cbn. eauto.
Qed.

Lemma te_triangles_bytes (h : Host) (points : list vec3) (fs : list Face) :
  type_errors (triangles_bytes h points fs).
Proof.
  induction fs as [| f0 fs IH]; cbn [triangles_bytes]; [apply te_Ok|].
  apply te_rbind; [unfold triangle_bytes; repeat te_step|].
  intros b. apply te_rbind; [exact IH|]. intros bs. apply te_Ok.
Qed.

(** X11: the buffer [generateSTL] returns is the file the format
    describes: its first 80 bytes are the character codes of the header text,
    padded with zeros, and the [i]-th triangle can be read back at offset
    [84 + 50 * i]: the 50 bytes there are the normal and the three corners of
    the [i]-th face, each number as [setFloat32] stores it, and an attribute
    count of zero. *)
Theorem generateSTL_records (h : Host) (m : ModelCode) (buf : list Z) :
  STL.generateSTL h m = Ok buf ->
  take 80 buf = header_bytes /\
  forall (i : nat) (face : Face), rawFaces m !! i = Some face ->
    exists v0 v1 v2,
      rawPoints m !! Z.to_nat (ix0 face) = Some v0 /\
      rawPoints m !! Z.to_nat (ix1 face) = Some v1 /\
      rawPoints m !! Z.to_nat (ix2 face) = Some v2 /\
      take 50 (drop (84 + 50 * i) buf) = triangle_record h v0 v1 v2.
Proof.
  rewrite generateSTL_run. unfold stl_bytes. intros E.
  apply rbind_Ok in E as (bs & Ebs & E).
  assert (Hbuf : buf = header_bytes ++
            DataView.le_bytes 4 (Z.of_nat (length (rawFaces m))) ++ bs) by congruence.
  subst buf. clear E.
  split; [now rewrite take_app_length' by now rewrite header_bytes_length|].
  intros i face Hi.
  destruct (triangles_bytes_Ok h _ _ bs Ebs) as (_ & _ & Hrec).
  destruct (Hrec i face Hi) as (v0 & v1 & v2 & L0 & L1 & L2 & Ht).
  exists v0, v1, v2.
  split; [exact L0|]. split; [exact L1|]. split; [exact L2|].
  rewrite app_assoc.
  replace (84 + 50 * i)%nat
    with (length (header_bytes ++ DataView.le_bytes 4 (Z.of_nat (length (rawFaces m))))
          + 50 * i)%nat
    by (rewrite length_app, header_bytes_length, le_bytes_length; lia).
  now rewrite drop_app_add'.
Qed.

Lemma generateSTL_records_witness :
  exists buf,
    STL.generateSTL Reference.host Sample.mesh = Ok buf /\
    take 80 buf = header_bytes /\
    take 50 (drop 84 buf) = triangle_record Reference.host (V3 0 0 0) (V3 1 0 0) (V3 0 1 0).
Proof.
  destruct (STL.generateSTL Reference.host Sample.mesh) as [buf | e] eqn:E.
  - exists buf. split; [reflexivity|].
    destruct (generateSTL_records Reference.host Sample.mesh buf E) as [Hh Hrec].
    split; [exact Hh|].
    destruct (Hrec 0%nat (Tri 0 1 2) eq_refl) as (v0 & v1 & v2 & L0 & L1 & L2 & Ht).
    injection L0 as <-. injection L1 as <-. injection L2 as <-. exact Ht.
  - vm_compute in E. discriminate.
Defined.

(** X12: [generateSTL] never writes outside its buffer: it raises no
    [RangeError].  It returns a buffer exactly when every index of every
    triangle is an index of the vertex array, and throws a [TypeError]
    otherwise. *)
Theorem generateSTL_errors (h : Host) (m : ModelCode) :
  ((exists buf, STL.generateSTL h m = Ok buf) <->
   Forall (face_in_range (Z.of_nat (length (rawPoints m)))) (rawFaces m)) /\
  (forall e, STL.generateSTL h m = Throw e -> e = TypeError).
Proof.
  rewrite generateSTL_run. unfold stl_bytes. split; [split|].
  - intros [buf E]. apply rbind_Ok in E as (bs & Ebs & _).
    now destruct (triangles_bytes_Ok h _ _ bs Ebs) as (_ & Hall & _).
  - intros Hall. destruct (triangles_bytes_in_range h _ _ Hall) as [bs ->].
    cbn. eauto.
  - apply te_rbind; [apply te_triangles_bytes|]. intros bs. apply te_Ok.
Qed.

(** X13: every model [generate] returns can be exported: [generateSTL] on
    its code returns a buffer, of [84 + 50 * N] bytes for its [N >= 12]
    triangles. *)
Theorem generated_model_exports (h : Host) (pts opts : ref) (cb : bool) (w w' : World)
    (a : Artifact) :
  generate h pts opts cb w = (Ok a, w') ->
  exists buf,
    STL.generateSTL h (art_code a) = Ok buf /\
    length buf = (84 + 50 * length (rawFaces (art_code a)))%nat /\
    (12 <= length (rawFaces (art_code a)))%nat.
Proof.
  intros E.
  apply generate_Ok in E
    as (l & o & st & ms & f & stp & _ & _ & _ & _ & _ & _ & [md Hf] & Hlen & Hp
        & Hv & Hfc & _).
  apply distFilter_length in Hf.
  destruct (build_path_Ok h (buffer o) (art_outputPoints a) stp) as (_ & Hs & _ & Hnf & Hr);
    [intros Hnil; rewrite Hnil in Hlen; simpl in Hlen; lia | exact Hp |].
  rewrite generateSTL_run. unfold stl_bytes. rewrite Hv, Hfc.
  destruct (triangles_bytes_in_range h _ _ Hr) as [bs Hbs]. rewrite Hbs. cbn [rbind].
  eexists. split; [reflexivity|].
  destruct (triangles_bytes_Ok h _ _ bs Hbs) as (Hl & _).
  rewrite !length_app, header_bytes_length, le_bytes_length, Hl. split; lia.
Qed.

Lemma generated_model_exports_witness :
  exists a buf,
    fst (generate Reference.host Sample.points_ref Sample.options_ref true
           (Sample.world (Sample.options_with 1))) = Ok a /\
    STL.generateSTL Reference.host (art_code a) = Ok buf /\
    length buf = 684%nat.
Proof.
  destruct (generate Reference.host Sample.points_ref Sample.options_ref true
              (Sample.world (Sample.options_with 1))) as [[a | e] w'] eqn:E.
  - exists a.
    destruct (generated_model_exports _ _ _ _ _ _ _ E) as (buf & Hb & Hl & _).
    exists buf. split; [reflexivity|]. split; [exact Hb|].
    rewrite Hl. vm_compute in E. injection E as <- _. reflexivity.
  - vm_compute in E. discriminate.
Defined.

(** ** Generations that end early *)

Lemma generate_Ok_length (h : Host) (pts opts : ref) (cb : bool) (w w' : World)
    (a : Artifact) (l : list vec3) :
  store w !! pts = Some (PointsArray l) ->
  generate h pts opts cb w = (Ok a, w') -> (2 <= length l)%nat.
Proof.
  intros Hl E.
  apply generate_Ok in E
    as (l' & o & st & ms & f & stp & Hl' & _ & Hst & _ & _ & _ & [md Hf] & Hlen & Hp & _).
  rewrite Hl in Hl'. injection Hl' as <-.
  apply scan_rawpoints in Hst as [Hraw _]. rewrite Hraw in Hf.
  apply distFilter_length in Hf.
  destruct (build_path_Ok h (buffer o) (art_outputPoints a) stp) as (H2 & _);
    [intros Hnil; rewrite Hnil in Hlen; simpl in Hlen; lia | exact Hp |].
  lia.
Qed.

(** X14: a track of fewer than two points never yields a model:
    [generate] throws, a [TypeError] or the unrecognised-projection error.
    On the empty array it throws the [TypeError] right after its first
    progress call, having written nothing. *)
Theorem generate_short_track (h : Host) (pts opts : ref) (cb : bool) (w : World)
    (l : list vec3) (o : Options) :
  store w !! pts = Some (PointsArray l) ->
  store w !! opts = Some (OptionsObject o) ->
  (length l < 2)%nat ->
  (exists e w', generate h pts opts cb w = (Throw e, w') /\
                (e = TypeError \/ e = projection_error)) /\
  (l = [] -> generate h pts opts cb w = (Throw TypeError, with_progress w cb [10%Z])).
Proof.
  intros Hl Ho Hn. split.
  - destruct (generate h pts opts cb w) as [[a | e] w'] eqn:E.
    + apply (generate_Ok_length _ _ _ _ _ _ _ _ Hl) in E. lia.
    + exists e, w'. split; [reflexivity|]. eapply ro_generate, E.
  - intros ->. unfold generate.
    rewrite run_bind, (run_read_options _ _ _ Ho).
    rewrite run_bind, report_run. rewrite run_bind. unfold _scanPoints.
    rewrite run_bind, (run_read_points _ (with_progress w cb [10%Z]) []) by exact Hl.
    rewrite run_bind, (run_read_options _ (with_progress w cb [10%Z]) o) by exact Ho.
    reflexivity.
Qed.

Lemma generate_short_track_witness :
  (exists e w',
     generate Reference.host Sample.points_ref Sample.options_ref true
       (Phase.world_of [V3 0 0 10] (Sample.options_with 1)) = (Throw e, w') /\
     (e = TypeError \/ e = projection_error)) /\
  generate Reference.host Sample.points_ref Sample.options_ref true
    (Phase.world_of [] (Sample.options_with 1)) =
    (Throw TypeError, with_progress (Phase.world_of [] (Sample.options_with 1)) true [10%Z]).
Proof.
  split.
  - apply (generate_short_track Reference.host Sample.points_ref Sample.options_ref true
             (Phase.world_of [V3 0 0 10] (Sample.options_with 1)) [V3 0 0 10]
             (Sample.options_with 1)); [reflexivity | reflexivity | simpl; lia].
  - apply (generate_short_track Reference.host Sample.points_ref Sample.options_ref true
             (Phase.world_of [] (Sample.options_with 1)) [] (Sample.options_with 1));
      [reflexivity | reflexivity | simpl; lia | reflexivity].
Defined.

(** X15: whatever the shape, a generation whose projection definition
    proj4 does not recognise fails with the generator's own error: the
    definition is handed to [PointProjector.init] for linear and ring
    profiles too.  By then the first progress call is made and
    [options.projection] holds the chosen definition. *)
Theorem generate_unrecognised_projection (h : Host) (pts opts : ref) (cb : bool)
    (w : World) (l : list vec3) (o : Options) (st : scan_state) :
  store w !! pts = Some (PointsArray l) ->
  store w !! opts = Some (OptionsObject o) ->
  scan h (markerInterval o) l = Ok st ->
  proj4_recognised h (chosen_projection h o st) = false ->
  generate h pts opts cb w =
    (Throw projection_error,
     with_progress
       {| store := <[opts := OptionsObject (set_projection o (chosen_projection h o st))]>
                     (store w);
          projector := projector w; progress := progress w |} cb [10%Z]).
Proof.
  intros Hl Ho Hst Hrec. unfold generate.
  rewrite run_bind, (run_read_options _ _ _ Ho).
  rewrite run_bind, report_run. rewrite run_bind. unfold _scanPoints.
  rewrite run_bind, (run_read_points _ (with_progress w cb [10%Z]) l) by exact Hl.
  rewrite run_bind, (run_read_options _ (with_progress w cb [10%Z]) o) by exact Ho.
  rewrite run_bind. unfold lift at 1. rewrite Hst.
  rewrite run_bind.
  match goal with |- context [configure_projection h ?c st ?w0] =>
    rewrite (configure_projection_run h c st w0 o) by exact Ho end.
  rewrite run_bind. unfold init_projector.
  rewrite run_bind.
  match goal with |- context [read_options ?r ?w0] =>
    rewrite (run_read_options r w0 (set_projection o (chosen_projection h o st)))
      by (cbn [store with_scan options]; apply lookup_insert_eq) end.
  unfold PointProjector.init. cbn [set_projection projection]. rewrite Hrec.
  reflexivity.
Qed.

Lemma generate_unrecognised_projection_witness :
  exists w',
    generate Reference.host Sample.points_ref Sample.options_ref true
      (Phase.world_of Sample.track Phase.unknown_projection) =
      (Throw projection_error, w') /\
    progress w' = [10%Z].
Proof.
  eexists. split.
  - apply (generate_unrecognised_projection Reference.host Sample.points_ref
             Sample.options_ref true (Phase.world_of Sample.track Phase.unknown_projection)
             Sample.track Phase.unknown_projection
             (scan_loop Reference.host 0 1 (V3 0 0 10) [V3 0.001 0 10]
                (scan_init (V3 0 0 10)))); reflexivity.
  - reflexivity.
Defined.

(** ** The progress calls *)

Lemma pk_bind {A B} (m : M A) (k : A -> M B) :
  progress_kept m -> (forall a, progress_kept (k a)) -> progress_kept (bind m k).
Proof.
  intros Hm Hk w. rewrite run_bind. specialize (Hm w).
  destruct (m w) as [[a | e] w1]; simpl in *; [|exact Hm].
  now rewrite Hk.
Qed.

Lemma pk_of_wk {A} (m : M A) : world_kept m -> progress_kept m.
Proof.
  intros Hm w. destruct (m w) as [r w'] eqn:E. apply Hm in E. now subst.
Qed.

Lemma pk_write_projection (r : ref) (p : string) : progress_kept (write_projection r p).
Proof.
  intros w. unfold write_projection. destruct (store w !! r) as [[|]|]; reflexivity.
Qed.

Lemma pk_write_projector (p : string) : progress_kept (write_projector p).
Proof. intros w. reflexivity. Qed.

Lemma pk_throw {A} (e : exn) : progress_kept (@throw A e).
Proof. intros w. reflexivity. Qed.

Lemma pk_report_off (pct : Z) : progress_kept (report false pct).
Proof. intros w. reflexivity. Qed.

Ltac pk_step :=
  first
    [ apply pk_write_projection | apply pk_write_projector | apply pk_throw
    | apply pk_report_off
    | apply pk_of_wk;
      first [ apply wk_ret | apply wk_lift | apply wk_read_options | apply wk_read_points
            | apply wk_mapM; intros; apply wk_project_marker
            | apply wk_projectPoints | apply wk_calculateZScale | apply wk_processPath ]
    | apply pk_bind; [| intros ?]
    | match goal with
      | |- progress_kept (if ?b then _ else _) => destruct b
      | |- progress_kept (match ?r with Ok _ => _ | Throw _ => _ end) => destruct r
      end ].

Lemma pk_scanPoints (h : Host) (ctx : Ctx) (pts : ref) : progress_kept (_scanPoints h ctx pts).
Proof. unfold _scanPoints, configure_projection, init_projector. repeat pk_step. Qed.

Lemma reports_kept {A} (marks : list Z) (m : M A) : progress_kept m -> reports marks m.
Proof.
  intros Hm w r w' E. exists 0%nat. specialize (Hm w). rewrite E in Hm. simpl in Hm.
  now rewrite Hm, take_0, app_nil_r.
Qed.

Lemma reports_bind_kept {A B} (marks : list Z) (m : M A) (k : A -> M B) :
  progress_kept m -> (forall a, reports marks (k a)) -> reports marks (bind m k).
Proof.
  intros Hm Hk w r w'. rewrite run_bind. specialize (Hm w).
  destruct (m w) as [[a | e] w1]; simpl in Hm.
  - intros E. apply Hk in E as [j E]. exists j. now rewrite E, Hm.
  - intros E. injection E as _ <-. exists 0%nat. now rewrite Hm, take_0, app_nil_r.
Qed.

Lemma reports_bind_report {B} (pct : Z) (marks : list Z) (k : unit -> M B) :
  (forall u, reports marks (k u)) -> reports (pct :: marks) (bind (report true pct) k).
Proof.
  intros Hk w r w'. rewrite run_bind. cbn [report].
  intros E. apply Hk in E as [j E]. exists (S j).
  rewrite E. cbn [progress take]. now rewrite <- app_assoc.
Qed.

Ltac reports_step :=
  first
    [ apply reports_bind_report; intros ?
    | apply reports_bind_kept;
      [ first [ apply pk_scanPoints | pk_step ] | intros ? ]
    | apply reports_kept; pk_step ].

Lemma generate_reports (h : Host) (pts opts : ref) :
  reports progress_marks (generate h pts opts true).
Proof. unfold generate, progress_marks. repeat reports_step. Qed.

Lemma generate_silent (h : Host) (pts opts : ref) :
  progress_kept (generate h pts opts false).
Proof. unfold generate. repeat first [apply pk_scanPoints | pk_step]. Qed.

(** X16: the progress calls of a generation are 10, 30, 50, 70 and 90, in
    this order: all five when it returns, the first few when it throws, and
    none at all when no callback is given. *)
Theorem generate_progress (h : Host) (pts opts : ref) (cb : bool) (w w' : World)
    (r : result Artifact) :
  generate h pts opts cb w = (r, w') ->
  (exists k : nat,
     progress w' = progress w ++ (if cb then take k progress_marks else [])) /\
  (forall a, r = Ok a ->
     progress w' = progress w ++ (if cb then progress_marks else [])).
Proof.
  intros E. split.
  - destruct cb.
    + apply generate_reports in E. exact E.
    + exists 0%nat. pose proof (generate_silent h pts opts w) as H.
      rewrite E in H. simpl in H. now rewrite H, app_nil_r.
  - intros a ->.
    apply generate_Ok in E as (l & o & st & ms & f & stp & _ & _ & _ & _ & -> & _).
    reflexivity.
Qed.

Lemma generate_progress_witness :
  progress (snd (generate Reference.host Sample.points_ref Sample.options_ref true
                   (Sample.world (Sample.options_with 1)))) = [10; 30; 50; 70; 90]%Z.
Proof.
  destruct (generate Reference.host Sample.points_ref Sample.options_ref true
              (Sample.world (Sample.options_with 1))) as [[a | e] w'] eqn:E.
  - destruct (generate_progress _ _ _ _ _ _ _ E) as [_ H]. exact (H a eq_refl).
  - vm_compute in E. discriminate.
Defined.

(** ** Markers and distance of the artifact *)

(** X17: the model carries one marker per marker the scan recorded, so
    fewer markers than the track has points; and none at all when the marker
    interval is not above [0].  The width of a marker is the width of the
    ribbon plus 2. *)
Theorem generate_markers (h : Host) (pts opts : ref) (cb : bool) (w w' : World)
    (a : Artifact) :
  generate h pts opts cb w = (Ok a, w') ->
  exists l o st,
    store w !! pts = Some (PointsArray l) /\
    store w !! opts = Some (OptionsObject o) /\
    scan h (markerInterval o) l = Ok st /\
    length (rawMarkers (art_code a)) = length (markerObjs st) /\
    (length (rawMarkers (art_code a)) < length l)%nat /\
    (JS.gt (markerInterval o) 0 = false -> rawMarkers (art_code a) = []) /\
    markerWidth (art_code a) = 2 * buffer o + 2.
Proof.
  intros E.
  apply generate_Ok in E
    as (l & o & st & ms & f & stp & Hl & Ho & Hst & _ & _ & Hms & _ & _ & _ & _ & _
        & Hlen & _ & Hw & _).
  exists l, o, st. split; [exact Hl|]. split; [exact Ho|]. split; [exact Hst|].
  rewrite Hlen, Hms. split; [reflexivity|].
  destruct l as [| p0 rest]; [discriminate|].
  rewrite scan_nonempty in Hst. injection Hst as <-.
  destruct (scan_loop_segs h (markerInterval o) rest 1 p0 (scan_init p0))
    as (new & En & _ & _ & Hle).
  cbn [scan_init markerObjs app] in En.
  split; [rewrite En; simpl; lia|]. split; [|exact Hw].
  intros Hiv. rewrite scan_loop_no_markers in Hms by exact Hiv.
  cbn [scan_init markerObjs length] in Hms. rewrite Hms in Hlen.
  now destruct (rawMarkers (art_code a)).
Qed.

Lemma generate_markers_witness :
  exists a,
    fst (generate Reference.host Sample.points_ref Sample.options_ref true
           (Sample.world (Sample.options_with 1))) = Ok a /\
    rawMarkers (art_code a) = [] /\ markerWidth (art_code a) = 12.
Proof.
  destruct (generate Reference.host Sample.points_ref Sample.options_ref true
              (Sample.world (Sample.options_with 1))) as [[a | e] w'] eqn:E.
  - exists a. split; [reflexivity|].
    destruct (generate_markers _ _ _ _ _ _ _ E)
      as (l & o & st & _ & Ho & _ & _ & _ & Hnone & Hw).
    injection Ho as <-. split; [apply Hnone; reflexivity | exact Hw].
  - vm_compute in E. discriminate.
Defined.

(** X18: the distance of the artifact is the length of the raw track: the
    sum, added in order from [0], of the Vincenty lengths of all its
    segments, whatever the smoothing dropped.  The bed it reports is the
    whole bed of the options, not the bed reduced by the ribbon. *)
Theorem generate_distance (h : Host) (pts opts : ref) (cb : bool) (w w' : World)
    (a : Artifact) :
  generate h pts opts cb w = (Ok a, w') ->
  exists p0 rest o,
    store w !! pts = Some (PointsArray (p0 :: rest)) /\
    store w !! opts = Some (OptionsObject o) /\
    art_distance a = fold_left PrimFloat.add (segment_distances h p0 rest) 0 /\
    art_bed a = {| bed_x := bedx o; bed_y := bedy o |}.
Proof.
  intros E.
  apply generate_Ok in E
    as (l & o & st & ms & f & stp & Hl & Ho & Hst & _ & _ & _ & _ & _ & _ & _ & _
        & _ & _ & _ & Hd & Hb).
  destruct l as [| p0 rest]; [discriminate|].
  rewrite scan_nonempty in Hst. injection Hst as <-.
  exists p0, rest, o. split; [exact Hl|]. split; [exact Ho|]. split; [|exact Hb].
  rewrite Hd.
  now destruct (scan_loop_arrays h (markerInterval o) rest 1 p0 (scan_init p0))
    as (_ & _ & H3 & _).
Qed.

Lemma generate_distance_witness :
  exists a,
    fst (generate Reference.host Sample.points_ref Sample.options_ref true
           (Sample.world (Sample.options_with 1))) = Ok a /\
    art_distance a = 0 + distVincenty Reference.host 0 0 0 0.001 /\
    art_bed a = {| bed_x := 100; bed_y := 100 |}.
Proof.
  destruct (generate Reference.host Sample.points_ref Sample.options_ref true
              (Sample.world (Sample.options_with 1))) as [[a | e] w'] eqn:E.
  - exists a. split; [reflexivity|].
    destruct (generate_distance _ _ _ _ _ _ _ E) as (p0 & rest & o & Hl & Ho & Hd & Hb).
    injection Hl as <- <-. injection Ho as <-. split; [exact Hd | exact Hb].
  - vm_compute in E. discriminate.
Defined.

(** ** The objects of the page *)




Local Open Scope Z_scope.

(** ** The geometry of the ribbon *)

Lemma path_body_quad (h : Host) (buf : JS.number) (pts : list vec3)
    (st st' : path_state) (i : nat) :
  path_body h buf pts st i = Ok st' ->
  (vertices st' = vertices st /\ faces st' = faces st /\ s st' = s st) \/
  (exists v p, pts !! i = Some p /\
               vertices st' = vertices st ++ quad (v, at2 p) /\
               faces st' = PathSegment.faces (faces st) (s st) /\
               s st' = s st + 1).
Proof.
  unfold path_body. intros H.
  apply rbind_Ok in H as (angle & _ & H).
  apply rbind_Ok in H as (skip & _ & H).
  destruct skip.
  - injection H as <-. now left.
  - apply rbind_Ok in H as (pathPts & _ & H).
    apply rbind_Ok in H as (p & Hp & H).
    injection H as <-. right. exists pathPts, p.
    apply deref_Some in Hp as [_ Hp]. rewrite Nat2Z.id in Hp.
    repeat split; try reflexivity. exact Hp.
Qed.

Lemma path_loop_quads (h : Host) (buf : JS.number) (pts : list vec3) (stations : list nat) :
  forall st st', path_loop h buf pts stations st = Ok st' ->
  exists quads,
    vertices st' = vertices st ++ flat_map quad quads /\
    s st' = s st + Z.of_nat (length quads) /\
    Forall (fun q => exists p, p ∈ pts /\ snd q = at2 p) quads.
Proof.
  induction stations as [| i rest IH]; simpl; intros st st' H.
  - injection H as <-. exists []. cbn. rewrite app_nil_r. split; [reflexivity|].
    split; [lia | constructor].
  - apply rbind_Ok in H as (st1 & H1 & H).
    apply IH in H as (quads & Hv & Hs & Hq).
    apply path_body_quad in H1 as [(Ev & _ & Es) | (v & p & Hp & Ev & _ & Es)].
    + exists quads. rewrite Hv, Hs, Ev, Es. auto.
    + exists ((v, at2 p) :: quads). rewrite Hv, Hs, Ev, Es.
      cbn [flat_map length]. rewrite <- app_assoc.
      split; [reflexivity|]. split; [lia|].
      constructor; [|exact Hq]. exists p. split; [|reflexivity].
      eapply list_elem_of_lookup_2, Hp.
Qed.

(** X20: the vertex array of a path is one quad per accepted station, in
    order: a left and a right vertex on the floor ([z = 0]) followed by the
    same two raised to the height of the station, which is the height of one
    of the output points. *)
Theorem path_vertices (h : Host) (buf : JS.number) (pts : list vec3) (st : path_state) :
  build_path h buf pts = Ok st ->
  exists quads,
    vertices st = flat_map quad quads /\
    Z.of_nat (length quads) = s st /\
    Forall (fun q => exists p, p ∈ pts /\ snd q = at2 p) quads.
Proof.
  intros E.
  destruct (build_path_inv h buf pts st E) as (st0 & H0 & _ & Ev & Es & _).
  apply path_loop_quads in H0 as (quads & Hv & Hs & Hq).
  exists quads. rewrite Ev, Es, Hv, Hs. cbn [path_init vertices s app].
  split; [reflexivity|]. split; [lia | exact Hq].
Qed.

Lemma path_vertices_witness :
  exists st quads,
    build_path Reference.host 5%float Sample.fitted = Ok st /\
    vertices st = flat_map quad quads /\
    map snd quads = [9; 9; 9]%float.
Proof.
  destruct (build_path Reference.host 5%float Sample.fitted) as [st | e] eqn:E.
  - destruct (path_vertices Reference.host 5%float Sample.fitted st E)
      as (quads & Hv & Hs & Hq).
    exists st, quads. split; [reflexivity|]. split; [exact Hv|].
    assert (H3 : s st = 3).
    { pose proof E as E'. vm_compute in E'. injection E' as <-. reflexivity. }
    rewrite H3 in Hs.
    destruct quads as [| q1 [| q2 [| q3 [| q4 quads]]]]; simpl in Hs; try lia.
    apply Forall_cons in Hq as [(p1 & I1 & Z1) Hq].
    apply Forall_cons in Hq as [(p2 & I2 & Z2) Hq].
    apply Forall_cons in Hq as [(p3 & I3 & Z3) _].
    assert (Hz : forall p, p ∈ Sample.fitted -> at2 p = 9%float).
    { intros p Hp. unfold Sample.fitted in Hp.
      repeat (apply elem_of_cons in Hp as [-> | Hp]; [reflexivity|]).
      now apply elem_of_nil in Hp. }
    cbn [map]. now rewrite Z1, Z2, Z3, !Hz.
  - vm_compute in E. discriminate.
Defined.

Lemma station_step_proper (st st' : path_state) :
  0 <= s st -> station_step st st' ->
  Forall proper_face (faces st) -> Forall proper_face (faces st').
Proof.
  intros Hs [Ev Ef Es | pathPts z Ev Ef Es] Hp; rewrite Ef; [exact Hp|].
  unfold PathSegment.faces, PathSegment.firstFace.
  destruct (s st =? 0); apply Forall_app; (split; [exact Hp|]);
    repeat (apply List.Forall_cons; [unfold proper_face; simpl; lia|]);
    apply List.Forall_nil.
Qed.

Lemma path_loop_proper (h : Host) (buf : JS.number) (pts : list vec3) (stations : list nat) :
  forall st st', path_inv st -> Forall proper_face (faces st) ->
                 path_loop h buf pts stations st = Ok st' ->
                 Forall proper_face (faces st').
Proof.
  induction stations as [| i rest IH]; simpl; intros st st' Hinv Hp H.
  - now injection H as <-.
  - apply rbind_Ok in H as (st1 & H1 & H).
    apply path_body_step in H1.
    eapply (IH st1); [eapply path_inv_step; eauto | | exact H].
    eapply station_step_proper; [apply Hinv | exact H1 | exact Hp].
Qed.

(** X21: no triangle of a path is degenerate in its indices: the three
    corners of every face, caps and bridges alike, are three different
    vertices. *)
Theorem path_faces_proper (h : Host) (buf : JS.number) (pts : list vec3) (st : path_state) :
  build_path h buf pts = Ok st -> Forall proper_face (faces st).
Proof.
  intros E.
  destruct (build_path_inv h buf pts st E) as (st0 & H0 & _ & _ & _ & Ef).
  rewrite Ef. unfold PathSegment.lastFace. apply Forall_app. split.
  - eapply path_loop_proper; [apply path_inv_init | constructor | exact H0].
  - repeat (apply List.Forall_cons; [unfold proper_face; simpl; lia|]).
    apply List.Forall_nil.
Qed.

Lemma path_faces_proper_witness :
  exists st,
    build_path Reference.host 5%float Sample.fitted = Ok st /\
    Forall proper_face (faces st).
Proof.
  destruct (build_path Reference.host 5%float Sample.fitted) as [st | e] eqn:E.
  - exists st. split; [reflexivity|].
    apply (path_faces_proper Reference.host 5%float Sample.fitted st E).
  - vm_compute in E. discriminate.
Defined.

Local Open Scope float_scope.

(** ** The options the form collects *)

Lemma isFinite_not_nan (x : float) : JS.isFinite x = true -> JS.isNaN x = false.
Proof.
  unfold JS.isFinite, PrimFloat.is_finite, JS.isNaN. intros H.
  apply negb_true_iff, orb_false_iff in H. tauto.
Qed.

Lemma finite_not_lt_ge (x b : float) :
  JS.isFinite x = true -> JS.isNaN b = false -> JS.lt x b = false -> JS.ge x b = true.
Proof.
  intros Hx Hb Hlt. unfold JS.ge. fold (JS.le b x).
  apply number_not_lt_le; [now apply isFinite_not_nan | exact Hb | exact Hlt].
Qed.

(** X22: what [collectOptions] returns.  A record it returns is the one
    read from the form, shown with no message, and is within the ranges the
    form states: [vertical >= 1], [bedx >= 20], [bedy >= 20] and
    [buffer >= 0.5], all four finite, and a custom projection that is not
    blank.  When it returns [null] it has shown exactly one message. *)
Theorem collectOptions_sound (h : Host) (f : App.Form) :
  (forall o msgs, App.collectOptions h f = (Some o, msgs) ->
     msgs = [] /\ o = App.read_form h f /\
     JS.isFinite (vertical o) = true /\ JS.ge (vertical o) 1 = true /\
     JS.isFinite (bedx o) = true /\ JS.ge (bedx o) 20 = true /\
     JS.isFinite (bedy o) = true /\ JS.ge (bedy o) 20 = true /\
     JS.isFinite (buffer o) = true /\ JS.ge (buffer o) 0.5 = true /\
     (JS.seq (projtype o) 1 = true -> string_trim h (projection o) <> ""%string)) /\
  (forall msgs, App.collectOptions h f = (None, msgs) -> exists msg, msgs = [msg]).
Proof.
  unfold App.collectOptions. split.
  - intros o msgs E.
    destruct (App.validate h (App.read_form h f)) as [msg |] eqn:V; [discriminate|].
    injection E as <- <-. split; [reflexivity|]. split; [reflexivity|].
    unfold App.validate in V.
    destruct (JS.isFinite (vertical (App.read_form h f))) eqn:F1; [|discriminate].
    destruct (JS.lt (vertical (App.read_form h f)) 1) eqn:L1; [discriminate|].
    destruct (JS.isFinite (bedx (App.read_form h f))) eqn:F2; [|discriminate].
    destruct (JS.lt (bedx (App.read_form h f)) 20) eqn:L2; [discriminate|].
    destruct (JS.isFinite (bedy (App.read_form h f))) eqn:F3; [|discriminate].
    destruct (JS.lt (bedy (App.read_form h f)) 20) eqn:L3; [discriminate|].
    destruct (JS.isFinite (buffer (App.read_form h f))) eqn:F4; [|discriminate].
    destruct (JS.lt (buffer (App.read_form h f)) 0.5) eqn:L4; [discriminate|].
    cbn [negb orb] in V.
    repeat split; try (apply finite_not_lt_ge; [assumption | reflexivity | assumption]).
    intros Hp Ht. rewrite Hp, Ht in V. discriminate.
  - intros msgs E.
    destruct (App.validate h (App.read_form h f)) as [msg |]; [|discriminate].
    injection E as <-. eauto.
Qed.

Lemma collectOptions_sound_witness :
  exists o,
    App.collectOptions Reference.host Phase.valid_form = (Some o, []) /\
    JS.ge (vertical o) 1 = true /\ JS.ge (buffer o) 0.5 = true.
Proof.
  destruct (App.collectOptions Reference.host Phase.valid_form) as [[o |] msgs] eqn:E.
  - destruct (collectOptions_sound Reference.host Phase.valid_form) as [H _].
    destruct (H o msgs E) as (-> & _ & _ & Hv & _ & _ & _ & _ & _ & Hb & _).
    exists o. auto.
  - vm_compute in E. discriminate.
Defined.

Lemma truthy_not_nan (x : float) : JS.truthy x = true -> JS.isNaN x = false.
Proof.
  unfold JS.truthy, JS.isNaN. intros H.
  apply negb_true_iff, orb_false_iff in H. tauto.
Qed.

Lemma truthy_not_zero (x : float) : JS.truthy x = true -> JS.seq x 0 = false.
Proof.
  unfold JS.truthy, JS.seq. intros H.
  apply negb_true_iff, orb_false_iff in H. tauto.
Qed.

Lemma or_else_truthy (x d : float) : JS.truthy d = true -> JS.truthy (JS.or_else x d) = true.
Proof. intros Hd. unfold JS.or_else. now destruct (JS.truthy x) eqn:E. Qed.

Lemma or_else_not_nan (x d : float) : JS.isNaN d = false -> JS.isNaN (JS.or_else x d) = false.
Proof.
  intros Hd. unfold JS.or_else. destruct (JS.truthy x) eqn:E; [|exact Hd].
  now apply truthy_not_nan.
Qed.

(** X23: the defaults of the form, whatever it holds.  Forcing the
    elevation switches the cut at the lowest elevation off.  The default elevation and
    the manual smoothing distance are never [0] nor [NaN] (a blank field or a
    zero is replaced by 100 and by 10), so that the form cannot ask for a
    manual minimum distance of [0]; the sides of the region are never [NaN].
    The marker interval is never [NaN], and it is [0] exactly when the marker
    type is [0]: a custom interval left blank or set to zero is replaced by
    1000. *)
Theorem read_form_defaults (h : Host) (f : App.Form) :
  let o := App.read_form h f in
  zcut o && zoverride o = false /\
  JS.truthy (zconstant o) = true /\
  JS.truthy (smoothspan o) = true /\
  JS.isNaN (region_minx o) = false /\ JS.isNaN (region_maxx o) = false /\
  JS.isNaN (region_miny o) = false /\ JS.isNaN (region_maxy o) = false /\
  JS.isNaN (markerInterval o) = false /\
  (JS.seq (markerInterval o) 0 = true <->
   JS.seq (App.getRadioValue h (App.markerRadios f)) 0 = true).
Proof.
  cbv zeta. unfold App.read_form.
  cbn [zcut zoverride zconstant smoothspan region_minx region_maxx region_miny
       region_maxy markerInterval].
  split; [now destruct (App.zoverride_checked f), (App.zcut_checked f)|].
  split; [now apply or_else_truthy|]. split; [now apply or_else_truthy|].
  split; [now apply or_else_not_nan|]. split; [now apply or_else_not_nan|].
  split; [now apply or_else_not_nan|]. split; [now apply or_else_not_nan|].
  unfold App.getMarkerInterval.
  destruct (JS.seq (App.getRadioValue h (App.markerRadios f)) 0) eqn:T0;
    [split; [reflexivity | split; reflexivity]|].
  destruct (JS.seq (App.getRadioValue h (App.markerRadios f)) 1);
    [split; [reflexivity | split; discriminate]|].
  destruct (JS.seq (App.getRadioValue h (App.markerRadios f)) 2);
    [split; [reflexivity | split; discriminate]|].
  split; [now apply or_else_not_nan|].
  assert (Ht : JS.truthy (JS.or_else (parseFloat h (App.markerInterval_input f)) 1000) = true)
    by now apply or_else_truthy.
  apply truthy_not_zero in Ht. rewrite Ht. split; discriminate.
Qed.

Lemma getRadioValue_first (h : Host) (l1 l2 : list App.Radio) (r : App.Radio) :
  Forall (fun x => App.checked x = false) l1 -> App.checked r = true ->
  App.getRadioValue h (l1 ++ r :: l2) = parseInt h (App.value r).
Proof.
  intros H1 Hr. induction H1 as [| x l1 Hx _ IH]; cbn [app App.getRadioValue].
  - now rewrite Hr.
  - now rewrite Hx.
Qed.

Lemma getRadioValue_none (h : Host) (l : list App.Radio) :
  Forall (fun x => App.checked x = false) l -> App.getRadioValue h l = 0.
Proof.
  induction 1 as [| x l Hx _ IH]; cbn [App.getRadioValue]; [reflexivity|].
  now rewrite Hx.
Qed.

Lemma selected_shape_inactive (h : Host) (l : list App.ShapeBtn) :
  Forall (fun b => App.active b = false) l ->
  forall acc, fold_left (fun shape btn =>
                if App.active btn then parseInt h (App.data_shape btn) else shape) l acc = acc.
Proof.
  induction 1 as [| x l Hx _ IH]; intros acc; cbn [fold_left]; [reflexivity|].
  rewrite Hx. apply IH.
Qed.

(** X24: which element decides.  A radio group yields the value of its
    first checked button, whereas the shape is the one of the last active
    button: the loop over the shape buttons does not stop at the first.  With
    nothing checked or active both yield [0]. *)
Theorem form_choices (h : Host) :
  (forall l1 l2 r,
     Forall (fun x => App.checked x = false) l1 -> App.checked r = true ->
     App.getRadioValue h (l1 ++ r :: l2) = parseInt h (App.value r)) /\
  (forall l, Forall (fun x => App.checked x = false) l -> App.getRadioValue h l = 0) /\
  (forall l1 l2 b,
     App.active b = true -> Forall (fun x => App.active x = false) l2 ->
     App.selected_shape h (l1 ++ b :: l2) = parseInt h (App.data_shape b)) /\
  (forall l, Forall (fun x => App.active x = false) l -> App.selected_shape h l = 0).
Proof.
  split; [apply getRadioValue_first|]. split; [apply getRadioValue_none|]. split.
  - intros l1 l2 b Hb H2. unfold App.selected_shape.
    rewrite fold_left_app. cbn [fold_left]. rewrite Hb.
    now apply selected_shape_inactive.
  - intros l Hl. unfold App.selected_shape. now apply selected_shape_inactive.
Qed.

Lemma form_choices_witness :
  App.getRadioValue Reference.host
    [ {| App.checked := false; App.value := "0" |};
      {| App.checked := true; App.value := "1" |};
      {| App.checked := true; App.value := "2" |} ] = parseInt Reference.host "1" /\
  App.selected_shape Reference.host
    [ {| App.active := true; App.data_shape := "1" |};
      {| App.active := true; App.data_shape := "2" |};
      {| App.active := false; App.data_shape := "0" |} ] = parseInt Reference.host "2".
Proof.
  destruct (form_choices Reference.host) as (H1 & _ & H3 & _). split.
  - apply (H1 [ {| App.checked := false; App.value := "0" |} ]
              [ {| App.checked := true; App.value := "2" |} ]
              {| App.checked := true; App.value := "1" |});
      [repeat constructor | reflexivity].
  - apply (H3 [ {| App.active := true; App.data_shape := "1" |} ]
              [ {| App.active := false; App.data_shape := "0" |} ]
              {| App.active := true; App.data_shape := "2" |});
      [reflexivity | repeat constructor].
Defined.

(** ** The scale on a flat extent *)

Lemma gt_zero_spec (y : float) :
  JS.gt y 0 = true ->
  Prim2SF y = S754_infinity false \/ exists m e, Prim2SF y = S754_finite false m e.
Proof.
  unfold JS.gt. rewrite FloatAxioms.ltb_spec.
  change (Prim2SF 0) with (S754_zero false). unfold SFltb, SFcompare.
  destruct (Prim2SF y) as [sy | sy | | sy m e]; try destruct sy; try discriminate; eauto.
Qed.

Lemma div_zero_infinity (y : float) : JS.gt y 0 = true -> y / 0 = infinity.
Proof.
  intros H. apply Prim2SF_inj. rewrite div_spec.
  change (Prim2SF 0) with (S754_zero false).
  change (Prim2SF infinity) with (S754_infinity false).
  destruct (gt_zero_spec y H) as [-> | (m & e & ->)]; reflexivity.
Qed.

Lemma not_lt_infinity (a : float) :
  JS.isNaN a = false -> PrimFloat.ltb a infinity = false -> a = infinity.
Proof.
  intros Hn. apply isNaN_SFnum in Hn. rewrite FloatAxioms.ltb_spec.
  change (Prim2SF infinity) with (S754_infinity false). intros H.
  apply Prim2SF_inj. change (Prim2SF infinity) with (S754_infinity false).
  unfold SFltb, SFcompare in H.
  destruct (Prim2SF a) as [sa | sa | | sa m e]; try destruct sa; try discriminate;
    try contradiction; reflexivity.
Qed.

Lemma min_infinity (a : float) : JS.isNaN a = false -> JS.min a infinity = a.
Proof.
  intros Hn. unfold JS.min. rewrite Hn. cbn [orb].
  change (JS.isNaN infinity) with false. cbv iota.
  destruct (PrimFloat.ltb a infinity) eqn:E; [reflexivity|].
  rewrite (not_lt_infinity a Hn E). reflexivity.
Qed.

(** X25: on an extent that is [0] along y, as the one the automatic
    smoothing of a linear profile hands over, the scale is decided by the x
    axis alone: the y scale is [bed.y / 0], infinite when the bed is
    positive. *)
Theorem calcScale_flat (bed : Bed) (xextent : JS.number) :
  JS.gt (bed_y bed) 0 = true ->
  JS.isNaN (bed_x bed / xextent) = false ->
  calcScale bed xextent 0 = bed_x bed / xextent.
Proof.
  intros Hy Hx. unfold calcScale. cbv zeta.
  rewrite (div_zero_infinity _ Hy). now apply min_infinity.
Qed.

Lemma calcScale_flat_witness :
  calcScale {| bed_x := 90; bed_y := 90 |} 70 0 = 90 / 70.
Proof. apply (calcScale_flat {| bed_x := 90; bed_y := 90 |} 70); reflexivity. Defined.

(** ** The GPX parser *)

Lemma fold_push {A B} (g : A -> B) (l : list A) :
  forall acc, fold_left (fun pts a => pts ++ [g a]) l acc = acc ++ map g l.
Proof.
  induction l as [| a l IH]; intros acc; cbn [fold_left map].
  - now rewrite app_nil_r.
  - now rewrite IH, <- app_assoc.
Qed.

Lemma fold_concat {A B} (g : A -> list B) (l : list A) :
  forall acc, fold_left (fun all a => all ++ g a) l acc = acc ++ flat_map g l.
Proof.
  induction l as [| a l IH]; intros acc; cbn [fold_left flat_map].
  - now rewrite app_nil_r.
  - now rewrite IH, <- app_assoc.
Qed.

Lemma parseSegment_map (h : Host) (force : bool) (dflt : JS.number) (seg : DOM.Element) :
  GPXParser._parseSegment h force dflt seg =
  map (GPXParser._parsePoint h force dflt) (DOM.getElementsByTagName seg "trkpt").
Proof. unfold GPXParser._parseSegment. now rewrite fold_push. Qed.

(** X26: the points of a track are the points of all its segments, in
    document order, one per [trkpt] element; when the elevation is forced
    every point has the default elevation, whatever the file holds. *)
Theorem parseTrack_points (h : Host) (force : bool) (dflt : JS.number) (track : DOM.Element) :
  GPXParser._parseTrack h force dflt track =
    flat_map (fun seg => map (GPXParser._parsePoint h force dflt)
                             (DOM.getElementsByTagName seg "trkpt"))
             (DOM.getElementsByTagName track "trkseg") /\
  (force = true ->
   Forall (fun p => at2 p = dflt) (GPXParser._parseTrack h force dflt track)).
Proof.
  assert (E : GPXParser._parseTrack h force dflt track =
              flat_map (fun seg => map (GPXParser._parsePoint h force dflt)
                                       (DOM.getElementsByTagName seg "trkpt"))
                       (DOM.getElementsByTagName track "trkseg")).
  { unfold GPXParser._parseTrack. rewrite fold_concat. cbn [app].
    apply flat_map_ext. intros seg. apply parseSegment_map. }
  split; [exact E|]. intros ->. rewrite E.
  apply Forall_flat_map, Forall_forall. intros seg _.
  apply Forall_map, Forall_forall. intros pt _. reflexivity.
Qed.

Lemma parseTrack_points_witness :
  GPXParser._parseTrack Reference.host true 100 Gpx.trk =
    [V3 0 0 100; V3 0.001 0 100; V3 0.002 0 100] /\
  Forall (fun p => at2 p = 100) (GPXParser._parseTrack Reference.host true 100 Gpx.trk).
Proof.
  destruct (parseTrack_points Reference.host true 100 Gpx.trk) as [E H].
  split; [rewrite E; vm_compute; reflexivity | apply H; reflexivity].
Defined.

Lemma info_body_fields (h : Host) (prev : option vec3) (p : vec3) (st : GPXParser.info_state) :
  let st' := GPXParser.info_body h prev p st in
  GPXParser.i_minElevation st' =
    (if JS.lt (at2 p) (GPXParser.i_minElevation st) then at2 p
     else GPXParser.i_minElevation st) /\
  GPXParser.i_maxElevation st' =
    (if JS.gt (at2 p) (GPXParser.i_maxElevation st) then at2 p
     else GPXParser.i_maxElevation st) /\
  GPXParser.i_hasElevation st' = (real_elevation p || GPXParser.i_hasElevation st) /\
  GPXParser.i_totalDistance st' =
    match prev with
    | None => GPXParser.i_totalDistance st
    | Some q => GPXParser.i_totalDistance st + distVincenty h (at1 q) (at0 q) (at1 p) (at0 p)
    end.
Proof.
  cbv zeta. unfold GPXParser.info_body, real_elevation.
  destruct prev; cbn; destruct (negb (JS.seq (at2 p) 1) && negb (JS.seq (at2 p) 0)); auto.
Qed.

Lemma info_loop_distance (h : Host) (rest : list vec3) :
  forall (q : vec3) (st : GPXParser.info_state),
    GPXParser.i_totalDistance (GPXParser.info_loop h (Some q) rest st) =
    fold_left PrimFloat.add (segment_distances h q rest) (GPXParser.i_totalDistance st).
Proof.
  induction rest as [| p rest IH]; intros q st; [reflexivity|].
  cbn [GPXParser.info_loop segment_distances fold_left]. rewrite IH.
  now destruct (info_body_fields h (Some q) p st) as (_ & _ & _ & ->).
Qed.

Lemma info_loop_has (h : Host) (rest : list vec3) :
  forall (prev : option vec3) (st : GPXParser.info_state),
    GPXParser.i_hasElevation (GPXParser.info_loop h prev rest st) =
    (existsb real_elevation rest || GPXParser.i_hasElevation st).
Proof.
  induction rest as [| p rest IH]; intros prev st; [reflexivity|].
  cbn [GPXParser.info_loop existsb]. rewrite IH.
  destruct (info_body_fields h prev p st) as (_ & _ & -> & _).
  now destruct (real_elevation p), (existsb real_elevation rest).
Qed.

Lemma elevation_between_intro (lo hi : JS.number) (p : vec3) :
  JS.le lo (at2 p) = true -> JS.le (at2 p) hi = true -> elevation_between lo hi p = true.
Proof. unfold elevation_between. now intros -> ->. Qed.

Lemma info_loop_between (h : Host) (rest : list vec3) :
  forall (prev : option vec3) (st : GPXParser.info_state) (seen : list vec3),
    JS.isNaN (GPXParser.i_minElevation st) = false ->
    JS.isNaN (GPXParser.i_maxElevation st) = false ->
    Forall (fun p => JS.isNaN (at2 p) = false) rest ->
    Forall (fun p => elevation_between (GPXParser.i_minElevation st)
                                       (GPXParser.i_maxElevation st) p = true) seen ->
    let st' := GPXParser.info_loop h prev rest st in
    Forall (fun p => elevation_between (GPXParser.i_minElevation st')
                                       (GPXParser.i_maxElevation st') p = true)
           (seen ++ rest).
Proof.
  induction rest as [| q rest IH]; intros prev st seen N1 N2 Hrest Hseen; cbv zeta;
    cbn [GPXParser.info_loop].
  - now rewrite app_nil_r.
  - apply Forall_cons in Hrest as [Hq Hrest].
    destruct (info_body_fields h prev q st) as (E1 & E2 & _ & _).
    destruct (min_step _ _ Hq N1) as (A1 & A2 & A3).
    destruct (max_step _ _ Hq N2) as (B1 & B2 & B3).
    replace (seen ++ q :: rest) with ((seen ++ [q]) ++ rest) by now rewrite <- app_assoc.
    apply IH; rewrite ?E1, ?E2; try assumption.
    apply Forall_app. split.
    + eapply Forall_impl; [exact Hseen|]. intros p Hp. unfold elevation_between in Hp.
      apply andb_true_iff in Hp as [P1 P2].
      apply elevation_between_intro; eauto using number_le_trans.
    + apply Forall_singleton. now apply elevation_between_intro.
Qed.

Lemma calculateInfo_Ok (h : Host) (p0 : vec3) (rest : list vec3) (track : DOM.Element) :
  exists i pn,
    GPXParser._calculateInfo h (p0 :: rest) track = Ok i /\
    last (p0 :: rest) = Some pn /\
    GPXParser.totalPoints i = length (p0 :: rest) /\
    GPXParser.startCoord i = {| GPXParser.lat := at1 p0; GPXParser.lon := at0 p0 |} /\
    GPXParser.endCoord i = {| GPXParser.lat := at1 pn; GPXParser.lon := at0 pn |} /\
    let st := GPXParser.info_loop h None (p0 :: rest)
                {| GPXParser.i_totalDistance := 0;
                   GPXParser.i_minElevation := at2 p0; GPXParser.i_maxElevation := at2 p0;
                   GPXParser.i_totalGain := 0; GPXParser.i_totalLoss := 0;
                   GPXParser.i_hasElevation := false |} in
    GPXParser.totalDistance i = GPXParser.i_totalDistance st /\
    GPXParser.minElevation i = GPXParser.i_minElevation st /\
    GPXParser.maxElevation i = GPXParser.i_maxElevation st /\
    GPXParser.hasElevation i = GPXParser.i_hasElevation st.
Proof.
  destruct (last (p0 :: rest)) as [pn |] eqn:Hlast.
  2:{ apply last_None in Hlast. discriminate. }
  unfold GPXParser._calculateInfo.
  change (deref (p0 :: rest) 0) with (Ok p0). cbn [rbind].
  assert (Hn : deref (p0 :: rest) (Z.of_nat (length (p0 :: rest)) - 1) = Ok pn).
  { replace (Z.of_nat (length (p0 :: rest)) - 1)%Z with (Z.of_nat (length rest))
      by (cbn [length]; lia).
    apply deref_Ok. rewrite last_lookup in Hlast. exact Hlast. }
  rewrite Hn. cbn [rbind]. eexists _, pn. split; [reflexivity|].
  cbn. auto 10.
Qed.

(** X27: the distance shown with a loaded track is the distance the
    generator computes for it, to the last bit: both add the Vincenty lengths
    of the segments in order, from [0]. *)
Theorem info_distance (h : Host) (iv : JS.number) (p0 : vec3) (rest : list vec3)
    (track : DOM.Element) :
  exists i st,
    GPXParser._calculateInfo h (p0 :: rest) track = Ok i /\
    scan h iv (p0 :: rest) = Ok st /\
    GPXParser.totalDistance i = totaldist st /\
    GPXParser.totalDistance i = fold_left PrimFloat.add (segment_distances h p0 rest) 0.
Proof.
  destruct (calculateInfo_Ok h p0 rest track) as (i & pn & E & _ & _ & _ & _ & Hd & _).
  cbv zeta in Hd. cbn [GPXParser.info_loop] in Hd.
  rewrite info_loop_distance in Hd.
  destruct (info_body_fields h None p0
              {| GPXParser.i_totalDistance := 0;
                 GPXParser.i_minElevation := at2 p0; GPXParser.i_maxElevation := at2 p0;
                 GPXParser.i_totalGain := 0; GPXParser.i_totalLoss := 0;
                 GPXParser.i_hasElevation := false |}) as (_ & _ & _ & E4).
  rewrite E4 in Hd. cbn [GPXParser.i_totalDistance] in Hd.
  exists i, (scan_loop h iv 1 p0 rest (scan_init p0)).
  split; [exact E|]. split; [reflexivity|].
  destruct (scan_loop_arrays h iv rest 1 p0 (scan_init p0)) as (_ & _ & H3 & _).
  cbn [scan_init totaldist lastpt] in H3. rewrite H3, Hd. auto.
Qed.

(** X28: the elevations of the summary.  [hasElevation] tells whether some
    point has an elevation other than [0] and [1] (a [NaN] counts as one);
    when every elevation is a number, [minElevation] and [maxElevation]
    enclose them all; and the two coordinates are those of the first and of
    the last point. *)
Theorem info_elevation (h : Host) (p0 : vec3) (rest : list vec3) (track : DOM.Element) :
  exists i pn,
    GPXParser._calculateInfo h (p0 :: rest) track = Ok i /\
    last (p0 :: rest) = Some pn /\
    GPXParser.totalPoints i = length (p0 :: rest) /\
    GPXParser.startCoord i = {| GPXParser.lat := at1 p0; GPXParser.lon := at0 p0 |} /\
    GPXParser.endCoord i = {| GPXParser.lat := at1 pn; GPXParser.lon := at0 pn |} /\
    GPXParser.hasElevation i = existsb real_elevation (p0 :: rest) /\
    (Forall (fun p => JS.isNaN (at2 p) = false) (p0 :: rest) ->
     Forall (fun p => elevation_between (GPXParser.minElevation i)
                                        (GPXParser.maxElevation i) p = true)
            (p0 :: rest)).
Proof.
  destruct (calculateInfo_Ok h p0 rest track)
    as (i & pn & E & Hl & Hn & Hs & He & _ & Hmin & Hmax & Hhas).
  exists i, pn. split; [exact E|]. split; [exact Hl|]. split; [exact Hn|].
  split; [exact Hs|]. split; [exact He|]. split.
  - rewrite Hhas, info_loop_has. cbn [GPXParser.i_hasElevation]. apply orb_false_r.
  - intros Hnum. rewrite Hmin, Hmax.
    pose proof (Forall_inv Hnum) as H0.
    apply (info_loop_between h (p0 :: rest) None _ []); cbn; auto.
Qed.

Lemma info_elevation_witness :
  exists i,
    GPXParser._calculateInfo Reference.host [V3 0 0 10; V3 0.001 0 12; V3 0.002 0 11]
      Gpx.trk = Ok i /\
    GPXParser.hasElevation i = true /\
    Forall (fun p => elevation_between (GPXParser.minElevation i)
                                       (GPXParser.maxElevation i) p = true)
           [V3 0 0 10; V3 0.001 0 12; V3 0.002 0 11].
Proof.
  destruct (info_elevation Reference.host (V3 0 0 10) [V3 0.001 0 12; V3 0.002 0 11] Gpx.trk)
    as (i & pn & E & _ & _ & _ & _ & Hhas & Hbetween).
  exists i. split; [exact E|]. split; [rewrite Hhas; reflexivity|].
  apply Hbetween. repeat (apply List.Forall_cons; [reflexivity|]). apply List.Forall_nil.
Defined.

(** X29: [parse] never throws, and returns one of two things: an error
    message, one of its four, with no points and no summary; or, with no
    error, the points of the first track of the document, two at least, and
    their summary. *)
Theorem parse_outcomes (h : Host) (dom : DOM.Parser) (text : string) (force : bool)
    (dflt : JS.number) :
  exists r,
    GPXParser.parse h dom text force dflt = Ok r /\
    ((exists msg, msg ∈ parse_errors /\ r = GPXParser.failed msg) \/
     (exists doc track others pts i,
        dom text = Ok doc /\ DOM.parsererror doc = false /\
        DOM.elements doc "trk" = track :: others /\
        pts = GPXParser._parseTrack h force dflt track /\
        (2 <= length pts)%nat /\
        GPXParser._calculateInfo h pts track = Ok i /\
        GPXParser.totalPoints i = length pts /\
        r = {| GPXParser.points := Some pts; GPXParser.info := Some i;
               GPXParser.error := None |})).
Proof.
  unfold GPXParser.parse, parse_errors.
  destruct (dom text) as [doc | e] eqn:Edoc.
  2:{ eexists. split; [reflexivity|]. left. eexists. split; [|reflexivity].
      apply list_elem_of_here. }
  destruct (DOM.parsererror doc) eqn:Eerr.
  { eexists. split; [reflexivity|]. left. eexists. split; [|reflexivity].
    apply list_elem_of_further, list_elem_of_here. }
  destruct (DOM.elements doc "trk") as [| track others] eqn:Etrk.
  { eexists. split; [reflexivity|]. left. eexists. split; [|reflexivity].
    do 2 apply list_elem_of_further. apply list_elem_of_here. }
  cbv zeta.
  destruct (Nat.ltb_spec (length (GPXParser._parseTrack h force dflt track)) 2) as [Hlt | Hge].
  { eexists. split; [reflexivity|]. left. eexists. split; [|reflexivity].
    do 3 apply list_elem_of_further. apply list_elem_of_here. }
  destruct (GPXParser._parseTrack h force dflt track) as [| p0 rest] eqn:Epts;
    [simpl in Hge; lia|].
  destruct (calculateInfo_Ok h p0 rest track) as (i & pn & E & _ & Hn & _).
  rewrite E. cbn [rbind]. eexists. split; [reflexivity|]. right.
  exists doc, track, others, (p0 :: rest), i. auto 10.
Qed.

(** X30: on a document without a parser error, [parse] and [parseXML]
    return the same points: those of the first track, or [null] when there
    is no track or fewer than two points. *)
Theorem parseXML_agrees (h : Host) (dom : DOM.Parser) (text : string) (doc : DOM.Document)
    (force : bool) (dflt : JS.number) :
  dom text = Ok doc -> DOM.parsererror doc = false ->
  exists r,
    GPXParser.parse h dom text force dflt = Ok r /\
    GPXParser.points r = GPXParser.parseXML h doc force dflt.
Proof.
  intros Edoc Eerr. unfold GPXParser.parse, GPXParser.parseXML. rewrite Edoc, Eerr.
  destruct (DOM.elements doc "trk") as [| track others]; [eexists; split; reflexivity|].
  cbv zeta.
  destruct (GPXParser._parseTrack h force dflt track) as [| p0 [| p1 rest]] eqn:Epts;
    try (eexists; split; reflexivity).
  destruct (calculateInfo_Ok h p0 (p1 :: rest) track) as (i & pn & E & _).
  cbn [length Nat.ltb Nat.leb]. rewrite E. cbn [rbind]. eexists. split; reflexivity.
Qed.

Lemma parseXML_agrees_witness :
  exists r,
    GPXParser.parse Reference.host Gpx.parser "sample" false 1 = Ok r /\
    GPXParser.points r = GPXParser.parseXML Reference.host Gpx.document false 1 /\
    GPXParser.points r = Some [V3 0 0 10; V3 0.001 0 12; V3 0.002 0 11].
Proof.
  destruct (parseXML_agrees Reference.host Gpx.parser "sample" Gpx.document false 1)
    as (r & E & Hp); [reflexivity | reflexivity |].
  exists r. split; [exact E|]. split; [exact Hp|].
  rewrite Hp. vm_compute. reflexivity.
Defined.
